(** * A sentinel-based circular doubly-linked list (list.h)

    Shallow embedding of [ListNode<T>], [TNode<T>], [List<T>] and
    [List<T>::Iterator] over an explicit memory: a store of heap nodes, a
    store of [List] objects, and the responses of the allocator.  Every
    method is a computation in a small state-and-exception monad whose
    outcomes separate a normal return, a C++ exception, [std::terminate]
    and undefined behaviour. *)

From Stdlib Require Import ZArith Lia.
From stdpp Require Import gmap list.

Set Default Proof Using "Type".

(** ** Machine parameters *)

(** [size_t] is a 64-bit unsigned integer; arithmetic on it wraps. *)
Definition SIZE_MODULUS : Z := 2 ^ 64.

(** Node addresses are non-null 64-bit pointers: [1 .. 2^64 - 1]. *)
Definition ADDRESS_LIMIT : positive := 18446744073709551616%positive.

Definition nullptr : option positive := None.

(** What the container needs to know of its element type [T]: whether the
    copy constructor or the move constructor of a given value throws. *)
Class Element (T : Type) := {
  copy_throws : T → bool;
  move_throws : T → bool
}.

(** ** Data *)

Section Model.
Context {T : Type} `{Element T}.

(** [ListNode<T>] with its two links; [value_ = None] is a plain
    [ListNode] (the sentinel), [value_ = Some v] is a [TNode<T>]. *)
Record ListNode := mkNode {
  prev_ : option positive;
  next_ : option positive;
  value_ : option T
}.

(** The two data members of [List<T>]. *)
Record List := mkList {
  end_ : option positive;
  size_ : Z
}.

(** [List<T>::Iterator]: a single node pointer. *)
Record Iterator := mkIter { iter_ : option positive }.

(** Memory: heap nodes by address, live [List] objects by identity, and the
    allocator's answers to the coming [operator new] calls ([Some a]: the
    block at address [a]; [None]: failure). *)
Record mem := mkMem {
  nodes : gmap positive ListNode;
  lists : gmap positive List;
  allocator : list (option positive)
}.

Inductive exn := out_of_range | runtime_error | bad_alloc | element_exn.

Inductive outcome (A : Type) :=
  | Ok (a : A) (m : mem)
  | Throw (e : exn) (m : mem)
  | Terminate
  | Undefined
  | OutOfFuel.
Arguments Ok {A} a m.
Arguments Throw {A} e m.
Arguments Terminate {A}.
Arguments Undefined {A}.
Arguments OutOfFuel {A}.

Definition M (A : Type) := mem → outcome A.

Definition ret {A} (a : A) : M A := λ m, Ok a m.

Definition bind {A B} (c : M A) (k : A → M B) : M B :=
  λ m, match c m with
       | Ok a m' => k a m'
       | Throw e m' => Throw e m'
       | Terminate => Terminate
       | Undefined => Undefined
       | OutOfFuel => OutOfFuel
       end.

Notation "x <- c ;; k" := (bind c (λ x, k))
  (at level 100, c at next level, right associativity, only parsing).
Notation "c ;; k" := (bind c (λ _, k))
  (at level 100, right associativity, only parsing).

Definition throw {A} (e : exn) : M A := λ m, Throw e m.
Definition undefined {A} : M A := λ _, Undefined.
Definition terminate {A} : M A := λ _, Terminate.
Definition out_of_fuel {A} : M A := λ _, OutOfFuel.

(** [try { c } catch (...) { h }]. *)
Definition try_catch {A} (c : M A) (h : exn → M A) : M A :=
  λ m, match c m with
       | Throw e m' => h e m'
       | r => r
       end.

(** A [noexcept] function: an exception that escapes it ends the program. *)
Definition noexcept {A} (c : M A) : M A :=
  λ m, match c m with
       | Throw _ _ => Terminate
       | r => r
       end.

(** ** Allocation *)

Definition set_nodes (f : gmap positive ListNode → gmap positive ListNode)
    (m : mem) : mem :=
  mkMem (f (nodes m)) (lists m) (allocator m).

Definition set_lists (f : gmap positive List → gmap positive List)
    (m : mem) : mem :=
  mkMem (nodes m) (f (lists m)) (allocator m).

(** [operator new]: the allocator answers with an unused address below the
    address limit, or fails. *)
Definition operator_new : M positive :=
  λ m, match allocator m with
       | [] => Throw bad_alloc m
       | None :: rest => Throw bad_alloc (mkMem (nodes m) (lists m) rest)
       | Some a :: rest =>
           let m' := mkMem (nodes m) (lists m) rest in
           match nodes m !! a with
           | Some _ => Throw bad_alloc m'
           | None => if (a <? ADDRESS_LIMIT)%positive then Ok a m'
                     else Throw bad_alloc m'
           end
       end.

Definition store (a : positive) (n : ListNode) : M unit :=
  λ m, Ok tt (set_nodes (insert a n) m).

(** [new ListNode<T>()]: both links start as [nullptr]. *)
Definition new_ListNode : M positive :=
  a <- operator_new;;
  store a (mkNode nullptr nullptr None);;
  ret a.

(** [new (std::nothrow) ListNode<T>()]. *)
Definition new_nothrow_ListNode : M (option positive) :=
  try_catch (a <- new_ListNode;; ret (Some a)) (λ _, ret nullptr).

(** [new TNode<T>(element)]: [value_(other)] runs [T]'s copy constructor;
    when it throws, the new-expression releases the block and the
    exception propagates. *)
Definition new_TNode_copy (element : T) : M positive :=
  a <- operator_new;;
  if copy_throws element then throw element_exn
  else (store a (mkNode nullptr nullptr (Some element));; ret a).

(** [new TNode<T>(std::move(element))]: the constructor [TNode(T&&)] is
    declared [noexcept], so a throwing move constructor of [T] ends the
    program. *)
Definition new_TNode_move (element : T) : M positive :=
  a <- operator_new;;
  noexcept (if move_throws element then throw element_exn
            else store a (mkNode nullptr nullptr (Some element)));;
  ret a.

(** [delete p]: nothing for [nullptr]; the node must be live. *)
Definition delete_node (p : option positive) : M unit :=
  λ m, match p with
       | None => Ok tt m
       | Some a => match nodes m !! a with
                   | None => Undefined
                   | Some _ => Ok tt (set_nodes (delete a) m)
                   end
       end.

(** ** ListNode accessors *)

Definition load (p : option positive) : M ListNode :=
  λ m, match p with
       | None => Undefined
       | Some a => match nodes m !! a with
                   | None => Undefined
                   | Some n => Ok n m
                   end
       end.

Definition GetNext (p : option positive) : M (option positive) :=
  n <- load p;; ret (next_ n).

Definition GetPrev (p : option positive) : M (option positive) :=
  n <- load p;; ret (prev_ n).

Definition SetNext (p next : option positive) : M unit :=
  n <- load p;;
  match p with
  | Some a => store a (mkNode (prev_ n) next (value_ n))
  | None => undefined
  end.

Definition SetPrev (p prev : option positive) : M unit :=
  n <- load p;;
  match p with
  | Some a => store a (mkNode prev (next_ n) (value_ n))
  | None => undefined
  end.

(** [static_cast<TNode<T>*>(p)->GetValue()]: the node must be a [TNode]. *)
Definition GetValue (p : option positive) : M T :=
  n <- load p;;
  match value_ n with
  | Some v => ret v
  | None => undefined
  end.

(** ** Data members of a [List] object *)

Definition read_list (this : positive) : M List :=
  λ m, match lists m !! this with
       | Some L => Ok L m
       | None => Undefined
       end.

Definition write_list (this : positive) (L : List) : M unit :=
  λ m, Ok tt (set_lists (insert this L) m).

Definition get_end (this : positive) : M (option positive) :=
  L <- read_list this;; ret (end_ L).

Definition get_size (this : positive) : M Z :=
  L <- read_list this;; ret (size_ L).

Definition set_end (this : positive) (p : option positive) : M unit :=
  L <- read_list this;; write_list this (mkList p (size_ L)).

Definition set_size (this : positive) (n : Z) : M unit :=
  L <- read_list this;; write_list this (mkList (end_ L) n).

(** [++size_] and [--size_] on a [size_t]. *)
Definition incr_size (this : positive) : M unit :=
  n <- get_size this;; set_size this ((n + 1) mod SIZE_MODULUS).

Definition decr_size (this : positive) : M unit :=
  n <- get_size this;; set_size this ((n - 1) mod SIZE_MODULUS).

(** ** Iterator *)

(** [Iterator()] *)
Definition Iterator_default : Iterator := mkIter nullptr.

(** [operator++()]: the advanced iterator. *)
Definition Iterator_preinc (it : Iterator) : M Iterator :=
  if decide (iter_ it = nullptr) then throw out_of_range
  else (n <- GetNext (iter_ it);; ret (mkIter n)).

(** [operator++(int)]: the returned copy and the advanced iterator. *)
Definition Iterator_postinc (it : Iterator) : M (Iterator * Iterator) :=
  if decide (iter_ it = nullptr) then throw out_of_range
  else (let old := it in
        n <- GetNext (iter_ it);; ret (old, mkIter n)).

(** [operator--()] *)
Definition Iterator_predec (it : Iterator) : M Iterator :=
  if decide (iter_ it = nullptr) then throw out_of_range
  else (p <- GetPrev (iter_ it);;
        if decide (p = nullptr) then throw out_of_range
        else (p' <- GetPrev (iter_ it);; ret (mkIter p'))).

(** [operator--(int)] *)
Definition Iterator_postdec (it : Iterator) : M (Iterator * Iterator) :=
  if decide (iter_ it = nullptr) then throw out_of_range
  else (let old := it in
        p <- GetPrev (iter_ it);; ret (old, mkIter p)).

(** The dereference operator. *)
Definition Iterator_deref (it : Iterator) : M T :=
  if decide (iter_ it = nullptr) then throw runtime_error
  else GetValue (iter_ it).

(** The arrow operator: the address of the same value. *)
Definition Iterator_arrow (it : Iterator) : M T :=
  if decide (iter_ it = nullptr) then throw runtime_error
  else GetValue (iter_ it).

Definition Iterator_eq (a b : Iterator) : bool :=
  bool_decide (iter_ a = iter_ b).

Definition Iterator_ne (a b : Iterator) : bool :=
  negb (bool_decide (iter_ a = iter_ b)).

(** ** List: private primitives *)

Definition LinkAfter (after emplace : option positive) : M unit :=
  SetPrev emplace after;;
  n <- GetNext after;; SetNext emplace n;;
  n <- GetNext after;; SetPrev n emplace;;
  SetNext after emplace.

Definition UnLink (node : option positive) : M unit :=
  if decide (node ≠ nullptr) then
    p <- GetPrev node;; n <- GetNext node;; SetNext p n;;
    n <- GetNext node;; p <- GetPrev node;; SetPrev n p;;
    delete_node node
  else ret tt.

(** ** List: observers *)

Definition IsEmpty (this : positive) : M bool :=
  n <- get_size this;; ret (bool_decide (n = 0%Z)).

Definition Size (this : positive) : M Z := get_size this.

Definition Begin (this : positive) : M Iterator :=
  e <- get_end this;; n <- GetNext e;; ret (mkIter n).

Definition End (this : positive) : M Iterator :=
  e <- get_end this;; ret (mkIter e).

Definition Front (this : positive) : M T :=
  e <- get_end this;; n <- GetNext e;; GetValue n.

Definition Back (this : positive) : M T :=
  e <- get_end this;; p <- GetPrev e;; GetValue p.

(** ** List: mutators *)

(** In the four push methods the only expression of the [try] block that
    can throw is the new-expression, which throws before [new_node] is
    assigned: the handler therefore runs [delete new_node] on [nullptr]. *)
Definition PushBack (this : positive) (element : T) : M unit :=
  let new_node := nullptr in
  try_catch
    (new_node <- new_TNode_copy element;;
     e <- get_end this;; p <- GetPrev e;; LinkAfter p (Some new_node);;
     incr_size this)
    (λ ex, delete_node new_node;; throw ex).

Definition PushBack_move (this : positive) (element : T) : M unit :=
  let new_node := nullptr in
  try_catch
    (new_node <- new_TNode_move element;;
     e <- get_end this;; p <- GetPrev e;; LinkAfter p (Some new_node);;
     incr_size this)
    (λ ex, delete_node new_node;; throw ex).

Definition PushFront (this : positive) (element : T) : M unit :=
  let new_node := nullptr in
  try_catch
    (new_node <- new_TNode_copy element;;
     e <- get_end this;; LinkAfter e (Some new_node);;
     incr_size this)
    (λ ex, delete_node new_node;; throw ex).

Definition PushFront_move (this : positive) (element : T) : M unit :=
  let new_node := nullptr in
  try_catch
    (new_node <- new_TNode_move element;;
     e <- get_end this;; LinkAfter e (Some new_node);;
     incr_size this)
    (λ ex, delete_node new_node;; throw ex).

Definition PopBack (this : positive) : M unit :=
  e <- get_end this;; p <- GetPrev e;; UnLink p;;
  decr_size this.

Definition PopFront (this : positive) : M unit :=
  e <- get_end this;; n <- GetNext e;; UnLink n;;
  decr_size this.

Definition Erase (this : positive) (place : Iterator) : M unit :=
  let to_erase := iter_ place in
  e <- get_end this;;
  if decide (to_erase ≠ e) then (UnLink to_erase;; decr_size this)
  else ret tt.

(** [while (!IsEmpty()) body]: each round of a pop decrements [size_], so
    the loop is given the value of [size_] at entry as its bound. *)
Fixpoint while_not_empty (bound : nat) (this : positive) (body : M unit)
    : M unit :=
  b <- IsEmpty this;;
  if b then ret tt
  else match bound with
       | O => out_of_fuel
       | S bound' => body;; while_not_empty bound' this body
       end.

Definition clear_with (this : positive) (pop : M unit) : M unit :=
  n <- get_size this;; while_not_empty (Z.to_nat n) this pop.

(** ** List: construction, destruction, assignment *)

(** The lifetime of the object ends: its storage is gone. *)
Definition end_lifetime (this : positive) : M unit :=
  λ m, Ok tt (set_lists (delete this) m).

(** A constructor that exits by an exception leaves no object behind (and
    its destructor does not run). *)
Definition constructor (this : positive) (body : M unit) : M unit :=
  try_catch body (λ ex, end_lifetime this;; throw ex).

(** [List()] *)
Definition List_default (this : positive) : M unit :=
  constructor this
    (e <- new_ListNode;; write_list this (mkList (Some e) 0);;
     e <- get_end this;; SetNext e e;;
     e <- get_end this;; SetPrev e e).

(** The body of the [while] loop of the copy constructor. *)
Fixpoint copy_loop (fuel : nat) (this other : positive)
    (iter : option positive) : M unit :=
  oe <- get_end other;;
  if decide (iter ≠ oe) then
    match fuel with
    | O => out_of_fuel
    | S fuel' =>
        v <- GetValue iter;; PushBack this v;;
        iter' <- GetNext iter;;
        copy_loop fuel' this other iter'
    end
  else ret tt.

(** [List(const List& other)] *)
Definition List_copy (fuel : nat) (this other : positive) : M unit :=
  constructor this
    (e <- new_ListNode;; write_list this (mkList (Some e) 0);;
     e <- get_end this;; SetNext e e;;
     e <- get_end this;; SetPrev e e;;
     oe <- get_end other;; iter <- GetNext oe;;
     copy_loop fuel this other iter).

(** [List(List&& other) noexcept] *)
Definition List_move (this other : positive) : M unit :=
  noexcept
    (O <- read_list other;;
     write_list this (mkList (end_ O) (size_ O));;
     try_catch
       (e <- new_ListNode;; set_end other (Some e);;
        oe <- get_end other;; SetNext oe oe;;
        oe <- get_end other;; SetPrev oe oe;;
        set_size other 0)
       (λ _, set_end other nullptr;; set_size other 0)).

(** [~List()] *)
Definition List_destroy (this : positive) : M unit :=
  clear_with this (PopFront this);;
  e <- get_end this;; delete_node e;;
  set_end this nullptr;;
  end_lifetime this.

(** The [for] loop of copy assignment, from [it] to [other.End()]. *)
Fixpoint assign_loop (fuel : nat) (this other : positive) (it : Iterator)
    : M unit :=
  stop <- End other;;
  if Iterator_ne it stop then
    match fuel with
    | O => out_of_fuel
    | S fuel' =>
        v <- Iterator_deref it;; PushBack this v;;
        it' <- Iterator_preinc it;;
        assign_loop fuel' this other it'
    end
  else ret tt.

(** [operator=(const List& other)] *)
Definition List_copy_assign (fuel : nat) (this other : positive) : M unit :=
  if decide (this ≠ other) then
    clear_with this (PopBack this);;
    it <- Begin other;;
    assign_loop fuel this other it
  else ret tt.

(** [operator=(List&& other) noexcept] *)
Definition List_move_assign (this other : positive) : M unit :=
  noexcept
    (if decide (this ≠ other) then
       clear_with this (PopBack this);;
       e <- get_end this;; delete_node e;;
       oe <- get_end other;; set_end this oe;;
       n <- get_size other;; set_size this n;;
       fresh <- new_nothrow_ListNode;; set_end other fresh;;
       oe <- get_end other;;
       if decide (oe ≠ nullptr) then
         oe <- get_end other;; SetNext oe oe;;
         oe <- get_end other;; SetPrev oe oe;;
         set_size other 0
       else ret tt
     else ret tt).

(** ** Traversal, as a caller writes it

    a [for] loop from [l.Begin()] to [l.End()] that advances with [++it]
    and collects the dereferenced iterator at every position. *)
Fixpoint traverse_from (fuel : nat) (this : positive) (it : Iterator)
    : M (list T) :=
  stop <- End this;;
  if Iterator_ne it stop then
    match fuel with
    | O => out_of_fuel
    | S fuel' =>
        v <- Iterator_deref it;;
        it' <- Iterator_preinc it;;
        rest <- traverse_from fuel' this it';;
        ret (v :: rest)
    end
  else ret [].

Definition traverse (fuel : nat) (this : positive) : M (list T) :=
  it <- Begin this;; traverse_from fuel this it.

End Model.

Arguments Ok {T A} a m.
Arguments Throw {T A} e m.
Arguments Terminate {T A}.
Arguments Undefined {T A}.
Arguments OutOfFuel {T A}.

Notation "x <- c ;; k" := (bind c (λ x, k))
  (at level 100, c at next level, right associativity, only parsing).
Notation "c ;; k" := (bind c (λ _, k))
  (at level 100, right associativity, only parsing).

(** * Specification vocabulary

    The ring as a representation predicate, the frames of the mutators,
    and the operations a caller can put in a sequence. *)

Section Vocabulary.
Context {T : Type} `{Element T}.
Implicit Types (h : gmap positive (ListNode (T:=T))).
Implicit Types (ns : list (positive * T)) (m : mem (T:=T)).

(** The typed nodes of a list are described front to back by their
    addresses and values. *)
Definition hd_addr (ns : list (positive * T)) (z : positive) : positive :=
  match ns with
  | [] => z
  | (a, _) :: _ => a
  end.

Fixpoint last_addr (p : positive) (ns : list (positive * T)) : positive :=
  match ns with
  | [] => p
  | (a, _) :: rest => last_addr a rest
  end.

(** [chain h p ns z]: the nodes [ns] are linked in this order, the first
    one back to [p] and the last one forward to [z]. *)
Fixpoint chain h (p : positive) ns (z : positive) : Prop :=
  match ns with
  | [] => True
  | (a, v) :: rest =>
      h !! a = Some (mkNode (Some p) (Some (hd_addr rest z)) (Some v))
      ∧ chain h a rest z
  end.

(** [ring h e ns]: the sentinel [e] and the typed nodes [ns] form a
    circular doubly-linked list of pairwise distinct nodes. *)
Definition ring h (e : positive) ns : Prop :=
  NoDup (e :: ns.*1)
  ∧ h !! e = Some (mkNode (Some (last_addr e ns)) (Some (hd_addr ns e)) None)
  ∧ chain h e ns e.

(** Every live node sits at a 64-bit address. *)
Definition heap_wf h : Prop :=
  map_Forall (λ a _, (a < ADDRESS_LIMIT)%positive) h.

(** The [List] object [this] owns the ring of [e] and counts its nodes. *)
Definition is_list m (this e : positive) ns : Prop :=
  lists m !! this = Some (mkList (Some e) (Z.of_nat (length ns)))
  ∧ ring (nodes m) e ns.

(** The link equations of the invariant, node by node: [n.next.prev == n]
    and [n.prev.next == n] for every node [n] of [cyc], with both
    neighbours again in [cyc]. *)
Definition links_consistent h (cyc : list positive) : Prop :=
  ∀ a, a ∈ cyc →
    ∃ n b c nb nc,
      h !! a = Some n
      ∧ next_ n = Some b ∧ b ∈ cyc ∧ h !! b = Some nb ∧ prev_ nb = Some a
      ∧ prev_ n = Some c ∧ c ∈ cyc ∧ h !! c = Some nc ∧ next_ nc = Some a.

(** Memories that differ only inside the footprint [F]. *)
Definition nodes_frame (F : list positive) m m' : Prop :=
  ∀ b, b ∉ F → nodes m' !! b = nodes m !! b.

Definition lists_frame (this : positive) m m' : Prop :=
  ∀ o, o ≠ this → lists m' !! o = lists m !! o.

(** What a mutator leaves behind: the list [this] now holds [ns'], the
    heap is still well formed, the allocator has [al] left, and nothing
    outside the footprint [F] or the object [this] has changed. *)
Definition updated (this e : positive) ns' (F : list positive) al m m'
    : Prop :=
  is_list m' this e ns' ∧ heap_wf (nodes m') ∧ allocator m' = al
  ∧ nodes_frame F m m' ∧ lists_frame this m m'.

(** The allocator answers the next request with the unused address [a]. *)
Definition alloc_succeeds m (a : positive) (rest : list (option positive))
    : Prop :=
  allocator m = Some a :: rest ∧ nodes m !! a = None
  ∧ (a < ADDRESS_LIMIT)%positive.

(** The same for a request that is made after the blocks [F] have been
    released: the address [a] is unused, or it is one of [F]. *)
Definition alloc_succeeds_after m (F : list positive) (a : positive)
    (rest : list (option positive)) : Prop :=
  allocator m = Some a :: rest ∧ (nodes m !! a = None ∨ a ∈ F)
  ∧ (a < ADDRESS_LIMIT)%positive.

Inductive side := AtFront | AtBack.
Inductive passing := ByCopy | ByMove.

Definition push (s : side) (p : passing) : positive → T → M unit :=
  match s, p with
  | AtFront, ByCopy => PushFront
  | AtFront, ByMove => PushFront_move
  | AtBack, ByCopy => PushBack
  | AtBack, ByMove => PushBack_move
  end.

Definition ctor_throws (p : passing) (x : T) : bool :=
  match p with
  | ByCopy => copy_throws x
  | ByMove => move_throws x
  end.

Definition placed (s : side) (a : positive) (x : T) ns
    : list (positive * T) :=
  match s with
  | AtFront => (a, x) :: ns
  | AtBack => ns ++ [(a, x)]
  end.

(** Other [List] objects are untouched, and every other ring of the heap
    is still the same ring. *)
Definition bystanders_kept (this e : positive) m m' : Prop :=
  lists_frame this m m'
  ∧ ∀ eo nso, eo ≠ e → ring (nodes m) eo nso → ring (nodes m') eo nso.

Definition evolved (this e : positive) ns' m m' : Prop :=
  is_list m' this e ns' ∧ heap_wf (nodes m') ∧ bystanders_kept this e m m'.

(** Nothing was allocated: the allocator is where it was and no address
    has come to life. *)
Definition shrunk m m' : Prop :=
  allocator m' = allocator m
  ∧ ∀ c, nodes m !! c = None → nodes m' !! c = None.

(** ** Sequences of operations, as a caller performs them *)

Inductive op :=
  | OpPush (s : side) (p : passing) (x : T)
  | OpPopBack
  | OpPopFront
  | OpErase (k : nat).

(** [k] increments of an iterator. *)
Fixpoint advance (k : nat) (it : Iterator) : M (T:=T) Iterator :=
  match k with
  | O => ret it
  | S k' => it' <- Iterator_preinc it;; advance k' it'
  end.

(** [OpErase k] erases at the iterator reached from [Begin()] by [k]
    increments. *)
Definition run_op (this : positive) (o : op) : M (T:=T) unit :=
  match o with
  | OpPush s p x => push s p this x
  | OpPopBack => PopBack this
  | OpPopFront => PopFront this
  | OpErase k => it <- Begin this;; it' <- advance k it;; Erase this it'
  end.

Fixpoint run_ops (this : positive) (ops : list op) : M (T:=T) unit :=
  match ops with
  | [] => ret tt
  | o :: rest => run_op this o;; run_ops this rest
  end.

(** The element sequence the operations imply; [None] when an operation
    is applied outside its precondition (a pop of an empty sequence, an
    erase beyond the end position). *)
Definition apply_op (o : op) (vs : list T) : option (list T) :=
  match o with
  | OpPush AtFront _ x => Some (x :: vs)
  | OpPush AtBack _ x => Some (vs ++ [x])
  | OpPopBack =>
      match vs with
      | [] => None
      | _ :: _ => Some (take (length vs - 1) vs)
      end
  | OpPopFront =>
      match vs with
      | [] => None
      | _ :: rest => Some rest
      end
  | OpErase k => if decide (k ≤ length vs) then Some (delete k vs) else None
  end.

Fixpoint apply_ops (ops : list op) (vs : list T) : option (list T) :=
  match ops with
  | [] => Some vs
  | o :: rest =>
      match apply_op o vs with
      | Some vs' => apply_ops rest vs'
      | None => None
      end
  end.

Definition is_push (o : op) : bool :=
  match o with
  | OpPush _ _ _ => true
  | _ => false
  end.

Definition is_pop (o : op) : bool :=
  match o with
  | OpPopBack | OpPopFront => true
  | _ => false
  end.

Fixpoint count_ops (f : op → bool) (ops : list op) : nat :=
  match ops with
  | [] => 0
  | o :: rest => (if f o then 1 else 0) + count_ops f rest
  end.

(** No constructor of [T] throws during the operation. *)
Definition no_throw (o : op) : Prop :=
  match o with
  | OpPush _ p x => ctor_throws p x = false
  | _ => True
  end.

(** The next [k] answers of the allocator are pairwise distinct unused
    addresses (also distinct from [avoid]). *)
Fixpoint good_script h (k : nat)
    (al : list (option positive)) (avoid : list positive) : Prop :=
  match k with
  | O => True
  | S k' =>
      match al with
      | Some a :: rest =>
          h !! a = None ∧ (a < ADDRESS_LIMIT)%positive ∧ (a ∉ avoid)
          ∧ good_script h k' rest (a :: avoid)
      | _ => False
      end
  end.

(** The allocator reports failure on the next request. *)
Definition alloc_fails m : Prop :=
  allocator m = [] ∨ ∃ rest, allocator m = None :: rest.

(** Every ring of [m] is the same ring in [m']. *)
Definition all_rings_kept m m' : Prop :=
  ∀ e ns, ring (nodes m) e ns → ring (nodes m') e ns.

(** ** The ring invariant of a [List] object, and of a whole memory *)

(** The list [this] has a sentinel, its ring is consistent link by link,
    and it holds exactly [Size()] typed nodes. *)
Definition ring_invariant m (this : positive) : Prop :=
  ∃ e ns, is_list m this e ns ∧ links_consistent (nodes m) (e :: ns.*1).

(** No two [List] objects have the same sentinel. *)
Definition unshared m : Prop :=
  ∀ o1 o2 L1 L2,
    lists m !! o1 = Some L1 → lists m !! o2 = Some L2 →
    end_ L1 = end_ L2 → o1 = o2.

Definition mem_inv m : Prop :=
  heap_wf (nodes m)
  ∧ map_Forall (λ o _, ring_invariant m o) (lists m)
  ∧ unshared m.

(** ** The public operations, one call at a time *)

Inductive call :=
  | CDefault (this : positive)
  | CCopy (fuel : nat) (this other : positive)
  | CMove (this other : positive)
  | CDestroy (this : positive)
  | CCopyAssign (fuel : nat) (this other : positive)
  | CMoveAssign (this other : positive)
  | CIsEmpty (this : positive)
  | CSize (this : positive)
  | CFront (this : positive)
  | CBack (this : positive)
  | CBegin (this : positive)
  | CEnd (this : positive)
  | CPush (s : side) (p : passing) (this : positive) (x : T)
  | CPopBack (this : positive)
  | CPopFront (this : positive)
  | CErase (this : positive) (place : Iterator).

Definition run_call (c : call) : M (T:=T) unit :=
  match c with
  | CDefault this => List_default this
  | CCopy fuel this other => List_copy fuel this other
  | CMove this other => List_move this other
  | CDestroy this => List_destroy this
  | CCopyAssign fuel this other => List_copy_assign fuel this other
  | CMoveAssign this other => List_move_assign this other
  | CIsEmpty this => b <- IsEmpty this;; ret tt
  | CSize this => n <- Size this;; ret tt
  | CFront this => v <- Front this;; ret tt
  | CBack this => v <- Back this;; ret tt
  | CBegin this => it <- Begin this;; ret tt
  | CEnd this => it <- End this;; ret tt
  | CPush s p this x => push s p this x
  | CPopBack this => PopBack this
  | CPopFront this => PopFront this
  | CErase this place => Erase this place
  end.

Definition live m (this : positive) : Prop := is_Some (lists m !! this).

Definition nonempty m (this : positive) : Prop :=
  ∃ L, lists m !! this = Some L ∧ size_ L ≠ 0%Z.

Definition fuel_for m (other : positive) (fuel : nat) : Prop :=
  ∃ L, lists m !! other = Some L ∧ (size_ L ≤ Z.of_nat fuel)%Z.

(** The precondition of each call: constructors build an object that is
    not there yet, the other methods act on a live object; pops and
    [Front]/[Back] need an element; [Erase] needs an iterator into the
    list itself; the moves need the allocation of the replacement
    sentinel to succeed (move assignment allocates after it has released
    the nodes of [this], so the block may be one of them); the copy loops
    need fuel for every element. *)
Definition call_pre m (c : call) : Prop :=
  match c with
  | CDefault this => lists m !! this = None
  | CCopy fuel this other =>
      lists m !! this = None ∧ fuel_for m other fuel
  | CMove this other =>
      lists m !! this = None ∧ live m other
      ∧ ∃ a rest, alloc_succeeds m a rest
  | CDestroy this => live m this
  | CCopyAssign fuel this other => live m this ∧ fuel_for m other fuel
  | CMoveAssign this other =>
      live m this ∧ live m other
      ∧ (this ≠ other →
         ∃ e ns a rest, is_list m this e ns
                        ∧ alloc_succeeds_after m (e :: ns.*1) a rest)
  | CIsEmpty this | CSize this | CBegin this | CEnd this => live m this
  | CFront this | CBack this => nonempty m this
  | CPush _ _ this _ => live m this
  | CPopBack this | CPopFront this => nonempty m this
  | CErase this place =>
      ∃ e ns a, is_list m this e ns ∧ iter_ place = Some a
                ∧ a ∈ e :: ns.*1
  end.

(** What a completed move leaves: the destination owns the very nodes of
    the source's ring, each with its old contents, and the source is an
    empty list on a sentinel of its own. *)
Definition moved (this other e : positive) ns m m' : Prop :=
  is_list m' this e ns
  ∧ (∀ b, b ∈ e :: ns.*1 → nodes m' !! b = nodes m !! b)
  ∧ (∀ fuel, length ns ≤ fuel → traverse fuel this m' = Ok (ns.*2) m')
  ∧ IsEmpty other m' = Ok true m'
  ∧ Size other m' = Ok 0%Z m'
  ∧ (∀ fuel, traverse fuel other m' = Ok [] m')
  ∧ ∃ a, nodes m !! a = None ∧ is_list m' other a [].

(** What a completed move assignment leaves: the same, with the source an
    empty list on the block [a] that the allocator returned, which is none
    of the nodes that have moved. *)
Definition move_assigned (this other e : positive) ns (a : positive) m m'
    : Prop :=
  is_list m' this e ns
  ∧ (∀ b, b ∈ e :: ns.*1 → nodes m' !! b = nodes m !! b)
  ∧ (∀ fuel, length ns ≤ fuel → traverse fuel this m' = Ok (ns.*2) m')
  ∧ IsEmpty other m' = Ok true m'
  ∧ Size other m' = Ok 0%Z m'
  ∧ (∀ fuel, traverse fuel other m' = Ok [] m')
  ∧ (a ∉ e :: ns.*1) ∧ is_list m' other a [].

(** The list [A] is exactly as described by [eA] and [nsA]: same nodes,
    same values, same size, same traversal. *)
Definition original_intact (A eA : positive) nsA m : Prop :=
  is_list m A eA nsA
  ∧ Size A m = Ok (Z.of_nat (length nsA)) m
  ∧ ∀ fuel, length nsA ≤ fuel → traverse fuel A m = Ok (nsA.*2) m.

End Vocabulary.

(** An element type for the examples: integers whose copy and move
    constructors throw on negative values. *)
#[export] Instance Z_elements : Element Z := {|
  copy_throws := λ x, (x <? 0)%Z;
  move_throws := λ x, (x <? 0)%Z
|}.

(** ** Concrete memories and sequences for the examples *)

(** An empty list of integers: object 1 with its sentinel at address 10,
    and an allocator that will hand out 11, 12 and 13. *)
Definition ex_empty : mem (T:=Z) :=
  mkMem {[10%positive := mkNode (Some 10%positive) (Some 10%positive) None]}
        {[1%positive := mkList (Some 10%positive) 0]}
        [Some 11%positive; Some 12%positive; Some 13%positive].

(** A list of integers holding [5]: object 1, sentinel 10, node 11. *)
Definition ex_one : mem (T:=Z) :=
  mkMem (<[11%positive := mkNode (Some 10%positive) (Some 10%positive) (Some 5%Z)]>
           {[10%positive := mkNode (Some 11%positive) (Some 11%positive) None]})
        {[1%positive := mkList (Some 10%positive) 1]}
        [Some 12%positive; None].

(** Two lists of integers: object 1 is empty (sentinel 10), object 2
    holds [7] (sentinel 20, node 21). *)
Definition ex_two (al : list (option positive)) : mem (T:=Z) :=
  mkMem (<[21%positive := mkNode (Some 20%positive) (Some 20%positive) (Some 7%Z)]>
           (<[20%positive := mkNode (Some 21%positive) (Some 21%positive) None]>
              {[10%positive := mkNode (Some 10%positive) (Some 10%positive) None]}))
        (<[2%positive := mkList (Some 20%positive) 1]>
           {[1%positive := mkList (Some 10%positive) 0]})
        al.

(** The list [1, 2]: object 1, sentinel 10, nodes 11 and 12. *)
Definition ex_A : mem (T:=Z) :=
  mkMem (<[12%positive := mkNode (Some 11%positive) (Some 10%positive) (Some 2%Z)]>
           (<[11%positive := mkNode (Some 10%positive) (Some 12%positive) (Some 1%Z)]>
              {[10%positive := mkNode (Some 12%positive) (Some 11%positive) None]}))
        {[1%positive := mkList (Some 10%positive) 2]}
        [Some 20%positive; Some 21%positive; Some 22%positive;
         Some 23%positive].

(** [PushBack(1)], [PushBack(2)], [PushFront(0)]. *)
Definition scenario_ops : list (op (T:=Z)) :=
  [OpPush AtBack ByCopy 1%Z; OpPush AtBack ByCopy 2%Z;
   OpPush AtFront ByCopy 0%Z].

(** ** Compositions a caller writes, and the footprint of a list *)

Section Callers.
Context {T : Type} `{Element T}.

(** The free functions [begin(list)] and [end(list)]. *)
Definition global_begin (list : positive) : M (T:=T) Iterator := Begin list.

Definition global_end (list : positive) : M (T:=T) Iterator := End list.

(** [k] decrements of an iterator. *)
Fixpoint retreat (k : nat) (it : Iterator) : M (T:=T) Iterator :=
  match k with
  | O => ret it
  | S k' => it' <- Iterator_predec it;; retreat k' it'
  end.

(** The pop at the side of a push. *)
Definition pop (s : side) : positive → M (T:=T) unit :=
  match s with
  | AtFront => PopFront
  | AtBack => PopBack
  end.

(** The heap around a list whose nodes went from [ns] to [ns']: a node
    that left the ring is released, a node that joined it sits at an
    address that was free, and every other address holds what it held. *)
Definition footprint_kept (e : positive) (ns ns' : list (positive * T))
    (m m' : mem (T:=T)) : Prop :=
  (∀ b, b ∉ e :: ns'.*1 → b ∈ e :: ns.*1 → nodes m' !! b = None)
  ∧ (∀ b, b ∉ e :: ns'.*1 → b ∉ e :: ns.*1 → nodes m' !! b = nodes m !! b)
  ∧ (∀ b, b ∈ e :: ns'.*1 → b ∉ e :: ns.*1 → nodes m !! b = None).

(** A block that declares a list, uses it and ends,
    [{ List<T> l; body }]: the destructor runs when the block is left,
    also when [body] leaves it by an exception. *)
Definition block_with_list (this : positive) (body : M (T:=T) unit)
    : M (T:=T) unit :=
  List_default this;;
  try_catch body (λ ex, List_destroy this;; throw ex);;
  List_destroy this.

End Callers.


(** What a move construction of object 3 from the list [7] leaves when
    the replacement sentinel could not be allocated: object 3 owns the
    sentinel 20 and the node 21, object 2 has no sentinel. *)
Definition ex_moved_from (al : list (option positive)) : mem (T:=Z) :=
  mkMem (nodes (ex_two al))
        (<[2%positive := mkList nullptr 0]>
           (<[3%positive := mkList (Some 20%positive) 1]>
              (lists (ex_two al))))
        al.

(** * Basic facts about rings *)

Section Ring.
Context {T : Type} `{Element T}.
Implicit Types (h : gmap positive (ListNode (T:=T))).
Implicit Types (l : list (positive * T)).
Implicit Types (ns : list (positive * T)) (m : mem (T:=T)).

Lemma hd_addr_app l1 l2 z : hd_addr (l1 ++ l2) z = hd_addr l1 (hd_addr l2 z).
Proof. by destruct l1 as [|[]]. Qed.

Lemma last_addr_app p l1 l2 :
  last_addr p (l1 ++ l2) = last_addr (last_addr p l1) l2.
Proof. revert p. induction l1 as [|[a v] l1 IH]; intros p; simpl; auto. Qed.

Lemma chain_app h p l1 l2 z :
  chain h p (l1 ++ l2) z
  ↔ chain h p l1 (hd_addr l2 z) ∧ chain h (last_addr p l1) l2 z.
Proof.
  revert p. induction l1 as [|[a v] l1 IH]; intros p; simpl.
  - tauto.
  - rewrite IH, hd_addr_app. tauto.
Qed.

Lemma chain_frame h h' p ns z :
  (∀ b, b ∈ ns.*1 → h' !! b = h !! b) → chain h p ns z → chain h' p ns z.
Proof.
  revert p. induction ns as [|[a v] ns IH]; intros p Hf; simpl; [done|].
  intros [Ha Hc]. split.
  - rewrite Hf; [done|]. rewrite fmap_cons. apply list_elem_of_here.
  - apply IH; [|done]. intros b Hb. apply Hf.
    rewrite fmap_cons. by apply list_elem_of_further.
Qed.

Lemma chain_lookup h p l1 a v l2 z :
  chain h p (l1 ++ (a, v) :: l2) z →
  h !! a = Some (mkNode (Some (last_addr p l1)) (Some (hd_addr l2 z)) (Some v)).
Proof. rewrite chain_app. simpl. tauto. Qed.

Lemma elem_of_addrs_split ns (a : positive) :
  a ∈ ns.*1 → ∃ l1 v l2, ns = l1 ++ (a, v) :: l2.
Proof.
  intros ([a' v] & -> & Hin)%list_elem_of_fmap.
  apply list_elem_of_split in Hin as (l1 & l2 & ->). by exists l1, v, l2.
Qed.

Lemma chain_live h p ns z a :
  chain h p ns z → a ∈ ns.*1 → ∃ n v, h !! a = Some n ∧ value_ n = Some v.
Proof.
  intros Hc (l1 & v & l2 & ->)%elem_of_addrs_split.
  apply chain_lookup in Hc. eauto.
Qed.

Lemma ring_live h e ns a :
  ring h e ns → a ∈ e :: ns.*1 → is_Some (h !! a).
Proof.
  intros (_ & He & Hc) [->|Ha]%elem_of_cons; [eauto|].
  destruct (chain_live _ _ _ _ _ Hc Ha) as (n & _ & -> & _). eauto.
Qed.

Lemma ring_frame h h' e ns :
  (∀ b, b ∈ e :: ns.*1 → h' !! b = h !! b) → ring h e ns → ring h' e ns.
Proof.
  intros Hf (Hnd & He & Hc). split; [done|]. split.
  - rewrite Hf; [done|]. apply list_elem_of_here.
  - eapply chain_frame; [|done]. intros b Hb. apply Hf.
    by apply list_elem_of_further.
Qed.

Lemma pigeonhole (l : list positive) (b : positive) :
  NoDup l → (∀ x, x ∈ l → (x < b)%positive) →
  (Z.of_nat (length l) < Z.pos b)%Z.
Proof.
  intros Hnd Hlt.
  assert (Hsub : (Pos.to_nat <$> l) ⊆+ seq 1 (Pos.to_nat b - 1)).
  { apply NoDup_submseteq.
    - by apply (NoDup_fmap_2 _).
    - intros n [x [-> Hx]]%list_elem_of_fmap. apply elem_of_seq.
      specialize (Hlt x Hx). lia. }
  apply submseteq_length in Hsub.
  rewrite length_fmap, length_seq in Hsub. lia.
Qed.

Lemma ring_bounded h e ns a :
  heap_wf h → ring h e ns → a ∈ e :: ns.*1 → (a < ADDRESS_LIMIT)%positive.
Proof.
  intros Hwf Hr Ha. destruct (ring_live _ _ _ _ Hr Ha) as [n Hn].
  exact (Hwf a n Hn).
Qed.

(** A ring cannot hold more typed nodes than [size_t] can count. *)
Lemma ring_length_bound h e ns :
  heap_wf h → ring h e ns → (Z.of_nat (length ns) + 1 < SIZE_MODULUS)%Z.
Proof.
  intros Hwf Hr.
  assert (Hb := pigeonhole (e :: ns.*1) ADDRESS_LIMIT (proj1 Hr)
                  (λ x Hx, ring_bounded _ _ _ _ Hwf Hr Hx)).
  simpl in Hb. rewrite length_fmap in Hb.
  change (Z.pos ADDRESS_LIMIT) with SIZE_MODULUS in Hb. lia.
Qed.

Lemma heap_wf_frame (F : list positive) h h' :
  heap_wf h → (∀ b, b ∉ F → h' !! b = h !! b) →
  (∀ b, b ∈ F → (b < ADDRESS_LIMIT)%positive) → heap_wf h'.
Proof.
  intros Hwf Hf HF a n Hn.
  destruct (decide (a ∈ F)) as [Hin|Hout]; [by apply HF|].
  rewrite Hf in Hn by done. exact (Hwf a n Hn).
Qed.

End Ring.

(** * Symbolic execution of the model *)

#[local] Set Warnings "-clear-no-such-hyp".

Ltac red_model :=
  unfold LinkAfter, UnLink, incr_size, decr_size, get_end, get_size, set_end,
    set_size, read_list, write_list, GetNext, GetPrev, SetNext, SetPrev,
    GetValue, load, store, delete_node, bind, ret, throw, undefined,
    terminate, out_of_fuel, set_nodes, set_lists, nullptr;
  cbn [nodes lists allocator prev_ next_ value_ end_ size_ iter_].

Ltac keep_sets :=
  repeat match goal with
  | Hx : ?P |- _ =>
      lazymatch P with
      | _ ∈ _ => fail
      | _ ∉ _ => fail
      | _ ≠ _ => fail
      | NoDup _ => fail
      | (∀ _, _ ∈ _ → _) => fail
      | _ => clear Hx
      end
  end.

Ltac hide_fmaps :=
  repeat match goal with
  | |- context [fmap ?f ?l] =>
      is_var l; let L := fresh "L" in set (L := fmap f l) in *; clearbody L
  | Hx : context [fmap ?f ?l] |- _ =>
      is_var l; let L := fresh "L" in set (L := fmap f l) in *; clearbody L
  end.

Ltac ne_solve :=
  first [done | congruence | (keep_sets; hide_fmaps; set_solver)].

Ltac exec1 :=
  first
    [ rewrite lookup_insert_eq
    | rewrite lookup_insert_ne by ne_solve
    | rewrite lookup_delete_eq
    | rewrite lookup_delete_ne by ne_solve
    | rewrite decide_True by ne_solve
    | rewrite decide_False by ne_solve
    | match goal with
      | Hl : ?x !! ?a = _ |- context [?x !! ?a] => rewrite Hl
      end ].

Ltac exec := red_model; repeat (exec1; red_model).

Ltac norm :=
  rewrite ?fmap_app, ?fmap_cons, ?fmap_nil, ?last_addr_app, ?hd_addr_app,
    ?app_nil_r in *;
  cbn [hd_addr last_addr chain fst snd app] in *.

Ltac nodup_inv :=
  repeat match goal with
  | Hd : NoDup (_ :: _) |- _ => apply NoDup_cons in Hd as [? Hd]
  | Hd : NoDup (_ ++ _) |- _ => apply NoDup_app in Hd as (? & ? & ?)
  | Hd : NoDup [] |- _ => clear Hd
  end.

Ltac nodup_solve :=
  norm; repeat (rewrite NoDup_cons || rewrite NoDup_app);
  repeat split; try apply NoDup_nil_2; try assumption;
  keep_sets; hide_fmaps; set_solver.

Ltac red_top :=
  unfold incr_size, decr_size, get_end, get_size, set_end,
    set_size, read_list, write_list, GetNext, GetPrev, SetNext, SetPrev,
    GetValue, load, store, delete_node, bind, ret, throw, undefined,
    terminate, out_of_fuel, try_catch, noexcept, set_nodes, set_lists,
    nullptr;
  cbn [nodes lists allocator prev_ next_ value_ end_ size_ iter_].

Ltac exec_top := red_top; repeat (exec1; red_top).

Lemma bind_Ok {T A B} (c : M (T:=T) A) (k : A → M B) m a m' :
  c m = Ok a m' → bind c k m = k a m'.
Proof. unfold bind. by intros ->. Qed.

Ltac run_bind := erewrite bind_Ok; [cbv beta|exec_top; reflexivity].

Ltac red_iter :=
  unfold Begin, End, Size, IsEmpty, Front, Back, Iterator_ne, Iterator_eq,
    Iterator_deref, Iterator_arrow, Iterator_preinc, Iterator_postinc,
    Iterator_predec, Iterator_postdec, Iterator_default;
  cbn [iter_].

(** Facts about a concrete memory, by evaluation. *)
Ltac concrete :=
  repeat match goal with
  | |- _ ∧ _ => split
  | |- True => exact I
  | |- NoDup _ => apply (bool_decide_unpack _); vm_compute; exact I
  | |- heap_wf _ => apply (bool_decide_unpack _); vm_compute; exact I
  | |- is_list _ _ _ _ => unfold is_list
  | |- ring _ _ _ => unfold ring
  | |- chain _ _ _ _ => cbn [chain]
  | |- alloc_succeeds _ _ _ => unfold alloc_succeeds
  | |- good_script _ _ _ _ => cbn [good_script]
  | |- Forall _ _ => constructor
  | |- _ ∉ _ => apply (bool_decide_unpack _); vm_compute; exact I
  | |- _ ≠ _ => discriminate
  | |- (_ < _)%positive => vm_compute; reflexivity
  | |- _ = _ => vm_compute; reflexivity
  end.

(** * The two private primitives on a ring *)

Section Primitives.
Context {T : Type} `{Element T}.
Implicit Types (h : gmap positive (ListNode (T:=T))).
Implicit Types (ls : gmap positive List) (al : list (option positive)).
Implicit Types (l : list (positive * T)).
Implicit Types (ns : list (positive * T)).

Lemma snoc_case ns : ns = [] ∨ ∃ l b w, ns = l ++ [(b, w)].
Proof.
  destruct ns as [|x ns] using rev_ind; [by left|].
  right. destruct x as [b w]. by exists ns, b, w.
Qed.

Lemma ring_fresh h e ns a : ring h e ns → h !! a = None → a ∉ e :: ns.*1.
Proof.
  intros Hr Ha Hin. destruct (ring_live _ _ _ _ Hr Hin) as [? ?]. congruence.
Qed.

Lemma LinkAfter_front h ls al e ns a v :
  ring (h) e ns → h !! a = None →
  ∃ h', LinkAfter (Some e) (Some a)
          (mkMem (<[a := mkNode None None (Some v)]> h) ls al)
        = Ok tt (mkMem h' ls al)
      ∧ ring h' e ((a, v) :: ns)
      ∧ (∀ b, b ∉ a :: e :: ns.*1 → h' !! b = h !! b).
Proof.
  intros Hr Ha. pose proof (ring_fresh _ _ _ _ Hr Ha) as Hfresh.
  destruct Hr as (Hnd & He & Hc).
  destruct ns as [|[b w] rest]; norm.
  - eexists. split; [|split].
    + exec. reflexivity.
    + split; [|split]; norm; [nodup_solve|by exec|]. split; [by exec|done].
    + intros c Hc'. by exec.
  - destruct Hc as [Hb Hc]. nodup_inv.
    eexists. split; [|split].
    + exec. reflexivity.
    + split; [|split]; norm; [nodup_solve|by exec|]. 
      split; [by exec|]. split; [by exec|].
      eapply chain_frame; [|done]. intros c Hc'. by exec.
    + intros c Hc'. by exec.
Qed.

Lemma LinkAfter_back h ls al e ns a v :
  ring (h) e ns → h !! a = None →
  ∃ h', LinkAfter (Some (last_addr e ns)) (Some a)
          (mkMem (<[a := mkNode None None (Some v)]> h) ls al)
        = Ok tt (mkMem h' ls al)
      ∧ ring h' e (ns ++ [(a, v)])
      ∧ (∀ b, b ∉ a :: e :: ns.*1 → h' !! b = h !! b).
Proof.
  intros Hr Ha. pose proof (ring_fresh _ _ _ _ Hr Ha) as Hfresh.
  destruct Hr as (Hnd & He & Hc).
  destruct (snoc_case ns) as [->|(l & b & w & ->)]; norm.
  - eexists. split; [|split].
    + exec. reflexivity.
    + split; [|split]; norm; [nodup_solve|by exec|]. split; [by exec|done].
    + intros c Hc'. by exec.
  - apply chain_app in Hc as [Hc1 [Hb _]]. norm. nodup_inv.
    assert (b ≠ e) by ne_solve. assert (a ≠ b) by ne_solve.
    assert (a ≠ e) by ne_solve.
    eexists. split; [|split].
    + exec. reflexivity.
    + split; [|split]; norm; [nodup_solve|by exec|].
      rewrite <- app_assoc. apply chain_app. norm. split.
      * eapply chain_frame; [|done]. intros c Hc'. by exec.
      * split; [by exec|]. split; [by exec|done].
    + intros c Hc'. by exec.
Qed.

Lemma UnLink_ring h ls al e l1 a v l2 :
  ring (h) e (l1 ++ (a, v) :: l2) →
  ∃ h', UnLink (Some a) (mkMem h ls al) = Ok tt (mkMem h' ls al)
      ∧ ring h' e (l1 ++ l2)
      ∧ h' !! a = None
      ∧ (∀ b, b ∉ e :: (l1 ++ (a, v) :: l2).*1 → h' !! b = h !! b).
Proof.
  intros (Hnd & He & Hc).
  pose proof (chain_lookup _ _ _ _ _ _ _ Hc) as Ha.
  apply chain_app in Hc as [Hc1 [_ Hc2]].
  destruct (snoc_case l1) as [->|(l & b & w & ->)];
    destruct l2 as [|[c u] r]; norm.
  - nodup_inv. eexists. split; [|split; [|split]].
    + exec. reflexivity.
    + split; [|split]; norm; [nodup_solve|by exec|done].
    + by exec.
    + intros d Hd. by exec.
  - destruct Hc2 as [Hcc Hc2]. nodup_inv.
    eexists. split; [|split; [|split]].
    + exec. reflexivity.
    + split; [|split]; norm; [nodup_solve|by exec|].
      split; [by exec|]. eapply chain_frame; [|done]. intros d Hd. by exec.
    + by exec.
    + intros d Hd. by exec.
  - apply chain_app in Hc1 as [Hc1 [Hb _]]. norm. nodup_inv.
    assert (b ≠ e) by ne_solve. assert (a ≠ b) by ne_solve.
    assert (a ≠ e) by ne_solve.
    eexists. split; [|split; [|split]].
    + exec. reflexivity.
    + split; [|split]; norm; [nodup_solve|by exec|].
      apply chain_app. norm. split.
      * eapply chain_frame; [|done]. intros d Hd. by exec.
      * split; [by exec|done].
    + by exec.
    + intros d Hd. by exec.
  - apply chain_app in Hc1 as [Hc1 [Hb _]]. norm.
    destruct Hc2 as [Hcc Hc2]. nodup_inv.
    assert (b ≠ e) by ne_solve. assert (a ≠ b) by ne_solve.
    assert (a ≠ e) by ne_solve. assert (c ≠ e) by ne_solve.
    assert (c ≠ a) by ne_solve. assert (c ≠ b) by ne_solve.
    eexists. split; [|split; [|split]].
    + exec. reflexivity.
    + split; [|split]; norm; [nodup_solve|by exec|].
      rewrite <- app_assoc. apply chain_app. norm. split.
      * eapply chain_frame; [|done]. intros d Hd. by exec.
      * split; [by exec|]. split; [by exec|].
        eapply chain_frame; [|done]. intros d Hd. by exec.
    + by exec.
    + intros d Hd. by exec.
Qed.

End Primitives.

(** * The public methods on a ring *)

Section Methods.
Context {T : Type} `{Element T}.
Implicit Types (h : gmap positive (ListNode (T:=T))).
Implicit Types (ls : gmap positive List) (al : list (option positive)).
Implicit Types (l : list (positive * T)).
Implicit Types (ns : list (positive * T)) (m : mem (T:=T)).

Lemma size_incr_exact h e ns' (n : nat) :
  heap_wf h → ring h e ns' → length ns' = S n →
  ((Z.of_nat n + 1) mod SIZE_MODULUS)%Z = Z.of_nat (length ns').
Proof.
  intros Hwf Hr Hn. pose proof (ring_length_bound _ _ _ Hwf Hr).
  rewrite Z.mod_small; lia.
Qed.

Lemma size_decr_exact h e ns (n : nat) :
  heap_wf h → ring h e ns → length ns = S n →
  ((Z.of_nat (length ns) - 1) mod SIZE_MODULUS)%Z = Z.of_nat n.
Proof.
  intros Hwf Hr Hn. pose proof (ring_length_bound _ _ _ Hwf Hr).
  rewrite Z.mod_small; lia.
Qed.

Lemma operator_new_Ok m a rest :
  alloc_succeeds m a rest →
  operator_new m = Ok a (mkMem (nodes m) (lists m) rest).
Proof.
  intros (Hal & Ha & Hlt). unfold operator_new. rewrite Hal, Ha.
  apply Pos.ltb_lt in Hlt. by rewrite Hlt.
Qed.

Lemma operator_new_cases m :
  (∃ a rest, alloc_succeeds m a rest)
  ∨ (∃ rest, operator_new m = Throw bad_alloc (mkMem (nodes m) (lists m) rest)).
Proof.
  unfold operator_new, alloc_succeeds. destruct m as [h ls al].
  cbn [nodes lists allocator].
  destruct al as [|[a|] rest]; [right; by eexists| |right; by eexists].
  destruct (h !! a) eqn:Ha; [right; by eexists|].
  destruct (a <? ADDRESS_LIMIT)%positive eqn:Hlt; [|right; by eexists].
  left. exists a, rest. by apply Pos.ltb_lt in Hlt.
Qed.

(** ** Pushes *)

Lemma length_placed s a x ns : length (placed s a x ns) = S (length ns).
Proof. destruct s; cbn [placed length]; [done|]. rewrite length_app. simpl. lia. Qed.

Lemma push_ok s p m this e ns x a rest :
  heap_wf (nodes m) → is_list m this e ns →
  alloc_succeeds m a rest → ctor_throws p x = false →
  ∃ m', push s p this x m = Ok tt m'
      ∧ updated this e (placed s a x ns) (a :: e :: ns.*1) rest m m'.
Proof.
  intros Hwf [Hl Hr] (Hal & Ha & Hlt) Hx. destruct m as [h ls al].
  cbn [nodes lists allocator] in *. subst al.
  assert (∃ h', LinkAfter (Some (match s with AtFront => e
                                 | AtBack => last_addr e ns end)) (Some a)
                  (mkMem (<[a := mkNode None None (Some x)]> h) ls rest)
                = Ok tt (mkMem h' ls rest)
              ∧ ring h' e (placed s a x ns)
              ∧ (∀ b, b ∉ a :: e :: ns.*1 → h' !! b = h !! b))
    as (h' & Hlink & Hr' & Hf).
  { destruct s; [by apply LinkAfter_front|by apply LinkAfter_back]. }
  assert (Hwf' : heap_wf h').
  { apply (heap_wf_frame (a :: e :: ns.*1) h); [done|done|].
    intros b [->|Hb]%elem_of_cons; [done|].
    by apply (ring_bounded h e ns). }
  pose proof Hr as (_ & He & _).
  apply Pos.ltb_lt in Hlt.
  eexists. split.
  - destruct s, p; cbn [push ctor_throws] in *;
      unfold PushFront, PushFront_move, PushBack, PushBack_move,
        new_TNode_copy, new_TNode_move, operator_new;
      exec_top; rewrite Hlt, Hx; exec_top; rewrite Hlink; exec_top;
      reflexivity.
  - split; [|split; [|split; [|split]]]; cbn [nodes lists allocator].
    + split; cbn [nodes lists]; [|done]. rewrite lookup_insert_eq.
      do 2 f_equal. apply (size_incr_exact h' e); [done|done|].
      apply length_placed.
    + done.
    + done.
    + intros b Hb. by apply Hf.
    + intros o Ho. cbn [lists]. by rewrite lookup_insert_ne.
Qed.

(** A failed allocation: the handler deletes [nullptr] and rethrows. *)
Lemma push_bad_alloc s p m this x m1 :
  operator_new m = Throw bad_alloc m1 →
  push s p this x m = Throw bad_alloc m1.
Proof.
  intros Hnew.
  destruct s, p; cbn [push];
    unfold PushFront, PushFront_move, PushBack, PushBack_move,
      new_TNode_copy, new_TNode_move, try_catch, bind;
    by rewrite Hnew.
Qed.

(** A throwing copy constructor: the block was never linked. *)
Lemma push_copy_throws s m this x a rest :
  alloc_succeeds m a rest → copy_throws x = true →
  push s ByCopy this x m
  = Throw element_exn (mkMem (nodes m) (lists m) rest).
Proof.
  intros Hnew%operator_new_Ok Hx.
  destruct s; cbn [push];
    unfold PushFront, PushBack, new_TNode_copy, try_catch, bind;
    by rewrite Hnew, Hx.
Qed.

(** A throwing move constructor escapes the [noexcept] constructor of
    [TNode]. *)
Lemma push_move_throws s m this x a rest :
  alloc_succeeds m a rest → move_throws x = true →
  push s ByMove this x m = Terminate.
Proof.
  intros Hnew%operator_new_Ok Hx.
  destruct s; cbn [push];
    unfold PushFront_move, PushBack_move, new_TNode_move, try_catch, bind,
      noexcept;
    by rewrite Hnew, Hx.
Qed.

(** ** Pops and Erase *)

Lemma ring_sentinel_ne h e l1 a v l2 :
  ring h e (l1 ++ (a, v) :: l2) → a ≠ e.
Proof. intros (Hnd & _ & _). norm. nodup_inv. ne_solve. Qed.

Lemma unlink_at m this e l1 a v l2 :
  heap_wf (nodes m) → is_list m this e (l1 ++ (a, v) :: l2) →
  ∃ m', bind (UnLink (Some a)) (λ _, decr_size this) m = Ok tt m'
      ∧ updated this e (l1 ++ l2) (e :: (l1 ++ (a, v) :: l2).*1)
          (allocator m) m m'
      ∧ nodes m' !! a = None.
Proof.
  intros Hwf [Hl Hr]. destruct m as [h ls al].
  cbn [nodes lists allocator] in *.
  destruct (UnLink_ring h ls al e l1 a v l2 Hr) as (h' & Hun & Hr' & Ha & Hf).
  assert (Hwf' : heap_wf h').
  { apply (heap_wf_frame (e :: (l1 ++ (a, v) :: l2).*1) h); [done|done|].
    intros b Hb. by apply (ring_bounded h e (l1 ++ (a, v) :: l2)). }
  eexists. split; [|split].
  - unfold bind at 1. rewrite Hun. exec_top. reflexivity.
  - split; [|split; [|split; [|split]]]; cbn [nodes lists allocator].
    + split; cbn [nodes lists]; [|done]. rewrite lookup_insert_eq.
      do 2 f_equal. apply (size_decr_exact h e); [done|done|].
      rewrite !length_app. simpl. lia.
    + done.
    + done.
    + intros b Hb. by apply Hf.
    + intros o Ho. cbn [lists]. by rewrite lookup_insert_ne.
  - done.
Qed.

Lemma PopFront_ok m this e a v ns :
  heap_wf (nodes m) → is_list m this e ((a, v) :: ns) →
  ∃ m', PopFront this m = Ok tt m'
      ∧ updated this e ns (e :: a :: ns.*1) (allocator m) m m'
      ∧ nodes m' !! a = None.
Proof.
  intros Hwf Hlist.
  destruct (unlink_at m this e [] a v ns Hwf Hlist) as (m' & Hrun & Hup).
  destruct Hlist as [Hl (_ & He & _)]. norm.
  exists m'. split; [|done]. unfold PopFront. run_bind. run_bind. exact Hrun.
Qed.

Lemma PopBack_ok m this e ns a v :
  heap_wf (nodes m) → is_list m this e (ns ++ [(a, v)]) →
  ∃ m', PopBack this m = Ok tt m'
      ∧ updated this e ns (e :: (ns ++ [(a, v)]).*1) (allocator m) m m'
      ∧ nodes m' !! a = None.
Proof.
  intros Hwf Hlist.
  destruct (unlink_at m this e ns a v [] Hwf Hlist) as (m' & Hrun & Hup).
  rewrite app_nil_r in Hup.
  destruct Hlist as [Hl (_ & He & _)]. rewrite last_addr_app in He.
  cbn [last_addr] in He.
  exists m'. split; [|done]. unfold PopBack. run_bind. run_bind. exact Hrun.
Qed.

Lemma Erase_node m this e l1 a v l2 :
  heap_wf (nodes m) → is_list m this e (l1 ++ (a, v) :: l2) →
  ∃ m', Erase this (mkIter (Some a)) m = Ok tt m'
      ∧ updated this e (l1 ++ l2) (e :: (l1 ++ (a, v) :: l2).*1)
          (allocator m) m m'
      ∧ nodes m' !! a = None.
Proof.
  intros Hwf Hlist.
  destruct (unlink_at m this e l1 a v l2 Hwf Hlist) as (m' & Hrun & Hup).
  pose proof (ring_sentinel_ne _ _ _ _ _ _ (proj2 Hlist)) as Hne.
  destruct Hlist as [Hl _].
  exists m'. split; [|done]. unfold Erase. cbn [iter_]. run_bind.
  rewrite decide_True by congruence. exact Hrun.
Qed.

(** [Erase] of an iterator that holds the list's own [end_] pointer does
    nothing at all. *)
Lemma Erase_end_noop m this L :
  lists m !! this = Some L →
  bind (End this) (λ it, Erase this it) m = Ok tt m.
Proof.
  intros Hl. unfold End, Erase. exec_top. reflexivity.
Qed.

(** [Erase] of a null iterator on a list with a sentinel: [UnLink] skips
    the null node, the counter is decremented all the same. *)
Lemma Erase_null m this e n :
  lists m !! this = Some (mkList (Some e) n) →
  Erase this Iterator_default m
  = Ok tt (set_lists (insert this (mkList (Some e) ((n - 1) mod SIZE_MODULUS))) m).
Proof.
  intros Hl. unfold Erase, Iterator_default, UnLink. cbn [iter_].
  exec_top. reflexivity.
Qed.

(** ** Two rings in one heap *)

Lemma ring_sentinel_untyped h e1 ns1 e2 ns2 :
  ring h e1 ns1 → ring h e2 ns2 → e1 ∉ ns2.*1.
Proof.
  intros (_ & He1 & _) (_ & _ & Hc2) Hin.
  destruct (chain_live _ _ _ _ _ Hc2 Hin) as (n & v & Hn & Hv).
  rewrite He1 in Hn. by simplify_eq.
Qed.

Lemma last_addr_cases p (l : list (positive * T)) :
  (l = [] ∧ last_addr p l = p) ∨ (last_addr p l ∈ l.*1).
Proof.
  destruct (snoc_case l) as [->|(l' & b & w & ->)]; [by left|right].
  rewrite last_addr_app, fmap_app. cbn [last_addr]. set_solver.
Qed.

Lemma rings_disjoint_typed h e1 ns1 e2 ns2 l1 a v l1' :
  ring h e1 ns1 → ring h e2 ns2 → e1 ≠ e2 →
  ns1 = l1 ++ (a, v) :: l1' → a ∉ ns2.*1.
Proof.
  intros Hr1 Hr2 Hne. revert a v l1'.
  induction l1 as [|[b w] l IH] using rev_ind; intros a v l1' -> Hin.
  - apply elem_of_addrs_split in Hin as (l2 & v2 & l2' & ->).
    pose proof Hr1 as (_ & _ & Hc1). pose proof Hr2 as (Hnd2 & He2 & Hc2).
    pose proof (chain_lookup _ _ [] _ _ _ _ Hc1) as Ha1.
    pose proof (chain_lookup _ _ _ _ _ _ _ Hc2) as Ha2.
    rewrite Ha1 in Ha2. cbn [last_addr] in Ha2.
    destruct (last_addr_cases e2 l2) as [[_ Heq]|Hl2].
    + rewrite Heq in Ha2. congruence.
    + assert (e1 = last_addr e2 l2) as Heq by congruence.
      rewrite <- Heq in Hl2.
      apply (ring_sentinel_untyped h e1 ((a, v) :: l1') e2 (l2 ++ (a, v2) :: l2')).
      * exact Hr1.
      * exact Hr2.
      * rewrite fmap_app. set_solver.
  - pose proof Hin as Hin'.
    apply elem_of_addrs_split in Hin as (l2 & v2 & l2' & ->).
    pose proof Hr1 as (_ & _ & Hc1). pose proof Hr2 as (Hnd2 & He2 & Hc2).
    pose proof (chain_lookup _ _ _ _ _ _ _ Hc1) as Ha1.
    pose proof (chain_lookup _ _ _ _ _ _ _ Hc2) as Ha2.
    rewrite Ha1 in Ha2. rewrite last_addr_app in Ha2. cbn [last_addr] in Ha2.
    assert (b = last_addr e2 l2) as Heq by congruence.
    destruct (last_addr_cases e2 l2) as [[_ Heq2]|Hl2].
    + rewrite Heq2 in Heq. subst b.
      apply (ring_sentinel_untyped h e2 (l2 ++ (a, v2) :: l2') e1
               ((l ++ [(e2, w)]) ++ (a, v) :: l1')); [done|done|].
      rewrite !fmap_app. set_solver.
    + rewrite <- Heq in Hl2.
      apply (IH b w ((a, v) :: l1')).
      * by rewrite <- app_assoc.
      * rewrite fmap_app. set_solver.
Qed.

Lemma rings_disjoint h e1 ns1 e2 ns2 b :
  ring h e1 ns1 → ring h e2 ns2 → e1 ≠ e2 →
  b ∈ e1 :: ns1.*1 → b ∉ e2 :: ns2.*1.
Proof.
  intros Hr1 Hr2 Hne [->|Hb]%elem_of_cons.
  - apply not_elem_of_cons. split; [done|].
    by apply (ring_sentinel_untyped h e1 ns1 e2 ns2).
  - apply not_elem_of_cons. split.
    + intros ->. by apply (ring_sentinel_untyped h e2 ns2 e1 ns1).
    + apply elem_of_addrs_split in Hb as (l1 & v & l1' & Heq).
      by apply (rings_disjoint_typed h e1 ns1 e2 ns2 l1 b v l1').
Qed.

(** ** Composite steps: what happens to the rest of the memory *)

Lemma evolved_refl this e ns m :
  heap_wf (nodes m) → is_list m this e ns → evolved this e ns m m.
Proof.
  intros Hwf Hl. split; [done|]. split; [done|].
  split; [by intros o Ho|]. by intros eo nso _ Hr.
Qed.

Lemma evolved_trans this e ns1 ns2 m m1 m2 :
  evolved this e ns1 m m1 → evolved this e ns2 m1 m2 →
  evolved this e ns2 m m2.
Proof.
  intros (_ & _ & [Hlf1 Hby1]) (Hl & Hwf & [Hlf2 Hby2]).
  split; [done|]. split; [done|]. split.
  - intros o Ho. rewrite Hlf2, Hlf1; done.
  - intros eo nso Hne Hr. apply Hby2; [done|]. by apply Hby1.
Qed.

Lemma shrunk_refl m : shrunk m m.
Proof. by split. Qed.

Lemma shrunk_trans m m1 m2 : shrunk m m1 → shrunk m1 m2 → shrunk m m2.
Proof.
  intros [Ha1 Hf1] [Ha2 Hf2]. split; [congruence|].
  intros c Hc. by apply Hf2, Hf1.
Qed.

Lemma updated_push_evolved this e ns ns' a rest m m' :
  is_list m this e ns → alloc_succeeds m a rest →
  updated this e ns' (a :: e :: ns.*1) rest m m' →
  evolved this e ns' m m'.
Proof.
  intros [_ Hr] (Hal & Ha & _) (Hl' & Hwf' & Hal' & Hnf & Hlf).
  split; [done|]. split; [done|].
  split; [done|]. intros eo nso Hne Hro.
  apply (ring_frame (nodes m)); [|done].
  intros b Hb. apply Hnf. apply not_elem_of_cons. split.
  - intros ->. destruct (ring_live _ _ _ _ Hro Hb) as [? ?]. congruence.
  - by apply (rings_disjoint (nodes m) eo nso e ns).
Qed.

(** After a push, an address that was free and is not the one handed out
    is still free. *)
Lemma updated_push_fresh this e ns ns' a rest m m' c :
  is_list m this e ns →
  updated this e ns' (a :: e :: ns.*1) rest m m' →
  nodes m !! c = None → c ≠ a → nodes m' !! c = None.
Proof.
  intros [_ Hr] (_ & _ & _ & Hnf & _) Hc Hne. rewrite Hnf; [done|].
  apply not_elem_of_cons. split; [done|].
  intros Hin. destruct (ring_live _ _ _ _ Hr Hin) as [? ?]. congruence.
Qed.

Lemma updated_pop_evolved this e ns ns' m m' :
  is_list m this e ns →
  updated this e ns' (e :: ns.*1) (allocator m) m m' →
  evolved this e ns' m m' ∧ shrunk m m'.
Proof.
  intros [_ Hr] (Hl' & Hwf' & Hal' & Hnf & Hlf). split.
  - split; [done|]. split; [done|].
    split; [done|]. intros eo nso Hne Hro.
    apply (ring_frame (nodes m)); [|done].
    intros b Hb. apply Hnf.
    by apply (rings_disjoint (nodes m) eo nso e ns).
  - split; [done|]. intros c Hc. rewrite Hnf; [done|].
    intros Hin. destruct (ring_live _ _ _ _ Hr Hin) as [? ?]. congruence.
Qed.

(** ** Observers and traversal *)

Lemma Size_ok m this L : lists m !! this = Some L → Size this m = Ok (size_ L) m.
Proof. intros Hl. red_iter. by exec_top. Qed.

Lemma IsEmpty_ok m this L :
  lists m !! this = Some L →
  IsEmpty this m = Ok (bool_decide (size_ L = 0%Z)) m.
Proof. intros Hl. red_iter. by exec_top. Qed.

Lemma End_ok m this L :
  lists m !! this = Some L → End this m = Ok (mkIter (end_ L)) m.
Proof. intros Hl. red_iter. by exec_top. Qed.

Lemma Begin_ok m this e ns :
  is_list m this e ns → Begin this m = Ok (mkIter (Some (hd_addr ns e))) m.
Proof. intros [Hl (_ & He & _)]. red_iter. by exec_top. Qed.

Lemma Front_ok m this e a v ns :
  is_list m this e ((a, v) :: ns) → Front this m = Ok v m.
Proof.
  intros [Hl (_ & He & Ha & _)]. norm. red_iter. by exec_top.
Qed.

Lemma Back_ok m this e ns a v :
  is_list m this e (ns ++ [(a, v)]) → Back this m = Ok v m.
Proof.
  intros [Hl (_ & He & Hc)]. apply chain_lookup in Hc. norm.
  red_iter. by exec_top.
Qed.

Lemma traverse_from_chain m this e sz p l fuel :
  lists m !! this = Some (mkList (Some e) sz) →
  chain (nodes m) p l e → e ∉ l.*1 → length l ≤ fuel →
  traverse_from fuel this (mkIter (Some (hd_addr l e))) m = Ok (l.*2) m.
Proof.
  intros Hl. revert p fuel.
  induction l as [|[a v] l IH]; intros p fuel Hc Hne Hfuel.
  - destruct fuel; cbn [traverse_from hd_addr]; red_iter; exec_top;
      by rewrite bool_decide_true.
  - destruct fuel as [|fuel]; [simpl in Hfuel; lia|].
    destruct Hc as [Ha Hc]. norm.
    apply not_elem_of_cons in Hne as [Hne1 Hne2].
    cbn [traverse_from]. red_iter. exec_top.
    rewrite bool_decide_false by congruence. cbn [negb]. exec_top.
    rewrite (IH a fuel Hc Hne2) by (simpl in Hfuel; lia). done.
Qed.

Lemma traverse_ok m this e ns fuel :
  is_list m this e ns → length ns ≤ fuel →
  traverse fuel this m = Ok (ns.*2) m.
Proof.
  intros Hlist Hfuel. unfold traverse.
  erewrite bind_Ok; [|by apply Begin_ok].
  destruct Hlist as [Hl (Hnd & _ & Hc)].
  eapply (traverse_from_chain m this e _ e); [done|done| |done].
  by apply NoDup_cons in Hnd as [? _].
Qed.

(** ** The clearing loops *)

Lemma while_pop_back this e ns :
  ∀ m k, heap_wf (nodes m) → is_list m this e ns → length ns ≤ k →
  ∃ m', while_not_empty k this (PopBack this) m = Ok tt m'
      ∧ evolved this e [] m m' ∧ shrunk m m'.
Proof.
  induction ns as [|[a v] l IH] using rev_ind; intros m k Hwf Hlist Hk.
  - exists m. split; [|split; [by apply evolved_refl|apply shrunk_refl]].
    destruct Hlist as [Hl _].
    destruct k; cbn [while_not_empty];
      (erewrite bind_Ok; [|by apply IsEmpty_ok]); done.
  - rewrite length_app in Hk. simpl in Hk.
    destruct k as [|k]; [lia|].
    destruct (PopBack_ok m this e l a v Hwf Hlist) as (m1 & Hpop & Hup & _).
    pose proof (updated_pop_evolved _ _ _ _ _ _ Hlist Hup) as [Hev1 Hsh1].
    pose proof Hev1 as (Hlist1 & Hwf1 & _).
    destruct (IH m1 k Hwf1 Hlist1 ltac:(lia)) as (m' & Hrun & Hev & Hsh).
    exists m'. split; [|split].
    + cbn [while_not_empty].
      erewrite bind_Ok; [|apply IsEmpty_ok, (proj1 Hlist)].
      cbn [size_]. rewrite bool_decide_false.
      2:{ rewrite length_app. simpl. lia. }
      erewrite bind_Ok; [|exact Hpop]. exact Hrun.
    + by apply (evolved_trans this e l [] m m1 m').
    + by apply (shrunk_trans m m1 m').
Qed.

Lemma while_pop_front this e ns :
  ∀ m k, heap_wf (nodes m) → is_list m this e ns → length ns ≤ k →
  ∃ m', while_not_empty k this (PopFront this) m = Ok tt m'
      ∧ evolved this e [] m m' ∧ shrunk m m'.
Proof.
  induction ns as [|[a v] l IH]; intros m k Hwf Hlist Hk.
  - exists m. split; [|split; [by apply evolved_refl|apply shrunk_refl]].
    destruct Hlist as [Hl _].
    destruct k; cbn [while_not_empty];
      (erewrite bind_Ok; [|by apply IsEmpty_ok]); done.
  - simpl in Hk. destruct k as [|k]; [lia|].
    destruct (PopFront_ok m this e a v l Hwf Hlist) as (m1 & Hpop & Hup & _).
    pose proof (updated_pop_evolved this e ((a, v) :: l) _ _ _ Hlist Hup)
      as [Hev1 Hsh1].
    pose proof Hev1 as (Hlist1 & Hwf1 & _).
    destruct (IH m1 k Hwf1 Hlist1 ltac:(lia)) as (m' & Hrun & Hev & Hsh).
    exists m'. split; [|split].
    + cbn [while_not_empty].
      erewrite bind_Ok; [|apply IsEmpty_ok, (proj1 Hlist)].
      cbn [size_]. rewrite bool_decide_false by (simpl; lia).
      erewrite bind_Ok; [|exact Hpop]. exact Hrun.
    + by apply (evolved_trans this e l [] m m1 m').
    + by apply (shrunk_trans m m1 m').
Qed.

Lemma clear_with_ok this e ns m (front : bool) :
  heap_wf (nodes m) → is_list m this e ns →
  ∃ m', clear_with this (if front then PopFront this else PopBack this) m
        = Ok tt m'
      ∧ evolved this e [] m m' ∧ shrunk m m'.
Proof.
  intros Hwf Hlist. unfold clear_with.
  assert (Hsz : get_size this m = Ok (Z.of_nat (length ns)) m).
  { destruct Hlist as [Hl _]. by exec_top. }
  destruct front.
  - destruct (while_pop_front this e ns m (length ns) Hwf Hlist (le_n _))
      as (m' & Hrun & Hev).
    exists m'. split; [|done]. erewrite bind_Ok; [|exact Hsz].
    by rewrite Nat2Z.id.
  - destruct (while_pop_back this e ns m (length ns) Hwf Hlist (le_n _))
      as (m' & Hrun & Hev).
    exists m'. split; [|done]. erewrite bind_Ok; [|exact Hsz].
    by rewrite Nat2Z.id.
Qed.

End Methods.

(** * Sequences of operations *)

Section Sequences.
Context {T : Type} `{Element T}.
Implicit Types (h : gmap positive (ListNode (T:=T))).
Implicit Types (l : list (positive * T)).
Implicit Types (ns : list (positive * T)) (m : mem (T:=T)).
Implicit Types (ops : list (op (T:=T))) (vs : list T).

Lemma bind_Throw {A B} (c : M (T:=T) A) (k : A → M B) m ex m' :
  c m = Throw ex m' → bind c k m = Throw ex m'.
Proof. unfold bind. by intros ->. Qed.

Lemma advance_chain m p l z k :
  chain (nodes m) p l z → k ≤ length l →
  advance k (mkIter (Some (hd_addr l z))) m
  = Ok (mkIter (Some (hd_addr (drop k l) z))) m.
Proof.
  revert p l. induction k as [|k IH]; intros p l Hc Hk.
  - by rewrite drop_0.
  - destruct l as [|[a v] l]; [simpl in Hk; lia|].
    destruct Hc as [Ha Hc]. cbn [advance hd_addr drop].
    erewrite bind_Ok; [|red_iter; exec_top; reflexivity].
    apply (IH a); [done|]. simpl in Hk. lia.
Qed.

Lemma evolved_alloc this e ns m al :
  heap_wf (nodes m) → is_list m this e ns →
  evolved this e ns m (mkMem (nodes m) (lists m) al).
Proof.
  intros Hwf Hl. split; [done|]. split; [done|].
  split; [by intros o Ho|]. by intros eo nso _ Hr.
Qed.

Lemma fmap_snd_placed s a x ns :
  (placed s a x ns).*2
  = match s with AtFront => x :: ns.*2 | AtBack => ns.*2 ++ [x] end.
Proof. destruct s; cbn [placed]; [done|]. by rewrite fmap_app. Qed.

Lemma apply_pop_back vs v :
  apply_op OpPopBack (vs ++ [v]) = Some vs.
Proof.
  cbn [apply_op]. destruct (vs ++ [v]) eqn:Heq; [by destruct vs|].
  rewrite <- Heq, length_app. cbn [length].
  replace (length vs + 1 - 1) with (length vs) by lia.
  by rewrite take_app_length.
Qed.

(** One operation applied within its precondition: it returns with the
    list in the implied state, or a push throws and leaves the list as
    it was, or a throwing move constructor ends the program. *)
Lemma run_op_total this e o ns m vs' :
  heap_wf (nodes m) → is_list m this e ns →
  apply_op o (ns.*2) = Some vs' →
  match run_op this o m with
  | Ok _ m' =>
      no_throw o
      ∧ ∃ ns', ns'.*2 = vs' ∧ evolved this e ns' m m'
        ∧ if is_push o
          then ∃ a, alloc_succeeds m a (allocator m')
                    ∧ ∀ c, nodes m !! c = None → c ≠ a → nodes m' !! c = None
          else shrunk m m'
  | Throw ex m' =>
      is_push o = true
      ∧ nodes m' = nodes m ∧ lists m' = lists m
      ∧ ((ex = bad_alloc ∧ ¬ ∃ a rest, alloc_succeeds m a rest)
         ∨ (ex = element_exn ∧ ¬ no_throw o))
  | Terminate => ∃ s x, o = OpPush s ByMove x ∧ move_throws x = true
  | Undefined | OutOfFuel => False
  end.
Proof.
  intros Hwf Hlist Happ. destruct o as [s p x| | |k]; cbn [run_op].
  - (* push *)
    destruct (operator_new_cases m) as [(a & rest & Hal)|[rest Hfail]].
    + destruct (ctor_throws p x) eqn:Hx.
      * destruct p; cbn [ctor_throws] in Hx.
        -- rewrite (push_copy_throws s m this x a rest Hal Hx).
           cbn [nodes lists is_push no_throw ctor_throws].
           repeat split; try done. right. split; [done|]. congruence.
        -- rewrite (push_move_throws s m this x a rest Hal Hx). eauto.
      * destruct (push_ok s p m this e ns x a rest Hwf Hlist Hal Hx)
          as (m' & -> & Hup).
        split; [done|]. exists (placed s a x ns). split; [|split].
        -- rewrite fmap_snd_placed. destruct s; cbn in Happ; congruence.
        -- by apply (updated_push_evolved this e ns _ a rest).
        -- cbn [is_push]. exists a.
           pose proof Hup as (_ & _ & Hal' & _). rewrite Hal'.
           split; [done|]. intros c Hc Hne.
           by apply (updated_push_fresh this e ns (placed s a x ns) a rest m m').
    + rewrite (push_bad_alloc s p m this x _ Hfail).
      cbn [nodes lists is_push]. repeat split; try done. left.
      split; [done|]. intros (a & rest' & Hal).
      apply operator_new_Ok in Hal. congruence.
  - (* PopBack *)
    destruct (snoc_case ns) as [->|(l & a & v & ->)]; [done|].
    destruct (PopBack_ok m this e l a v Hwf Hlist) as (m' & -> & Hup & _).
    destruct (updated_pop_evolved _ _ _ _ _ _ Hlist Hup) as [Hev Hsh].
    split; [done|]. exists l. split; [|by split].
    rewrite fmap_app, fmap_cons, fmap_nil in Happ. cbn [snd] in Happ.
    rewrite apply_pop_back in Happ. congruence.
  - (* PopFront *)
    cbn [apply_op] in Happ. destruct ns as [|[a v] l]; [done|].
    destruct (PopFront_ok m this e a v l Hwf Hlist) as (m' & -> & Hup & _).
    destruct (updated_pop_evolved this e ((a, v) :: l) _ _ _ Hlist Hup)
      as [Hev Hsh].
    split; [done|]. exists l. split; [|by split].
    cbn in Happ. congruence.
  - (* Erase *)
    cbn [apply_op] in Happ. case_decide as Hk; [|done].
    rewrite length_fmap in Hk.
    erewrite bind_Ok; [|by apply (Begin_ok m this e ns)].
    erewrite bind_Ok; [|apply (advance_chain m e ns e k);
                         [apply Hlist|done]].
    cbn [is_push no_throw].
    assert (Hvs : (delete k ns).*2 = vs').
    { rewrite list_fmap_delete. congruence. }
    rewrite delete_take_drop in Hvs.
    destruct (drop k ns) as [|[a v] l2] eqn:Hdrop.
    + (* the end position *)
      assert (Hlen : length ns ≤ k).
      { destruct (decide (length ns ≤ k)) as [|Hn]; [done|].
        apply (f_equal length) in Hdrop. rewrite length_drop in Hdrop.
        simpl in Hdrop. lia. }
      rewrite take_ge, drop_ge, app_nil_r in Hvs by lia.
      cbn [hd_addr]. unfold Erase. cbn [iter_].
      erewrite bind_Ok; [|destruct Hlist as [Hl _]; exec_top; reflexivity].
      rewrite decide_False by (intros Hne; by apply Hne).
      split; [done|]. exists ns.
      split; [done|]. split; [by apply evolved_refl|apply shrunk_refl].
    + assert (Hsplit : ns = take k ns ++ (a, v) :: l2).
      { by rewrite <- Hdrop, take_drop. }
      assert (Hl2 : drop (S k) ns = l2).
      { replace (S k) with (k + 1) by lia.
        by rewrite <- drop_drop, Hdrop. }
      rewrite Hl2 in Hvs. cbn [hd_addr].
      rewrite Hsplit in Hlist.
      destruct (Erase_node m this e (take k ns) a v l2 Hwf Hlist)
        as (m' & -> & Hup & _).
      destruct (updated_pop_evolved _ _ _ _ _ _ Hlist Hup) as [Hev Hsh].
      split; [done|]. exists (take k ns ++ l2). split; [done|]. by split.
Qed.

Lemma good_script_mono h h' k al avoid :
  (∀ c, h !! c = None → c ∉ avoid → h' !! c = None) →
  good_script h k al avoid → good_script h' k al avoid.
Proof.
  intros Hf. revert al avoid Hf.
  induction k as [|k IH]; intros al avoid Hf; [done|].
  cbn [good_script]. destruct al as [|[a|] rest]; [done| |done].
  intros (Ha & Hlt & Hav & Hrest). repeat split; [by apply Hf|done|done|].
  apply IH; [|done]. intros c Hc Hnotin. apply Hf; [done|].
  intros Hin. apply Hnotin. by apply list_elem_of_further.
Qed.

Lemma good_script_weaken h k al avoid avoid' :
  (∀ c, c ∈ avoid' → c ∈ avoid) →
  good_script h k al avoid → good_script h k al avoid'.
Proof.
  revert al avoid avoid'.
  induction k as [|k IH]; intros al avoid avoid' Hsub; [done|].
  cbn [good_script]. destruct al as [|[a|] rest]; [done| |done].
  intros (Ha & Hlt & Hav & Hrest). repeat split; [done|done| |].
  - intros Hin. by apply Hav, Hsub.
  - apply (IH _ (a :: avoid)); [|done].
    intros c [->|Hc]%elem_of_cons; [apply list_elem_of_here|].
    by apply list_elem_of_further, Hsub.
Qed.

(** A whole sequence applied within the preconditions. *)
Lemma run_ops_total this e ops :
  ∀ ns m vs', heap_wf (nodes m) → is_list m this e ns →
  apply_ops ops (ns.*2) = Some vs' →
  match run_ops this ops m with
  | Ok _ m' => ∃ ns', ns'.*2 = vs' ∧ evolved this e ns' m m'
  | Throw ex m' =>
      (ex = bad_alloc ∨ ex = element_exn) ∧ ∃ ns', evolved this e ns' m m'
  | Terminate => ∃ s x, OpPush s ByMove x ∈ ops ∧ move_throws x = true
  | Undefined | OutOfFuel => False
  end.
Proof.
  induction ops as [|o ops IH]; intros ns m vs' Hwf Hlist Happ.
  - cbn in *. exists ns. split; [congruence|by apply evolved_refl].
  - cbn [apply_ops] in Happ.
    destruct (apply_op o ns.*2) as [vs1|] eqn:Hop; [|done].
    pose proof (run_op_total this e o ns m vs1 Hwf Hlist Hop) as Hstep.
    cbn [run_ops]. unfold bind at 1.
    destruct (run_op this o m) as [[] m1|ex m1| | |]; try done.
    + destruct Hstep as (_ & ns1 & Hvs1 & Hev1 & _).
      pose proof Hev1 as (Hlist1 & Hwf1 & _). subst vs1.
      specialize (IH ns1 m1 vs' Hwf1 Hlist1 Happ).
      destruct (run_ops this ops m1) as [[] m2|ex m2| | |]; try done.
      * destruct IH as (ns2 & Hvs2 & Hev2). exists ns2.
        split; [done|]. by apply (evolved_trans this e ns1 ns2 m m1 m2).
      * destruct IH as (Hex & ns2 & Hev2). split; [done|]. exists ns2.
        by apply (evolved_trans this e ns1 ns2 m m1 m2).
      * destruct IH as (s & x & Hin & Hx). exists s, x.
        split; [by apply list_elem_of_further|done].
    + destruct Hstep as (_ & Hn & Hl & Hex). split.
      * destruct Hex as [[-> _]|[-> _]]; auto.
      * exists ns. destruct m as [h ls al], m1 as [h1 ls1 al1].
        cbn [nodes lists] in Hn, Hl. subst h1 ls1.
        by apply (evolved_alloc this e ns (mkMem h ls al)).
    + destruct Hstep as (s & x & -> & Hx). exists s, x.
      split; [apply list_elem_of_here|done].
Qed.

(** With a cooperative allocator and constructors that do not throw, the
    whole sequence returns. *)
Lemma run_ops_progress this e ops :
  ∀ ns m vs' avoid, heap_wf (nodes m) → is_list m this e ns →
  apply_ops ops (ns.*2) = Some vs' →
  good_script (nodes m) (count_ops is_push ops) (allocator m) avoid →
  Forall no_throw ops →
  ∃ m', run_ops this ops m = Ok tt m'.
Proof.
  induction ops as [|o ops IH]; intros ns m vs' avoid Hwf Hlist Happ Hgood Hnt.
  - by exists m.
  - cbn [apply_ops] in Happ.
    destruct (apply_op o ns.*2) as [vs1|] eqn:Hop; [|done].
    apply Forall_cons in Hnt as [Hnt1 Hnt].
    pose proof (run_op_total this e o ns m vs1 Hwf Hlist Hop) as Hstep.
    cbn [run_ops count_ops] in *. unfold bind at 1.
    destruct (run_op this o m) as [[] m1|ex m1| | |]; try done.
    + destruct Hstep as (_ & ns1 & Hvs1 & Hev1 & Halloc).
      pose proof Hev1 as (Hlist1 & Hwf1 & _). subst vs1.
      apply (IH ns1 m1 vs' (if is_push o then
               match allocator m with Some a :: _ => a :: avoid | _ => avoid end
             else avoid) Hwf1 Hlist1 Happ); [|done].
      destruct (is_push o).
      * destruct Halloc as (a & (Hal & Ha & Hlt) & Hfresh).
        rewrite Hal in Hgood |- *. cbn [Nat.add good_script] in Hgood.
        destruct Hgood as (_ & _ & _ & Hgood).
        apply (good_script_mono (nodes m)); [|done].
        intros c Hc Hnotin. apply Hfresh; [done|].
        intros ->. apply Hnotin, list_elem_of_here.
      * destruct Halloc as [Hal Hfresh]. rewrite Hal. cbn [Nat.add] in Hgood.
        apply (good_script_mono (nodes m)); [|done].
        intros c Hc _. by apply Hfresh.
    + destruct Hstep as (Hpush & _ & _ & [[_ Hno]|[_ Hno]]); [|done].
      rewrite Hpush in Hgood. cbn [Nat.add good_script] in Hgood.
      destruct (allocator m) as [|[a|] rest] eqn:Hal; try done.
      destruct Hgood as (Ha & Hlt & _). exfalso. apply Hno.
      by exists a, rest.
    + destruct Hstep as (s & x & -> & Hx). cbn [no_throw ctor_throws] in Hnt1.
      congruence.
Qed.

(** Counting: without erases, the implied sequence has as many elements
    as pushes minus pops. *)
Lemma apply_ops_length ops :
  ∀ vs vs', apply_ops ops vs = Some vs' →
  Forall (λ o, is_push o || is_pop o = true) ops →
  (Z.of_nat (length vs')
   = Z.of_nat (length vs) + Z.of_nat (count_ops is_push ops)
     - Z.of_nat (count_ops is_pop ops))%Z.
Proof.
  induction ops as [|o ops IH]; intros vs vs' Happ Hall.
  - cbn in *. simplify_eq. lia.
  - cbn [apply_ops] in Happ.
    destruct (apply_op o vs) as [vs1|] eqn:Hop; [|done].
    apply Forall_cons in Hall as [Ho Hall].
    rewrite (IH vs1 vs' Happ Hall). cbn [count_ops].
    destruct o as [[] p x| | |k]; cbn in Hop, Ho |- *; try done.
    + simplify_eq. cbn [length]. lia.
    + simplify_eq. rewrite length_app. cbn [length]. lia.
    + destruct vs as [|v vs]; [done|]. simplify_eq.
      rewrite length_take. cbn [length]. lia.
    + destruct vs as [|v vs]; [done|]. simplify_eq. cbn [length]. lia.
Qed.

End Sequences.

(** * Construction, destruction and moves *)

Section Lifecycle.
Context {T : Type} `{Element T}.
Implicit Types (h : gmap positive (ListNode (T:=T))).
Implicit Types (l : list (positive * T)).
Implicit Types (ns : list (positive * T)) (m : mem (T:=T)).

Lemma ring_empty_intro h a :
  h !! a = Some (mkNode (Some a) (Some a) None) → ring h a [].
Proof.
  intros Ha. split; [|by split]. rewrite fmap_nil. apply NoDup_singleton.
Qed.

Lemma List_default_ok m this a rest :
  heap_wf (nodes m) → alloc_succeeds m a rest →
  ∃ m', List_default this m = Ok tt m'
      ∧ is_list m' this a [] ∧ heap_wf (nodes m') ∧ allocator m' = rest
      ∧ lists_frame this m m' ∧ all_rings_kept m m'
      ∧ ∀ c, nodes m !! c = None → c ≠ a → nodes m' !! c = None.
Proof.
  intros Hwf (Hal & Ha & Hlt). destruct m as [h ls al].
  cbn [nodes lists allocator] in *. subst al.
  pose proof Hlt as Hlt'. apply Pos.ltb_lt in Hlt'.
  eexists. split.
  { unfold List_default, constructor, new_ListNode, operator_new.
    exec_top. rewrite Hlt'. exec_top. reflexivity. }
  cbn [nodes lists allocator].
  split; [|split; [|split; [|split; [|split]]]].
  - split; cbn [nodes lists]; [by rewrite lookup_insert_eq|].
    apply ring_empty_intro. by rewrite lookup_insert_eq.
  - apply (heap_wf_frame [a] h); [done| |].
    + intros b Hb. apply not_elem_of_cons in Hb as [Hb _]. by exec.
    + by intros b ->%list_elem_of_singleton.
  - done.
  - intros o Ho. cbn [lists]. by rewrite lookup_insert_ne.
  - intros e ns Hr. cbn [nodes] in *.
    apply (ring_frame h); [|done]. intros b Hb.
    assert (b ≠ a).
    { intros ->. destruct (ring_live _ _ _ _ Hr Hb) as [? ?]. congruence. }
    cbn [nodes]. by exec.
  - intros c Hc Hne. by exec.
Qed.

Lemma List_default_fail m this m1 :
  operator_new m = Throw bad_alloc m1 →
  List_default this m = Throw bad_alloc (set_lists (delete this) m1).
Proof.
  intros Hnew. unfold List_default, constructor, new_ListNode.
  unfold try_catch, bind at 1 2. by rewrite Hnew.
Qed.

(** ** The move constructor *)

Lemma List_move_ok m this other e ns a rest :
  heap_wf (nodes m) → is_list m other e ns → this ≠ other →
  alloc_succeeds m a rest →
  ∃ m', List_move this other m = Ok tt m'
      ∧ is_list m' this e ns ∧ is_list m' other a []
      ∧ heap_wf (nodes m') ∧ allocator m' = rest
      ∧ (∀ o, o ≠ this → o ≠ other → lists m' !! o = lists m !! o)
      ∧ all_rings_kept m m'
      ∧ ∀ c, nodes m !! c = None → c ≠ a → nodes m' !! c = None.
Proof.
  intros Hwf [Hl Hr] Hne (Hal & Ha & Hlt). destruct m as [h ls al].
  cbn [nodes lists allocator] in *. subst al.
  pose proof Hlt as Hlt'. apply Pos.ltb_lt in Hlt'.
  assert (Hkept : ∀ e' ns', ring h e' ns' →
            ring (<[a:=mkNode (Some a) (Some a) None]>
                    (<[a:=mkNode None (Some a) None]>
                       (<[a:=mkNode None None None]> h))) e' ns').
  { intros e' ns' Hr'. apply (ring_frame h); [|done]. intros b Hb.
    assert (b ≠ a).
    { intros ->. destruct (ring_live _ _ _ _ Hr' Hb) as [? ?]. congruence. }
    by exec. }
  eexists. split.
  { unfold List_move, new_ListNode, operator_new.
    exec_top. rewrite Hlt'. exec_top. reflexivity. }
  cbn [nodes lists allocator].
  split; [|split; [|split; [|split; [|split; [|split]]]]].
  - split; cbn [nodes lists]; [by exec|]. by apply Hkept.
  - split; cbn [nodes lists]; [by exec|].
    apply ring_empty_intro. by rewrite lookup_insert_eq.
  - apply (heap_wf_frame [a] h); [done| |].
    + intros b Hb. apply not_elem_of_cons in Hb as [Hb _]. by exec.
    + by intros b ->%list_elem_of_singleton.
  - done.
  - intros o Ho1 Ho2. cbn [lists]. by exec.
  - exact Hkept.
  - intros c Hc Hne'. by exec.
Qed.

(** When the replacement sentinel cannot be allocated, the handler leaves
    the source with a null [end_] and a zero [size_]. *)
Lemma List_move_degraded m this other L :
  lists m !! other = Some L → this ≠ other → alloc_fails m →
  List_move this other m
  = Ok tt (mkMem (nodes m)
             (<[other := mkList nullptr 0]> (<[this := L]> (lists m)))
             (tail (allocator m))).
Proof.
  intros Hl Hne Hfail. destruct m as [h ls al], L as [eL sL].
  unfold alloc_fails in Hfail.
  cbn [nodes lists allocator] in *.
  unfold List_move, new_ListNode, operator_new.
  destruct Hfail as [->|[rest ->]]; exec_top;
    rewrite ?insert_insert_eq; reflexivity.
Qed.

(** ** The destructor *)

Lemma while_not_empty_eq k this (body : M (T:=T) unit) :
  while_not_empty k this body
  = bind (IsEmpty this)
      (λ b, if b then ret tt
            else match k with
                 | O => out_of_fuel
                 | S k' => bind body (λ _, while_not_empty k' this body)
                 end).
Proof. by destruct k. Qed.

Lemma List_destroy_ok m this e ns :
  heap_wf (nodes m) → is_list m this e ns →
  ∃ m', List_destroy this m = Ok tt m'
      ∧ lists m' = delete this (lists m) ∧ heap_wf (nodes m')
      ∧ nodes m' !! e = None ∧ shrunk m m'
      ∧ ∀ eo nso, eo ≠ e → ring (nodes m) eo nso → ring (nodes m') eo nso.
Proof.
  intros Hwf Hlist.
  destruct (clear_with_ok this e ns m true Hwf Hlist)
    as (m1 & Hclear & (Hlist1 & Hwf1 & Hlf & Hby) & Hal & Hfresh).
  destruct m as [h ls al], m1 as [h1 ls1 al1].
  destruct Hlist1 as [Hl1 Hr1]. pose proof Hr1 as (_ & He1 & _).
  unfold lists_frame in Hlf.
  cbn [nodes lists allocator length hd_addr last_addr] in *. subst al1.
  eexists. split.
  { unfold List_destroy, end_lifetime. erewrite bind_Ok; [|exact Hclear].
    exec_top. reflexivity. }
  cbn [nodes lists allocator].
  split; [|split; [|split; [|split]]].
  - rewrite delete_insert_eq. apply map_eq. intros o.
    destruct (decide (o = this)) as [->|Ho].
    + by rewrite !lookup_delete_eq.
    + rewrite !lookup_delete_ne by done. by apply Hlf.
  - intros b n Hn. apply lookup_delete_Some in Hn as [_ Hn].
    exact (Hwf1 b n Hn).
  - by rewrite lookup_delete_eq.
  - split; [done|]. intros c Hc. cbn [nodes].
    apply lookup_delete_None. right. by apply Hfresh.
  - intros eo nso Hne Hro. apply (ring_frame h1); [|by apply Hby].
    intros b Hb. apply lookup_delete_ne.
    intros Heq. rewrite <- Heq in Hb. specialize (Hby eo nso Hne Hro).
    by apply (rings_disjoint h1 e [] eo nso e Hr1 Hby);
      [|apply list_elem_of_here|].
Qed.

(** The degraded state [end_ = nullptr], [size_ = 0] is destructible:
    the loop does not run and [delete nullptr] does nothing. *)
Lemma List_destroy_degraded m this :
  lists m !! this = Some (mkList nullptr 0) →
  List_destroy this m = Ok tt (set_lists (delete this) m).
Proof.
  intros Hl. destruct m as [h ls al]. cbn [lists] in Hl.
  unfold List_destroy, end_lifetime, clear_with. exec_top.
  rewrite while_not_empty_eq. unfold IsEmpty. exec_top.
  rewrite bool_decide_true by done. exec_top. by rewrite delete_insert_eq.
Qed.

(** With a null [end_] and a non-zero [size_] the loop of the destructor
    runs and [PopFront] dereferences the null pointer. *)
Lemma List_destroy_stale m this n :
  lists m !! this = Some (mkList nullptr n) → (0 < n)%Z →
  List_destroy this m = Undefined.
Proof.
  intros Hl Hn. destruct m as [h ls al]. cbn [lists] in Hl.
  unfold List_destroy, clear_with. exec_top.
  rewrite while_not_empty_eq.
  destruct (Z.to_nat n) as [|k] eqn:Hk; [lia|].
  unfold IsEmpty, PopFront. exec_top.
  rewrite bool_decide_false by lia. by exec_top.
Qed.

(** ** Move assignment *)

Lemma List_move_assign_self m this :
  List_move_assign this this m = Ok tt m.
Proof. unfold List_move_assign, noexcept. by rewrite decide_False by auto. Qed.

(** What move assignment does up to the allocation of the replacement
    sentinel: [this] is cleared, its sentinel deleted, and the members of
    [other] adopted. *)
Lemma List_move_assign_prefix m this other e1 ns1 e2 ns2 :
  heap_wf (nodes m) → is_list m this e1 ns1 → is_list m other e2 ns2 →
  this ≠ other → e1 ≠ e2 →
  ∃ h1 ls1,
    (∀ A (K : M A),
       bind (clear_with this (PopBack this))
         (λ _, bind (get_end this) (λ e, bind (delete_node e) (λ _, K))) m
       = K (mkMem (delete e1 h1) ls1 (allocator m)))
    ∧ ls1 !! this = Some (mkList (Some e1) 0)
    ∧ ls1 !! other = Some (mkList (Some e2) (Z.of_nat (length ns2)))
    ∧ (∀ o, o ≠ this → ls1 !! o = lists m !! o)
    ∧ heap_wf h1 ∧ ring h1 e1 []
    ∧ (∀ c, nodes m !! c = None → h1 !! c = None)
    ∧ (∀ eo nso, eo ≠ e1 → ring (nodes m) eo nso →
         ring (delete e1 h1) eo nso).
Proof.
  intros Hwf Hlist1 Hlist2 Hne Hene.
  destruct (clear_with_ok this e1 ns1 m false Hwf Hlist1)
    as (m1 & Hclear & (Hl1 & Hwf1 & Hlf & Hby) & Hal & Hfresh).
  destruct m1 as [h1 ls1 al1]. destruct Hl1 as [Hl1 Hr1].
  pose proof Hr1 as (_ & He1 & _). unfold lists_frame in Hlf.
  cbn [nodes lists allocator length hd_addr last_addr] in *. subst al1.
  exists h1, ls1.
  split; [|split; [|split; [|split; [|split; [|split; [|split]]]]]];
    try done.
  - intros A K. erewrite bind_Ok; [|exact Hclear]. exec_top. reflexivity.
  - rewrite Hlf by done. apply Hlist2.
  - intros eo nso Hneo Hro. apply (ring_frame h1); [|by apply Hby].
    intros b Hb. apply lookup_delete_ne.
    intros Heq. rewrite <- Heq in Hb. specialize (Hby eo nso Hneo Hro).
    by apply (rings_disjoint h1 e1 [] eo nso e1 Hr1 Hby);
      [|apply list_elem_of_here|].
Qed.

(** When [new (std::nothrow)] returns null, the branch that resets the
    source is skipped: [other] keeps its old [size_] next to a null
    [end_]. *)
Lemma List_move_assign_degraded m this other e1 ns1 e2 ns2 :
  heap_wf (nodes m) → is_list m this e1 ns1 → is_list m other e2 ns2 →
  this ≠ other → e1 ≠ e2 → alloc_fails m →
  ∃ m', List_move_assign this other m = Ok tt m'
      ∧ is_list m' this e2 ns2
      ∧ lists m' !! other = Some (mkList nullptr (Z.of_nat (length ns2)))
      ∧ heap_wf (nodes m').
Proof.
  intros Hwf Hlist1 Hlist2 Hne Hene Hfail.
  destruct (List_move_assign_prefix m this other e1 ns1 e2 ns2
              Hwf Hlist1 Hlist2 Hne Hene)
    as (h1 & ls1 & Hrun & Hthis & Hother & Hlf & Hwf1 & Hr1 & Hfresh & Hby).
  pose proof (Hby e2 ns2 (not_eq_sym Hene) (proj2 Hlist2)) as Hr2.
  assert (Hwf2 : heap_wf (delete e1 h1)).
  { intros b n Hn. apply lookup_delete_Some in Hn as [_ Hn].
    exact (Hwf1 b n Hn). }
  unfold alloc_fails in Hfail.
  destruct Hfail as [Hal|[rest Hal]].
  - eexists. split.
    { unfold List_move_assign, noexcept. rewrite decide_True by done.
      rewrite Hrun. unfold new_nothrow_ListNode, new_ListNode, operator_new.
      rewrite Hal. exec_top. reflexivity. }
    cbn [nodes lists allocator].
    split; [|split]; [|by exec|done].
    split; cbn [nodes lists]; [by exec|done].
  - eexists. split.
    { unfold List_move_assign, noexcept. rewrite decide_True by done.
      rewrite Hrun. unfold new_nothrow_ListNode, new_ListNode, operator_new.
      rewrite Hal. exec_top. reflexivity. }
    cbn [nodes lists allocator].
    split; [|split]; [|by exec|done].
    split; cbn [nodes lists]; [by exec|done].
Qed.

End Lifecycle.



(** * Copy construction and copy assignment *)

Section Copies.
Context {T : Type} `{Element T}.
Implicit Types (h : gmap positive (ListNode (T:=T))).
Implicit Types (l todo : list (positive * T)).
Implicit Types (ns : list (positive * T)) (m : mem (T:=T)).

Lemma copy_loop_eq fuel this other iter :
  copy_loop (T:=T) fuel this other iter
  = bind (get_end other)
      (λ oe, if decide (iter ≠ oe)
             then match fuel with
                  | O => out_of_fuel
                  | S fuel' =>
                      bind (GetValue iter) (λ v,
                      bind (PushBack this v) (λ _,
                      bind (GetNext iter) (λ iter',
                      copy_loop fuel' this other iter')))
                  end
             else ret tt).
Proof. by destruct fuel. Qed.

Lemma assign_loop_eq fuel this other it :
  assign_loop (T:=T) fuel this other it
  = bind (End other)
      (λ stop, if Iterator_ne it stop
               then match fuel with
                    | O => out_of_fuel
                    | S fuel' =>
                        bind (Iterator_deref it) (λ v,
                        bind (PushBack this v) (λ _,
                        bind (Iterator_preinc it) (λ it',
                        assign_loop fuel' this other it')))
                    end
               else ret tt).
Proof. by destruct fuel. Qed.

(** A back-insertion of [v] into [this], seen from the loop that calls
    it: the list grows by [v], or the push throws and nothing changes. *)
Lemma PushBack_total this e ns m v :
  heap_wf (nodes m) → is_list m this e ns →
  match PushBack this v m with
  | Ok _ m' => ∃ ns', ns'.*2 = ns.*2 ++ [v] ∧ evolved this e ns' m m'
  | Throw ex m' =>
      (ex = bad_alloc ∨ ex = element_exn) ∧ evolved this e ns m m'
  | Terminate | Undefined | OutOfFuel => False
  end.
Proof.
  intros Hwf Hlist.
  pose proof (run_op_total this e (OpPush AtBack ByCopy v) ns m
                (ns.*2 ++ [v]) Hwf Hlist eq_refl) as Hstep.
  cbn [run_op push] in Hstep.
  destruct (PushBack this v m) as [[] m1|ex m1| | |]; try done.
  - destruct Hstep as (_ & ns1 & Hvs & Hev & _). by exists ns1.
  - destruct Hstep as (_ & Hn & Hl & Hex). split.
    + destruct Hex as [[-> _]|[-> _]]; auto.
    + destruct m as [h ls al], m1 as [h1 ls1 al1].
      cbn [nodes lists] in Hn, Hl. subst h1 ls1.
      by apply (evolved_alloc this e ns (mkMem h ls al)).
  - by destruct Hstep as (s & x & ? & _).
Qed.

Lemma evolved_other this e ns' m m' other eo nso :
  evolved this e ns' m m' → is_list m other eo nso →
  this ≠ other → e ≠ eo → is_list m' other eo nso.
Proof.
  intros (_ & _ & Hlf & Hby) [Hl Hr] Hne Hene. split.
  - rewrite Hlf by done. exact Hl.
  - by apply Hby.
Qed.

Lemma copy_loop_total this e other eo todo :
  ∀ done ns m fuel,
  heap_wf (nodes m) → is_list m this e ns →
  is_list m other eo (done ++ todo) → e ≠ eo → this ≠ other →
  length todo ≤ fuel →
  match copy_loop fuel this other (Some (hd_addr todo eo)) m with
  | Ok _ m' =>
      ∃ ns', ns'.*2 = ns.*2 ++ todo.*2 ∧ evolved this e ns' m m'
  | Throw ex m' =>
      (ex = bad_alloc ∨ ex = element_exn) ∧ ∃ ns', evolved this e ns' m m'
  | Terminate | Undefined | OutOfFuel => False
  end.
Proof.
  induction todo as [|[a v] todo IH];
    intros done ns m fuel Hwf Hlist Hother Hene Hne Hfuel;
    rewrite copy_loop_eq;
    (erewrite bind_Ok; [|destruct Hother as [Hl _]; exec_top; reflexivity]).
  - cbn [hd_addr]. rewrite decide_False by (intros Hx; by apply Hx).
    exists ns. split; [by rewrite app_nil_r|by apply evolved_refl].
  - cbn [hd_addr]. cbn [length] in Hfuel.
    destruct fuel as [|fuel]; [lia|].
    pose proof (ring_sentinel_ne _ _ _ _ _ _ (proj2 Hother)) as Hao.
    rewrite decide_True by congruence.
    pose proof (chain_lookup _ _ _ _ _ _ _ (proj2 (proj2 (proj2 Hother))))
      as Ha.
    erewrite bind_Ok; [|exec_top; reflexivity].
    pose proof (PushBack_total this e ns m v Hwf Hlist) as Hpush.
    unfold bind at 1.
    destruct (PushBack this v m) as [[] m1|ex m1| | |]; try done.
    + destruct Hpush as (ns1 & Hvs1 & Hev1).
      pose proof Hev1 as (Hlist1 & Hwf1 & _).
      pose proof (evolved_other _ _ _ _ _ _ _ _ Hev1 Hother Hne Hene)
        as Hother1.
      pose proof (chain_lookup _ _ _ _ _ _ _
                    (proj2 (proj2 (proj2 Hother1)))) as Ha1.
      erewrite bind_Ok; [|exec_top; reflexivity]. cbn [next_].
      rewrite cons_middle, app_assoc in Hother1.
      specialize (IH (done ++ [(a, v)]) ns1 m1 fuel Hwf1 Hlist1 Hother1
                    Hene Hne ltac:(lia)).
      destruct (copy_loop fuel this other (Some (hd_addr todo eo)) m1)
        as [[] m2|ex m2| | |]; try done.
      * destruct IH as (ns2 & Hvs2 & Hev2). exists ns2. split.
        -- rewrite Hvs2, Hvs1, fmap_cons, <- app_assoc. done.
        -- by apply (evolved_trans this e ns1 ns2 m m1 m2).
      * destruct IH as (Hex & ns2 & Hev2). split; [done|]. exists ns2.
        by apply (evolved_trans this e ns1 ns2 m m1 m2).
    + destruct Hpush as [Hex Hev]. split; [done|]. by exists ns.
Qed.

Lemma assign_loop_total this e other eo todo :
  ∀ done ns m fuel,
  heap_wf (nodes m) → is_list m this e ns →
  is_list m other eo (done ++ todo) → e ≠ eo → this ≠ other →
  length todo ≤ fuel →
  match assign_loop fuel this other (mkIter (Some (hd_addr todo eo))) m with
  | Ok _ m' =>
      ∃ ns', ns'.*2 = ns.*2 ++ todo.*2 ∧ evolved this e ns' m m'
  | Throw ex m' =>
      (ex = bad_alloc ∨ ex = element_exn) ∧ ∃ ns', evolved this e ns' m m'
  | Terminate | Undefined | OutOfFuel => False
  end.
Proof.
  induction todo as [|[a v] todo IH];
    intros done ns m fuel Hwf Hlist Hother Hene Hne Hfuel;
    rewrite assign_loop_eq;
    (erewrite bind_Ok; [|by apply (End_ok _ _ _ (proj1 Hother))]);
    unfold Iterator_ne; cbn [iter_ end_ hd_addr].
  - rewrite bool_decide_true by done. cbn [negb].
    exists ns. split; [by rewrite app_nil_r|by apply evolved_refl].
  - cbn [length] in Hfuel. destruct fuel as [|fuel]; [lia|].
    pose proof (ring_sentinel_ne _ _ _ _ _ _ (proj2 Hother)) as Hao.
    rewrite bool_decide_false by congruence. cbn [negb].
    pose proof (chain_lookup _ _ _ _ _ _ _ (proj2 (proj2 (proj2 Hother))))
      as Ha.
    erewrite bind_Ok; [|red_iter; exec_top; reflexivity].
    pose proof (PushBack_total this e ns m v Hwf Hlist) as Hpush.
    unfold bind at 1.
    destruct (PushBack this v m) as [[] m1|ex m1| | |]; try done.
    + destruct Hpush as (ns1 & Hvs1 & Hev1).
      pose proof Hev1 as (Hlist1 & Hwf1 & _).
      pose proof (evolved_other _ _ _ _ _ _ _ _ Hev1 Hother Hne Hene)
        as Hother1.
      pose proof (chain_lookup _ _ _ _ _ _ _
                    (proj2 (proj2 (proj2 Hother1)))) as Ha1.
      erewrite bind_Ok; [|red_iter; exec_top; reflexivity]. cbn [next_].
      rewrite cons_middle, app_assoc in Hother1.
      specialize (IH (done ++ [(a, v)]) ns1 m1 fuel Hwf1 Hlist1 Hother1
                    Hene Hne ltac:(lia)).
      destruct (assign_loop fuel this other
                  (mkIter (Some (hd_addr todo eo))) m1)
        as [[] m2|ex m2| | |]; try done.
      * destruct IH as (ns2 & Hvs2 & Hev2). exists ns2. split.
        -- rewrite Hvs2, Hvs1, fmap_cons, <- app_assoc. done.
        -- by apply (evolved_trans this e ns1 ns2 m m1 m2).
      * destruct IH as (Hex & ns2 & Hev2). split; [done|]. exists ns2.
        by apply (evolved_trans this e ns1 ns2 m m1 m2).
    + destruct Hpush as [Hex Hev]. split; [done|]. by exists ns.
Qed.

(** The member initialisation and the first two statements shared by the
    default and the copy constructor, followed by any continuation [K]. *)
Lemma ctor_init_ok m this a rest :
  heap_wf (nodes m) → alloc_succeeds m a rest →
  ∃ m0,
    (∀ A (K : M A),
       bind new_ListNode (λ e,
       bind (write_list this (mkList (Some e) 0)) (λ _,
       bind (get_end this) (λ e1,
       bind (SetNext e1 e1) (λ _,
       bind (get_end this) (λ e2,
       bind (SetPrev e2 e2) (λ _, K)))))) m = K m0)
    ∧ is_list m0 this a [] ∧ heap_wf (nodes m0)
    ∧ lists_frame this m m0 ∧ all_rings_kept m m0.
Proof.
  intros Hwf (Hal & Ha & Hlt). destruct m as [h ls al].
  cbn [nodes lists allocator] in *. subst al.
  pose proof Hlt as Hlt'. apply Pos.ltb_lt in Hlt'.
  eexists. split.
  { intros A K. unfold new_ListNode, operator_new.
    exec_top. rewrite Hlt'. exec_top. reflexivity. }
  cbn [nodes lists allocator].
  split; [|split; [|split]].
  - split; cbn [nodes lists]; [by rewrite lookup_insert_eq|].
    apply ring_empty_intro. by rewrite lookup_insert_eq.
  - apply (heap_wf_frame [a] h); [done| |].
    + intros b Hb. apply not_elem_of_cons in Hb as [Hb _]. by exec.
    + by intros b ->%list_elem_of_singleton.
  - intros o Ho. cbn [lists]. by rewrite lookup_insert_ne.
  - intros e ns Hr. cbn [nodes] in *.
    apply (ring_frame h); [|done]. intros b Hb.
    assert (b ≠ a).
    { intros ->. destruct (ring_live _ _ _ _ Hr Hb) as [? ?]. congruence. }
    by exec.
Qed.

(** Copy construction never runs into undefined behaviour: it returns
    with a list of the same values on fresh nodes, or an allocation or a
    copy throws and no object is left behind. *)
Lemma List_copy_total m this other eo nso fuel :
  heap_wf (nodes m) → is_list m other eo nso → this ≠ other →
  length nso ≤ fuel →
  match List_copy fuel this other m with
  | Ok _ m' =>
      ∃ e ns, nodes m !! e = None ∧ is_list m' this e ns
              ∧ ns.*2 = nso.*2 ∧ heap_wf (nodes m')
              ∧ lists_frame this m m' ∧ all_rings_kept m m'
  | Throw ex m' =>
      (ex = bad_alloc ∨ ex = element_exn) ∧ heap_wf (nodes m')
      ∧ lists m' = delete this (lists m) ∧ all_rings_kept m m'
  | Terminate | Undefined | OutOfFuel => False
  end.
Proof.
  intros Hwf Hother Hne Hfuel. unfold List_copy, constructor, try_catch.
  destruct (operator_new_cases m) as [(a & rest & Hal)|[rest Hfail]].
  - destruct (ctor_init_ok m this a rest Hwf Hal)
      as (m0 & HK & Hlist0 & Hwf0 & Hlf0 & Hrk0).
    rewrite HK.
    assert (Hother0 : is_list m0 other eo nso).
    { destruct Hother as [Hl Hr]. split; [|by apply Hrk0].
      rewrite Hlf0 by done. exact Hl. }
    pose proof Hother0 as [Hl0 (_ & He0 & _)].
    erewrite bind_Ok; [|exec_top; reflexivity].
    erewrite bind_Ok; [|exec_top; reflexivity]. cbn [next_].
    destruct Hal as (_ & Ha & _).
    assert (Hae : a ≠ eo).
    { intros ->. destruct Hother as [_ (_ & He & _)]. congruence. }
    pose proof (copy_loop_total this a other eo nso [] [] m0 fuel
                  Hwf0 Hlist0 Hother0 Hae Hne Hfuel) as Hloop.
    destruct (copy_loop fuel this other (Some (hd_addr nso eo)) m0)
      as [[] m1|ex m1| | |]; try done.
    + destruct Hloop as (ns & Hvs & Hlist1 & Hwf1 & Hlf1 & Hby1).
      exists a, ns.
      split; [done|]. split; [done|]. split; [done|]. split; [done|]. split.
      * intros o Ho. rewrite Hlf1, Hlf0; done.
      * intros e' ns' Hr. apply Hby1; [|by apply Hrk0].
        intros ->. destruct Hr as (_ & He & _). congruence.
    + destruct Hloop as (Hex & ns & Hlist1 & Hwf1 & Hlf1 & Hby1).
      unfold end_lifetime, throw, bind, set_lists. cbn [nodes lists].
      split; [done|]. split; [done|]. split.
      * apply map_eq. intros o. destruct (decide (o = this)) as [->|Ho].
        -- by rewrite !lookup_delete_eq.
        -- rewrite !lookup_delete_ne by done. rewrite Hlf1, Hlf0; done.
      * intros e' ns' Hr. cbn [nodes]. apply Hby1; [|by apply Hrk0].
        intros ->. destruct Hr as (_ & He & _). congruence.
  - unfold new_ListNode. unfold bind at 1 2. rewrite Hfail.
    unfold end_lifetime, throw, bind, set_lists. cbn [nodes lists].
    split; [by left|]. split; [done|]. split; [done|]. by intros e' ns' Hr.
Qed.

(** Copy assignment: [this] ends up with the values of [other], or a push
    throws part way and [this] holds a prefix of them. *)
Lemma List_copy_assign_total m this e ns other eo nso fuel :
  heap_wf (nodes m) → is_list m this e ns → is_list m other eo nso →
  (this ≠ other → e ≠ eo) → length nso ≤ fuel →
  match List_copy_assign fuel this other m with
  | Ok _ m' => ∃ ns', ns'.*2 = nso.*2 ∧ evolved this e ns' m m'
  | Throw ex m' =>
      (ex = bad_alloc ∨ ex = element_exn) ∧ ∃ ns', evolved this e ns' m m'
  | Terminate | Undefined | OutOfFuel => False
  end.
Proof.
  intros Hwf Hlist Hother Hene Hfuel. unfold List_copy_assign.
  destruct (decide (this ≠ other)) as [Hne|Heq].
  - specialize (Hene Hne).
    destruct (clear_with_ok this e ns m false Hwf Hlist)
      as (m1 & Hclear & Hev1 & _).
    pose proof Hev1 as (Hlist1 & Hwf1 & _).
    pose proof (evolved_other _ _ _ _ _ _ _ _ Hev1 Hother Hne Hene)
      as Hother1.
    erewrite bind_Ok; [|exact Hclear].
    erewrite bind_Ok; [|by apply (Begin_ok m1 other eo nso)].
    pose proof (assign_loop_total this e other eo nso [] [] m1 fuel
                  Hwf1 Hlist1 Hother1 Hene Hne Hfuel) as Hloop.
    destruct (assign_loop fuel this other
                (mkIter (Some (hd_addr nso eo))) m1)
      as [[] m2|ex m2| | |]; try done.
    + destruct Hloop as (ns2 & Hvs & Hev2). exists ns2. split; [done|].
      by apply (evolved_trans this e [] ns2 m m1 m2).
    + destruct Hloop as (Hex & ns2 & Hev2). split; [done|]. exists ns2.
      by apply (evolved_trans this e [] ns2 m m1 m2).
  - assert (this = other) as <- by (by destruct (decide (this = other)); [|exfalso; auto]).
    exists nso. split; [done|].
    assert (e = eo) as ->.
    { destruct Hlist as [Hl _], Hother as [Hl' _]. congruence. }
    by apply evolved_refl.
Qed.

End Copies.


(** * What the clearing loops release *)

Section Releases.
Context {T : Type} `{Element T}.
Implicit Types (h : gmap positive (ListNode (T:=T))).
Implicit Types (l : list (positive * T)).
Implicit Types (ns : list (positive * T)) (m : mem (T:=T)).

Lemma elem_of_placed s a x ns (b : positive) :
  b ∈ (placed s a x ns).*1 ↔ b = a ∨ b ∈ ns.*1.
Proof.
  destruct s; cbn [placed].
  - rewrite fmap_cons. cbn [fst]. by rewrite elem_of_cons.
  - rewrite fmap_app, elem_of_app, fmap_cons, fmap_nil. cbn [fst].
    rewrite list_elem_of_singleton. tauto.
Qed.

Lemma elem_of_middle l1 a v l2 (b : positive) :
  b ∈ (l1 ++ (a, v) :: l2).*1 ↔ b = a ∨ b ∈ (l1 ++ l2).*1.
Proof.
  rewrite !fmap_app, fmap_cons, !elem_of_app, elem_of_cons. cbn [fst]. tauto.
Qed.

(** The pop that undoes a push at the same side. *)
Lemma pop_placed s m this e ns a x :
  heap_wf (nodes m) → is_list m this e (placed s a x ns) →
  ∃ m', pop s this m = Ok tt m'
      ∧ updated this e ns (e :: (placed s a x ns).*1) (allocator m) m m'
      ∧ nodes m' !! a = None.
Proof.
  intros Hwf Hlist. destruct s; cbn [pop placed] in *.
  - by apply (PopFront_ok m this e a x ns).
  - by apply (PopBack_ok m this e ns a x).
Qed.

Lemma footprint_refl e ns m : footprint_kept e ns ns m m.
Proof. split; [|split]; intros b Hb Hb'; done. Qed.

Lemma footprint_trans e ns ns1 ns2 m m1 m2 :
  footprint_kept e ns ns1 m m1 → footprint_kept e ns1 ns2 m1 m2 →
  footprint_kept e ns ns2 m m2.
Proof.
  intros (Hrel1 & Hsame1 & Hnew1) (Hrel2 & Hsame2 & Hnew2).
  split; [|split]; intros b Hb2 Hb0.
  - destruct (decide (b ∈ e :: ns1.*1)) as [Hb1|Hb1].
    + by apply Hrel2.
    + rewrite Hsame2 by done. by apply Hrel1.
  - destruct (decide (b ∈ e :: ns1.*1)) as [Hb1|Hb1].
    + rewrite Hrel2 by done. symmetry. by apply Hnew1.
    + rewrite Hsame2 by done. by apply Hsame1.
  - destruct (decide (b ∈ e :: ns1.*1)) as [Hb1|Hb1].
    + by apply Hnew1.
    + rewrite <- Hsame1 by done. by apply Hnew2.
Qed.

(** Only the allocator has moved. *)
Lemma footprint_same_heap e ns m m' :
  nodes m' = nodes m → footprint_kept e ns ns m m'.
Proof. intros Hn. split; [|split]; intros b Hb Hb'; by rewrite ?Hn. Qed.

Lemma footprint_push s this e ns a x rest m m' :
  nodes m !! a = None →
  updated this e (placed s a x ns) (a :: e :: ns.*1) rest m m' →
  footprint_kept e ns (placed s a x ns) m m'.
Proof.
  intros Ha (_ & _ & _ & Hnf & _). split; [|split]; intros b Hb Hb'.
  - exfalso. apply Hb. apply elem_of_cons in Hb' as [->|Hb'];
      [apply list_elem_of_here|].
    apply list_elem_of_further, elem_of_placed. by right.
  - apply Hnf. apply not_elem_of_cons. split; [|done].
    intros ->. apply Hb, list_elem_of_further, elem_of_placed. by left.
  - apply elem_of_cons in Hb as [->|Hb].
    + exfalso. apply Hb', list_elem_of_here.
    + apply elem_of_placed in Hb as [->|Hb]; [done|].
      exfalso. by apply Hb', list_elem_of_further.
Qed.

Lemma footprint_unlink this e l1 a v l2 al m m' :
  updated this e (l1 ++ l2) (e :: (l1 ++ (a, v) :: l2).*1) al m m' →
  nodes m' !! a = None →
  footprint_kept e (l1 ++ (a, v) :: l2) (l1 ++ l2) m m'.
Proof.
  intros (_ & _ & _ & Hnf & _) Ha. split; [|split]; intros b Hb Hb'.
  - apply elem_of_cons in Hb' as [->|Hb'].
    + exfalso. apply Hb, list_elem_of_here.
    + apply elem_of_middle in Hb' as [->|Hb']; [done|].
      exfalso. by apply Hb, list_elem_of_further.
  - by apply Hnf.
  - exfalso. apply Hb'. apply elem_of_cons in Hb as [->|Hb];
      [apply list_elem_of_here|].
    apply list_elem_of_further, elem_of_middle. by right.
Qed.

Lemma placed_case s ns : ns = [] ∨ ∃ a x ns0, ns = placed s a x ns0.
Proof.
  destruct s; cbn [placed].
  - destruct ns as [|[a x] ns0]; [by left|right]. by exists a, x, ns0.
  - destruct (snoc_case ns) as [->|(l & b & w & ->)]; [by left|right].
    by exists b, w, l.
Qed.

Lemma placed_as_middle s a x ns :
  ∃ l1 l2, placed s a x ns = l1 ++ (a, x) :: l2 ∧ ns = l1 ++ l2.
Proof.
  destruct s; cbn [placed].
  - by exists [], ns.
  - exists ns, []. by rewrite app_nil_r.
Qed.

(** The clearing loops, with what they do to the heap. *)
Lemma while_pop_exact s this e :
  ∀ n ns m k, length ns = n →
  heap_wf (nodes m) → is_list m this e ns → n ≤ k →
  ∃ m', while_not_empty k this (pop s this) m = Ok tt m'
      ∧ is_list m' this e [] ∧ heap_wf (nodes m')
      ∧ footprint_kept e ns [] m m'
      ∧ lists_frame this m m' ∧ allocator m' = allocator m.
Proof.
  induction n as [|n IH]; intros ns m k Hlen Hwf Hlist Hk.
  - apply nil_length_inv in Hlen. subst ns. exists m.
    split; [|split; [done|split; [done|split; [apply footprint_refl|]]]].
    + rewrite while_not_empty_eq.
      erewrite bind_Ok; [|by apply (IsEmpty_ok _ _ _ (proj1 Hlist))]. done.
    + split; [by intros o Ho|done].
  - destruct (placed_case s ns) as [->|(a & x & ns0 & ->)]; [done|].
    rewrite length_placed in Hlen.
    destruct k as [|k]; [lia|].
    destruct (pop_placed s m this e ns0 a x Hwf Hlist)
      as (m1 & Hpop & Hup & Ha).
    pose proof Hup as (Hlist1 & Hwf1 & Hal1 & _ & Hlf1).
    destruct (IH ns0 m1 k ltac:(lia) Hwf1 Hlist1 ltac:(lia))
      as (m' & Hrun & Hlist' & Hwf' & Hfp & Hlf & Hal).
    exists m'. split; [|split; [done|split; [done|split; [|split]]]].
    + rewrite while_not_empty_eq.
      erewrite bind_Ok; [|by apply (IsEmpty_ok _ _ _ (proj1 Hlist))].
      cbn [size_]. rewrite bool_decide_false.
      2:{ rewrite length_placed. lia. }
      erewrite bind_Ok; [|exact Hpop]. exact Hrun.
    + apply (footprint_trans e _ ns0 [] m m1 m'); [|done].
      destruct (placed_as_middle s a x ns0) as (l1 & l2 & Hp & Hn).
      rewrite Hp, Hn. rewrite Hp, Hn in Hup.
      by apply (footprint_unlink this e l1 a x l2 (allocator m)).
    + intros o Ho. rewrite Hlf, Hlf1; done.
    + congruence.
Qed.

Lemma clear_with_exact s this e ns m :
  heap_wf (nodes m) → is_list m this e ns →
  ∃ m', clear_with this (pop s this) m = Ok tt m'
      ∧ is_list m' this e [] ∧ heap_wf (nodes m')
      ∧ footprint_kept e ns [] m m'
      ∧ lists_frame this m m' ∧ allocator m' = allocator m.
Proof.
  intros Hwf Hlist.
  destruct (while_pop_exact s this e (length ns) ns m (length ns)
              eq_refl Hwf Hlist (le_n _)) as (m' & Hrun & Hrest).
  exists m'. split; [|done]. unfold clear_with.
  erewrite bind_Ok; [|destruct Hlist as [Hl _]; exec_top; reflexivity].
  cbn [size_]. by rewrite Nat2Z.id.
Qed.

(** Another ring of the heap is outside the footprint. *)
Lemma footprint_other_ring e ns ns' m m' eo nso :
  footprint_kept e ns ns' m m' → ring (nodes m) e ns →
  ring (nodes m) eo nso → e ≠ eo →
  (∀ b, b ∈ eo :: nso.*1 → nodes m' !! b = nodes m !! b)
  ∧ ring (nodes m') eo nso.
Proof.
  intros (_ & Hsame & Hnew) Hr Hro Hne.
  assert (Hf : ∀ b, b ∈ eo :: nso.*1 → nodes m' !! b = nodes m !! b).
  { intros b Hb.
    assert (Hb0 : b ∉ e :: ns.*1)
      by by apply (rings_disjoint (nodes m) eo nso e ns).
    apply Hsame; [|done]. intros Hb'.
    specialize (Hnew b Hb' Hb0).
    destruct (ring_live _ _ _ _ Hro Hb) as [? ?]. congruence. }
  split; [done|]. by apply (ring_frame (nodes m)).
Qed.

End Releases.

(** * Move assignment, whatever the allocator answers *)

(** Symbolic execution that prefers the hypotheses about the heap, for
    code after an allocation whose address may be one just released. *)
Ltac exec_branch :=
  red_top;
  repeat (first [ match goal with
                  | Hl : ?x !! ?a = _ |- context [?x !! ?a] => rewrite Hl
                  end
                | rewrite decide_False
                    by (let Hx := fresh in intros Hx; by apply Hx)
                | exec1 ];
          red_top).

Section MoveAssignment.
Context {T : Type} `{Element T}.
Implicit Types (h : gmap positive (ListNode (T:=T))).
Implicit Types (l : list (positive * T)).
Implicit Types (ns : list (positive * T)) (m : mem (T:=T)).

(** Move assignment between distinct lists, step by step: the nodes of
    [this] are released, [this] adopts the ring of [other], and only then
    is the replacement sentinel requested, so the request is answered on
    the heap without the old nodes of [this].  It succeeds exactly under
    [alloc_succeeds_after]; otherwise [other] keeps its [size_] next to a
    null [end_]. *)
Lemma List_move_assign_exact m this other e1 ns1 e2 ns2 :
  heap_wf (nodes m) → is_list m this e1 ns1 → is_list m other e2 ns2 →
  this ≠ other → e1 ≠ e2 →
  ∃ m', List_move_assign this other m = Ok tt m'
      ∧ is_list m' this e2 ns2
      ∧ heap_wf (nodes m')
      ∧ (∀ o, o ≠ this → o ≠ other → lists m' !! o = lists m !! o)
      ∧ (∀ b, b ∈ e2 :: ns2.*1 → nodes m' !! b = nodes m !! b)
      ∧ (∀ a rest, alloc_succeeds_after m (e1 :: ns1.*1) a rest →
           is_list m' other a [] ∧ allocator m' = rest
           ∧ (a ∉ e2 :: ns2.*1)
           ∧ (∀ b, b ∈ e1 :: ns1.*1 → b ≠ a → nodes m' !! b = None)
           ∧ (∀ b, b ∉ e1 :: ns1.*1 → b ≠ a →
                nodes m' !! b = nodes m !! b))
      ∧ ((¬ ∃ a rest, alloc_succeeds_after m (e1 :: ns1.*1) a rest) →
           lists m' !! other = Some (mkList nullptr (Z.of_nat (length ns2)))
           ∧ (∀ b, b ∈ e1 :: ns1.*1 → nodes m' !! b = None)
           ∧ (∀ b, b ∉ e1 :: ns1.*1 → nodes m' !! b = nodes m !! b)).
Proof.
  intros Hwf Hlist1 Hlist2 Hne Hene.
  destruct (clear_with_exact AtBack this e1 ns1 m Hwf Hlist1)
    as (m1 & Hclear & [Hl1 Hr1] & Hwf1 & Hfp & Hlf & Hal).
  cbn [pop] in Hclear.
  destruct (footprint_other_ring e1 ns1 [] m m1 e2 ns2 Hfp
              (proj2 Hlist1) (proj2 Hlist2) Hene) as [Hsame2 Hr2].
  destruct Hfp as (Hrel & Hsame & _).
  pose proof Hr1 as (_ & He1 & _).
  destruct Hlist2 as [Hl2 Hr2m].
  destruct m1 as [h1 ls1 al1]. unfold lists_frame in Hlf.
  cbn [nodes lists allocator length hd_addr last_addr] in *.
  pose proof Hl2 as Hl2m.
  rewrite <- (Hlf other) in Hl2 by done.
  change (Z.of_nat 0) with 0%Z in Hl1.
  assert (Hrel' : ∀ b, b ∈ e1 :: ns1.*1 → delete e1 h1 !! b = None).
  { intros b Hb. destruct (decide (b = e1)) as [->|Hbe].
    - by rewrite lookup_delete_eq.
    - rewrite lookup_delete_ne by done. apply Hrel; [|done].
      by intros ->%list_elem_of_singleton. }
  assert (Hout : ∀ b, b ∉ e1 :: ns1.*1 → delete e1 h1 !! b = nodes m !! b).
  { intros b Hb. assert (b ≠ e1).
    { intros ->. apply Hb, list_elem_of_here. }
    rewrite lookup_delete_ne by done. apply Hsame; [|done].
    by intros ->%list_elem_of_singleton. }
  assert (Hne2 : ∀ b, b ∈ e2 :: ns2.*1 → b ≠ e1).
  { intros b Hb ->.
    apply (rings_disjoint h1 e2 ns2 e1 [] e1 Hr2 Hr1);
      [congruence|done|apply list_elem_of_here]. }
  assert (Hkeep : ∀ b, b ∈ e2 :: ns2.*1 → delete e1 h1 !! b = nodes m !! b).
  { intros b Hb. rewrite lookup_delete_ne by (by apply not_eq_sym, Hne2).
    by apply Hsame2. }
  assert (Hr2' : ring (delete e1 h1) e2 ns2).
  { apply (ring_frame h1); [|done]. intros b Hb.
    apply lookup_delete_ne. by apply not_eq_sym, Hne2. }
  assert (Hwf2 : heap_wf (delete e1 h1)).
  { intros b n Hn. apply lookup_delete_Some in Hn as [_ Hn].
    exact (Hwf1 b n Hn). }
  assert (Hfree : ∀ a, nodes m !! a = None ∨ a ∈ e1 :: ns1.*1 →
            delete e1 h1 !! a = None).
  { intros a [Ha|Ha]; [|by apply Hrel'].
    destruct (decide (a ∈ e1 :: ns1.*1)); [by apply Hrel'|].
    by rewrite Hout. }
  assert (Hfree' : ∀ a, delete e1 h1 !! a = None →
            nodes m !! a = None ∨ a ∈ e1 :: ns1.*1).
  { intros a Ha. destruct (decide (a ∈ e1 :: ns1.*1)); [by right|left].
    by rewrite <- Hout. }
  assert (Hstart : ∀ A (K : M (T:=T) A),
            bind (clear_with this (PopBack this))
              (λ _, bind (get_end this) (λ e, bind (delete_node e) (λ _, K)))
              m
            = K (mkMem (delete e1 h1) ls1 al1)).
  { intros A K. erewrite bind_Ok; [|exact Hclear]. exec_top. reflexivity. }
  destruct (operator_new_cases
              (mkMem (delete e1 h1)
                 (<[this := mkList (Some e2) (Z.of_nat (length ns2))]>
                    (<[this := mkList (Some e2) 0]> ls1)) al1))
    as [(a & rest & Hal1 & Ha & Hlt)|[rest Hfail]].
  - cbn [nodes lists allocator] in *. subst al1. rewrite Hal1 in Hstart.
    pose proof Hlt as Hlt'. apply Pos.ltb_lt in Hlt'.
    assert (Hane : ∀ b, b ∈ e2 :: ns2.*1 → b ≠ a).
    { intros b Hb ->. destruct (ring_live _ _ _ _ Hr2' Hb) as [? ?].
      congruence. }
    eexists. split.
    { clear -Hstart Ha Hlt' Hl1 Hl2 Hne.
      unfold List_move_assign, noexcept. rewrite decide_True by done.
      rewrite Hstart. unfold new_nothrow_ListNode, new_ListNode, operator_new.
      exec_branch. rewrite Hlt'. exec_branch. reflexivity. }
    cbn [nodes lists allocator].
    split; [|split; [|split; [|split; [|split]]]].
    + split; cbn [nodes lists]; [by exec|].
      apply (ring_frame (delete e1 h1)); [|done]. intros b Hb.
      specialize (Hane b Hb). by exec.
    + apply (heap_wf_frame [a] (delete e1 h1)).
      * done.
      * intros b Hb. apply not_elem_of_cons in Hb as [Hb _].
        by rewrite !lookup_insert_ne by done.
      * by intros b ->%list_elem_of_singleton.
    + intros o Ho1 Ho2. rewrite !lookup_insert_ne by done. by apply Hlf.
    + intros b Hb. specialize (Hane b Hb).
      rewrite !lookup_insert_ne by done. by apply Hkeep.
    + intros a' rest' (Hal' & _ & _). rewrite Hal' in Hal1.
      injection Hal1 as -> ->.
      split; [|split; [done|split; [|split]]].
      * split; cbn [nodes lists length]; [by exec|].
        apply ring_empty_intro. by rewrite lookup_insert_eq.
      * intros Hin. by apply (Hane a).
      * intros b Hb Hba. rewrite !lookup_insert_ne by done. by apply Hrel'.
      * intros b Hb Hba. rewrite !lookup_insert_ne by done. by apply Hout.
    + intros Hno. exfalso. apply Hno. exists a, rest.
      split; [done|]. split; [by apply Hfree'|done].
  - eexists. split.
    { clear -Hstart Hfail Hl1 Hl2 Hne.
      unfold List_move_assign, noexcept. rewrite decide_True by done.
      rewrite Hstart. unfold new_nothrow_ListNode, new_ListNode.
      exec_top. rewrite Hfail. exec_branch. reflexivity. }
    cbn [nodes lists allocator].
    split; [|split; [|split; [|split; [|split]]]].
    + split; cbn [nodes lists]; [by exec|done].
    + done.
    + intros o Ho1 Ho2. rewrite !lookup_insert_ne by done. by apply Hlf.
    + done.
    + intros a' rest' (Hal' & Ha' & Hlt'). exfalso.
      cbn [allocator] in Hal. subst al1.
      assert (Hok : alloc_succeeds
                (mkMem (delete e1 h1)
                   (<[this := mkList (Some e2) (Z.of_nat (length ns2))]>
                      (<[this := mkList (Some e2) 0]> ls1)) (allocator m))
                a' rest').
      { split; [done|]. split; [by apply Hfree|done]. }
      apply operator_new_Ok in Hok. congruence.
    + intros _. split; [by exec|]. split; done.
Qed.

End MoveAssignment.

(** * The ring invariant under every public operation *)

Section Invariant.
Context {T : Type} `{Element T}.
Implicit Types (h : gmap positive (ListNode (T:=T))).
Implicit Types (l : list (positive * T)).
Implicit Types (ns : list (positive * T)) (m : mem (T:=T)).

Lemma hd_addr_in l e : hd_addr l e ∈ e :: l.*1.
Proof. destruct l as [|[a v] l]; cbn [hd_addr]; [|rewrite fmap_cons]; set_solver. Qed.

Lemma last_addr_in l e : last_addr e l ∈ e :: l.*1.
Proof.
  destruct (last_addr_cases e l) as [[_ ->]|Hin]; [apply list_elem_of_here|].
  by apply list_elem_of_further.
Qed.

Lemma ring_hd_prev h e ns l1 l2 :
  ring h e ns → ns = l1 ++ l2 →
  ∃ n, h !! hd_addr l2 e = Some n ∧ prev_ n = Some (last_addr e l1).
Proof.
  intros (_ & He & Hc) ->. destruct l2 as [|[c u] r].
  - rewrite app_nil_r in He. cbn [hd_addr]. eauto.
  - apply chain_lookup in Hc. cbn [hd_addr]. eauto.
Qed.

Lemma ring_last_next h e ns l1 l2 :
  ring h e ns → ns = l1 ++ l2 →
  ∃ n, h !! last_addr e l1 = Some n ∧ next_ n = Some (hd_addr l2 e).
Proof.
  intros (_ & He & Hc) ->.
  destruct (snoc_case l1) as [->|(l & b & w & ->)].
  - cbn [last_addr app] in *. eauto.
  - rewrite <- app_assoc in Hc. apply chain_lookup in Hc.
    rewrite last_addr_app. cbn [last_addr app hd_addr] in *. eauto.
Qed.

(** A ring satisfies the link equations of the invariant at every node. *)
Lemma ring_links h e ns : ring h e ns → links_consistent h (e :: ns.*1).
Proof.
  intros Hr a Ha.
  assert (Hmem : ∀ l1 l2, ns = l1 ++ l2 →
            hd_addr l2 e ∈ e :: ns.*1 ∧ last_addr e l1 ∈ e :: ns.*1).
  { intros l1 l2 ->. split.
    - pose proof (hd_addr_in l2 e) as Hin. rewrite fmap_app. set_solver.
    - pose proof (last_addr_in l1 e) as Hin. rewrite fmap_app. set_solver. }
  apply elem_of_cons in Ha as [->|Ha].
  - pose proof Hr as (_ & He & _).
    destruct (ring_hd_prev h e ns [] ns Hr eq_refl) as (nb & Hb & Hpb).
    destruct (ring_last_next h e ns ns [] Hr (eq_sym (app_nil_r ns)))
      as (nc & Hc & Hnc).
    destruct (Hmem [] ns eq_refl) as [Hin1 _].
    destruct (Hmem ns [] (eq_sym (app_nil_r ns))) as [_ Hin2].
    eexists _, _, _, nb, nc. cbn [prev_ next_].
    split; [exact He|]. cbn [prev_ next_]. by repeat split.
  - apply elem_of_addrs_split in Ha as (l1 & v & l2 & Hns).
    pose proof Hr as (_ & _ & Hc). rewrite Hns in Hc.
    apply chain_lookup in Hc.
    destruct (ring_hd_prev h e ns (l1 ++ [(a, v)]) l2 Hr) as (nb & Hb & Hpb).
    { by rewrite <- app_assoc. }
    destruct (ring_last_next h e ns l1 ((a, v) :: l2) Hr Hns)
      as (nc & Hcc & Hnc).
    destruct (Hmem (l1 ++ [(a, v)]) l2) as [Hin1 _].
    { by rewrite <- app_assoc. }
    destruct (Hmem l1 ((a, v) :: l2) Hns) as [_ Hin2].
    rewrite last_addr_app in Hpb. cbn [last_addr hd_addr] in *.
    eexists _, _, _, nb, nc.
    split; [exact Hc|]. cbn [prev_ next_]. by repeat split.
Qed.

Lemma ring_invariant_intro m this e ns :
  is_list m this e ns → ring_invariant m this.
Proof. intros Hl. exists e, ns. split; [done|]. apply ring_links, Hl. Qed.

Lemma mem_inv_intro m :
  heap_wf (nodes m) →
  (∀ o L, lists m !! o = Some L → ∃ e ns, is_list m o e ns) →
  unshared m → mem_inv m.
Proof.
  intros Hwf Hall Hun. split; [done|]. split; [|done].
  intros o L Ho. destruct (Hall o L Ho) as (e & ns & Hl).
  by apply (ring_invariant_intro m o e ns).
Qed.

Lemma mem_inv_live m o L :
  mem_inv m → lists m !! o = Some L →
  ∃ e ns, is_list m o e ns ∧ L = mkList (Some e) (Z.of_nat (length ns)).
Proof.
  intros (_ & Hall & _) Ho. destruct (Hall o L Ho) as (e & ns & Hl & _).
  exists e, ns. split; [done|]. destruct Hl as [Hl _]. congruence.
Qed.

(** Distinct live objects have distinct sentinels. *)
Lemma mem_inv_sentinels m o1 e1 ns1 o2 e2 ns2 :
  mem_inv m → is_list m o1 e1 ns1 → is_list m o2 e2 ns2 →
  o1 ≠ o2 → e1 ≠ e2.
Proof.
  intros (_ & _ & Hun) [Hl1 _] [Hl2 _] Hne ->.
  apply Hne. by apply (Hun o1 o2 _ _ Hl1 Hl2).
Qed.

(** The invariant does not look at the allocator, and survives the end
    of an object's lifetime. *)
Lemma mem_inv_same m m' :
  mem_inv m → nodes m' = nodes m →
  (∀ o L, lists m' !! o = Some L → lists m !! o = Some L) →
  mem_inv m'.
Proof.
  intros Hinv Hn Hsub. pose proof Hinv as (Hwf & _ & Hun).
  apply mem_inv_intro.
  - by rewrite Hn.
  - intros o L Ho.
    destruct (mem_inv_live m o L Hinv (Hsub o L Ho))
      as (e & ns & [_ Hr] & ->).
    exists e, ns. split; [exact Ho|by rewrite Hn].
  - intros o1 o2 L1 L2 H1 H2. apply Hun; by apply Hsub.
Qed.

(** A composite step on [this] that keeps its sentinel keeps the
    invariant of the whole memory. *)
Lemma mem_inv_evolved m m' this e ns ns' :
  mem_inv m → is_list m this e ns → evolved this e ns' m m' → mem_inv m'.
Proof.
  intros Hinv Hlist Hev. pose proof Hev as (Hl' & Hwf' & Hlf & Hby).
  pose proof Hinv as (_ & _ & Hun).
  assert (Hback : ∀ o L', lists m' !! o = Some L' →
            ∃ L, lists m !! o = Some L ∧ end_ L = end_ L').
  { intros o L' Ho. destruct (decide (o = this)) as [->|Hne].
    - destruct Hlist as [Hl _], Hl' as [Hl' _]. eexists. split; [done|].
      rewrite Hl' in Ho. by simplify_eq.
    - rewrite Hlf in Ho by done. eauto. }
  apply mem_inv_intro; [done| |].
  - intros o L' Ho. destruct (decide (o = this)) as [->|Hne]; [eauto|].
    rewrite Hlf in Ho by done.
    destruct (mem_inv_live m o L' Hinv Ho) as (eo & nso & Hlo & _).
    exists eo, nso.
    apply (evolved_other this e ns' m m' o eo nso); [done|done|done|].
    by apply (mem_inv_sentinels m this e ns o eo nso).
  - intros o1 o2 L1 L2 H1 H2 Heq.
    destruct (Hback o1 L1 H1) as (K1 & HK1 & E1).
    destruct (Hback o2 L2 H2) as (K2 & HK2 & E2).
    apply (Hun o1 o2 K1 K2); congruence.
Qed.

(** A new object on a fresh sentinel. *)
Lemma mem_inv_new_object m m' this e ns :
  mem_inv m → nodes m !! e = None → is_list m' this e ns →
  heap_wf (nodes m') → lists_frame this m m' → all_rings_kept m m' →
  mem_inv m'.
Proof.
  intros Hinv He Hl' Hwf' Hlf Hrk. pose proof Hinv as (_ & _ & Hun).
  assert (Hold : ∀ o L, o ≠ this → lists m' !! o = Some L →
            ∃ eo nso, is_list m o eo nso ∧ is_list m' o eo nso
                      ∧ end_ L = Some eo).
  { intros o L Hne Ho. rewrite Hlf in Ho by done.
    destruct (mem_inv_live m o L Hinv Ho) as (eo & nso & Hlo & ->).
    exists eo, nso. split; [done|]. split; [|done].
    destruct Hlo as [Hlo Hro]. split; [|by apply Hrk].
    by rewrite Hlf. }
  assert (Hfresh : ∀ o L, o ≠ this → lists m' !! o = Some L →
            end_ L ≠ Some e).
  { intros o L Hne Ho Heq.
    destruct (Hold o L Hne Ho) as (eo & nso & [_ (_ & Heo & _)] & _ & Hend).
    congruence. }
  apply mem_inv_intro; [done| |].
  - intros o L Ho. destruct (decide (o = this)) as [->|Hne]; [eauto|].
    destruct (Hold o L Hne Ho) as (eo & nso & _ & Hlo & _). eauto.
  - intros o1 o2 L1 L2 H1 H2 Heq.
    destruct (decide (o1 = this)) as [->|Hne1];
      destruct (decide (o2 = this)) as [->|Hne2]; [done| | |].
    + exfalso. apply (Hfresh o2 L2 Hne2 H2). rewrite <- Heq.
      destruct Hl' as [Hl' _]. rewrite Hl' in H1. by simplify_eq.
    + exfalso. apply (Hfresh o1 L1 Hne1 H1). rewrite Heq.
      destruct Hl' as [Hl' _]. rewrite Hl' in H2. by simplify_eq.
    + rewrite Hlf in H1, H2 by done. by apply (Hun o1 o2 L1 L2).
Qed.

(** An object has gone, the rings of the others are kept. *)
Lemma mem_inv_removed m m' this :
  mem_inv m → heap_wf (nodes m') → lists m' = delete this (lists m) →
  (∀ o eo nso, o ≠ this → is_list m o eo nso → ring (nodes m') eo nso) →
  mem_inv m'.
Proof.
  intros Hinv Hwf' Hl' Hrk. pose proof Hinv as (_ & _ & Hun).
  apply mem_inv_intro; [done| |].
  - intros o L Ho. rewrite Hl' in Ho.
    apply lookup_delete_Some in Ho as [Hne Ho].
    destruct (mem_inv_live m o L Hinv Ho) as (eo & nso & Hlo & ->).
    exists eo, nso. split; [|by apply (Hrk o)].
    rewrite Hl', lookup_delete_ne by done. apply Hlo.
  - intros o1 o2 L1 L2 H1 H2. rewrite Hl' in H1, H2.
    apply lookup_delete_Some in H1 as [_ H1].
    apply lookup_delete_Some in H2 as [_ H2]. by apply Hun.
Qed.

(** The ring of [other] has moved to [this]; [other] sits on a sentinel
    that no other object has. *)
Lemma mem_inv_moved m m' this other e ns a :
  mem_inv m → is_list m other e ns → this ≠ other →
  (∀ o eo nso, o ≠ this → is_list m o eo nso → eo ≠ a) →
  is_list m' this e ns → is_list m' other a [] → heap_wf (nodes m') →
  (∀ o, o ≠ this → o ≠ other → lists m' !! o = lists m !! o) →
  (∀ o eo nso, o ≠ this → o ≠ other → is_list m o eo nso →
     ring (nodes m') eo nso) →
  mem_inv m'.
Proof.
  intros Hinv Hother Hne Ha Hthis' Hother' Hwf' Hlf Hrk.
  pose proof Hinv as (_ & _ & Hun).
  assert (Hea : e ≠ a) by (by apply (Ha other e ns); [apply not_eq_sym|]).
  assert (Hold : ∀ o L, o ≠ this → o ≠ other → lists m' !! o = Some L →
            ∃ eo nso, is_list m' o eo nso ∧ end_ L = Some eo
                      ∧ eo ≠ e ∧ eo ≠ a).
  { intros o L Hn1 Hn2 Ho. rewrite Hlf in Ho by done.
    destruct (mem_inv_live m o L Hinv Ho) as (eo & nso & Hlo & ->).
    exists eo, nso. split; [|split; [done|split]].
    - split; [|by apply (Hrk o)]. rewrite Hlf by done. apply Hlo.
    - by apply (mem_inv_sentinels m o eo nso other e ns).
    - by apply (Ha o eo nso). }
  assert (Hend : ∀ o L, lists m' !! o = Some L →
            (o = this ∧ end_ L = Some e) ∨ (o = other ∧ end_ L = Some a)
            ∨ (o ≠ this ∧ o ≠ other ∧ end_ L ≠ Some e ∧ end_ L ≠ Some a
               ∧ lists m !! o = Some L)).
  { intros o L Ho. destruct (decide (o = this)) as [->|Hn1].
    { left. destruct Hthis' as [Hl _]. rewrite Hl in Ho. by simplify_eq. }
    destruct (decide (o = other)) as [->|Hn2].
    { right. left. destruct Hother' as [Hl _]. rewrite Hl in Ho.
      by simplify_eq. }
    right. right.
    destruct (Hold o L Hn1 Hn2 Ho) as (eo & nso & _ & -> & Hne1 & Hne2).
    rewrite Hlf in Ho by done. repeat split; try done; congruence. }
  apply mem_inv_intro; [done| |].
  - intros o L Ho. destruct (decide (o = this)) as [->|Hn1]; [eauto|].
    destruct (decide (o = other)) as [->|Hn2]; [eauto|].
    destruct (Hold o L Hn1 Hn2 Ho) as (eo & nso & Hlo & _). eauto.
  - intros o1 o2 L1 L2 H1 H2 Heq.
    destruct (Hend o1 L1 H1) as [[-> E1]|[[-> E1]|(N1 & N1' & E1 & E1' & K1)]];
      destruct (Hend o2 L2 H2)
        as [[-> E2]|[[-> E2]|(N2 & N2' & E2 & E2' & K2)]];
      try done; try congruence.
    by apply (Hun o1 o2 L1 L2).
Qed.

End Invariant.

Section Preservation.
Context {T : Type} `{Element T}.
Implicit Types (l : list (positive * T)).
Implicit Types (ns : list (positive * T)) (m : mem (T:=T)).

Lemma nonempty_list m this :
  mem_inv m → nonempty m this →
  ∃ e a v ns, is_list m this e ((a, v) :: ns).
Proof.
  intros Hinv (L & Ho & Hsz).
  destruct (mem_inv_live m this L Hinv Ho) as (e & ns & Hl & ->).
  destruct ns as [|[a v] ns]; [done|]. by exists e, a, v, ns.
Qed.

(** C3 (as the code has it).  In a memory where every [List] object
    satisfies the ring invariant and no two objects share a sentinel,
    every public operation called within its precondition leaves such a
    memory behind, whether it returns or throws; it never runs into
    undefined behaviour, and only a push whose move constructor throws
    ends the program.  The preconditions: a pop, [Front] or [Back] needs
    an element; [Erase] needs an iterator at [End()] or at a node of the
    list; a move needs the allocation of the replacement sentinel to
    succeed, which in a move assignment is an allocation made after the
    old nodes of the destination have been released. *)
Theorem ring_invariant_preserved c m :
  mem_inv m → call_pre m c →
  match run_call c m with
  | Ok _ m' | Throw _ m' => mem_inv m'
  | Terminate =>
      ∃ s this x, c = CPush s ByMove this x ∧ move_throws x = true
  | Undefined | OutOfFuel => False
  end.
Proof.
  intros Hinv Hpre. pose proof Hinv as (Hwf & _ & _).
  destruct c as [this|fuel this other|this other|this|fuel this other
                |this other|this|this|this|this|this|this|s p this x
                |this|this|this place];
    cbn [run_call call_pre] in *.
  - (* List() *)
    destruct (operator_new_cases m) as [(a & rest & Hal)|[rest Hfail]].
    + destruct (List_default_ok m this a rest Hwf Hal)
        as (m' & -> & Hl & Hwf' & _ & Hlf & Hrk & _).
      apply (mem_inv_new_object m m' this a []); try done. apply Hal.
    + rewrite (List_default_fail m this _ Hfail).
      apply (mem_inv_same m); [done|done|].
      intros o L Ho. cbn [set_lists lists] in Ho.
      by apply lookup_delete_Some in Ho as [_ Ho].
  - (* List(const List&) *)
    destruct Hpre as (Hnone & L & Ho & Hfuel).
    destruct (mem_inv_live m other L Hinv Ho) as (eo & nso & Hlo & ->).
    cbn [size_] in Hfuel. apply Nat2Z.inj_le in Hfuel.
    assert (Hne : this ≠ other) by congruence.
    pose proof (List_copy_total m this other eo nso fuel Hwf Hlo Hne Hfuel)
      as Hcopy.
    destruct (List_copy fuel this other m) as [[] m'|ex m'| | |]; try done.
    + destruct Hcopy as (e & ns & He & Hl' & _ & Hwf' & Hlf & Hrk).
      by apply (mem_inv_new_object m m' this e ns).
    + destruct Hcopy as (_ & Hwf' & Hl' & Hrk).
      apply (mem_inv_removed m m' this); try done.
      intros o eo' nso' _ [_ Hr]. by apply Hrk.
  - (* List(List&&) *)
    destruct Hpre as (Hnone & [L Ho] & a & rest & Hal).
    destruct (mem_inv_live m other L Hinv Ho) as (e & ns & Hlo & ->).
    assert (Hne : this ≠ other) by congruence.
    destruct (List_move_ok m this other e ns a rest Hwf Hlo Hne Hal)
      as (m' & -> & Hthis & Hother & Hwf' & _ & Hlf & Hrk & _).
    apply (mem_inv_moved m m' this other e ns a Hinv Hlo Hne);
      [|done|done|done|done|].
    + intros o eo nso _ [_ (_ & Heo & _)] ->.
      destruct Hal as (_ & Ha & _). congruence.
    + intros o eo nso _ _ [_ Hr]. by apply Hrk.
  - (* ~List() *)
    destruct Hpre as [L Ho].
    destruct (mem_inv_live m this L Hinv Ho) as (e & ns & Hl & ->).
    destruct (List_destroy_ok m this e ns Hwf Hl)
      as (m' & -> & Hl' & Hwf' & _ & _ & Hrk).
    apply (mem_inv_removed m m' this); try done.
    intros o eo nso Hne Hlo. apply Hrk; [|apply Hlo].
    by apply (mem_inv_sentinels m o eo nso this e ns).
  - (* operator=(const List&) *)
    destruct Hpre as ([L1 H1] & L & Ho & Hfuel).
    destruct (mem_inv_live m this L1 Hinv H1) as (e & ns & Hl & ->).
    destruct (mem_inv_live m other L Hinv Ho) as (eo & nso & Hlo & ->).
    cbn [size_] in Hfuel. apply Nat2Z.inj_le in Hfuel.
    pose proof (List_copy_assign_total m this e ns other eo nso fuel
                  Hwf Hl Hlo
                  (λ Hne, mem_inv_sentinels m this e ns other eo nso
                            Hinv Hl Hlo Hne) Hfuel) as Hassign.
    destruct (List_copy_assign fuel this other m) as [[] m'|ex m'| | |];
      try done.
    + destruct Hassign as (ns' & _ & Hev).
      by apply (mem_inv_evolved m m' this e ns ns').
    + destruct Hassign as (_ & ns' & Hev).
      by apply (mem_inv_evolved m m' this e ns ns').
  - (* operator=(List&&) *)
    destruct Hpre as ([L1 H1] & [L Ho] & Hal).
    destruct (decide (this = other)) as [<-|Hne].
    { by rewrite List_move_assign_self. }
    destruct (Hal Hne) as (e1 & ns1 & a & rest & Hl & Hal').
    destruct (mem_inv_live m other L Hinv Ho) as (e & ns & Hlo & ->).
    pose proof (mem_inv_sentinels m this e1 ns1 other e ns Hinv Hl Hlo Hne)
      as Hene.
    destruct (List_move_assign_exact m this other e1 ns1 e ns
                Hwf Hl Hlo Hne Hene)
      as (m' & -> & Hthis & Hwf' & Hlf & _ & Hsucc & _).
    destruct (Hsucc a rest Hal') as (Hother & _ & _ & _ & Hout).
    assert (Hfar : ∀ o eo nso, o ≠ this → is_list m o eo nso →
              ∀ b, b ∈ eo :: nso.*1 → (b ∉ e1 :: ns1.*1) ∧ b ≠ a).
    { intros o eo nso Hn1 Hlo' b Hb.
      assert (Hb1 : b ∉ e1 :: ns1.*1).
      { apply (rings_disjoint (nodes m) eo nso e1 ns1);
          [apply Hlo'|apply Hl| |done].
        by apply (mem_inv_sentinels m o eo nso this e1 ns1). }
      split; [done|]. intros ->.
      destruct Hal' as (_ & [Ha|Ha] & _); [|done].
      destruct (ring_live _ _ _ _ (proj2 Hlo') Hb) as [x Hx]. congruence. }
    apply (mem_inv_moved m m' this other e ns a Hinv Hlo Hne);
      [|done|done|done|done|].
    + intros o eo nso Hn1 Hlo'.
      apply (Hfar o eo nso Hn1 Hlo' eo), list_elem_of_here.
    + intros o eo nso Hn1 _ Hlo'.
      apply (ring_frame (nodes m)); [|apply Hlo']. intros b Hb.
      destruct (Hfar o eo nso Hn1 Hlo' b Hb) as [Hb1 Hba]. by apply Hout.
  - (* IsEmpty *)
    destruct Hpre as [L Ho]. by rewrite (bind_Ok _ _ _ _ _ (IsEmpty_ok m this L Ho)).
  - (* Size *)
    destruct Hpre as [L Ho]. by rewrite (bind_Ok _ _ _ _ _ (Size_ok m this L Ho)).
  - (* Front *)
    destruct (nonempty_list m this Hinv Hpre) as (e & a & v & ns & Hl).
    by rewrite (bind_Ok _ _ _ _ _ (Front_ok m this e a v ns Hl)).
  - (* Back *)
    destruct (nonempty_list m this Hinv Hpre) as (e & a & v & ns & Hl).
    destruct (snoc_case ((a, v) :: ns)) as [?|(l & b & w & Heq)]; [done|].
    rewrite Heq in Hl.
    by rewrite (bind_Ok _ _ _ _ _ (Back_ok m this e l b w Hl)).
  - (* Begin *)
    destruct Hpre as [L Ho].
    destruct (mem_inv_live m this L Hinv Ho) as (e & ns & Hl & ->).
    by rewrite (bind_Ok _ _ _ _ _ (Begin_ok m this e ns Hl)).
  - (* End *)
    destruct Hpre as [L Ho]. by rewrite (bind_Ok _ _ _ _ _ (End_ok m this L Ho)).
  - (* PushBack, PushFront *)
    destruct Hpre as [L Ho].
    destruct (mem_inv_live m this L Hinv Ho) as (e & ns & Hl & ->).
    assert (Happ : ∃ vs', apply_op (OpPush s p x) ns.*2 = Some vs')
      by (destruct s; eauto).
    destruct Happ as [vs' Happ].
    pose proof (run_op_total this e (OpPush s p x) ns m vs' Hwf Hl Happ)
      as Hstep.
    cbn [run_op] in Hstep.
    destruct (push s p this x m) as [[] m'|ex m'| | |]; try done.
    + destruct Hstep as (_ & ns' & _ & Hev & _).
      by apply (mem_inv_evolved m m' this e ns ns').
    + destruct Hstep as (_ & Hn & Hls & _).
      apply (mem_inv_same m); [done|done|]. intros o L. by rewrite Hls.
    + destruct Hstep as (s' & x' & Heq & Hx). injection Heq as -> -> ->.
      by exists s', this, x'.
  - (* PopBack *)
    destruct (nonempty_list m this Hinv Hpre) as (e & a & v & ns & Hl).
    destruct (snoc_case ((a, v) :: ns)) as [?|(l & b & w & Heq)]; [done|].
    rewrite Heq in Hl.
    destruct (PopBack_ok m this e l b w Hwf Hl) as (m' & -> & Hup & _).
    destruct (updated_pop_evolved _ _ _ _ _ _ Hl Hup) as [Hev _].
    by apply (mem_inv_evolved m m' this e (l ++ [(b, w)]) l).
  - (* PopFront *)
    destruct (nonempty_list m this Hinv Hpre) as (e & a & v & ns & Hl).
    destruct (PopFront_ok m this e a v ns Hwf Hl) as (m' & -> & Hup & _).
    destruct (updated_pop_evolved this e ((a, v) :: ns) _ _ _ Hl Hup)
      as [Hev _].
    by apply (mem_inv_evolved m m' this e ((a, v) :: ns) ns).
  - (* Erase *)
    destruct Hpre as (e & ns & a & Hl & Hit & Ha).
    destruct place as [p]. cbn [iter_] in Hit. subst p.
    apply elem_of_cons in Ha as [->|Ha].
    + unfold Erase. cbn [iter_].
      erewrite bind_Ok; [|destruct Hl as [Hl _]; exec_top; reflexivity].
      by rewrite decide_False by (intros Hx; by apply Hx).
    + apply elem_of_addrs_split in Ha as (l1 & v & l2 & ->).
      destruct (Erase_node m this e l1 a v l2 Hwf Hl) as (m' & -> & Hup & _).
      destruct (updated_pop_evolved _ _ _ _ _ _ Hl Hup) as [Hev _].
      by apply (mem_inv_evolved m m' this e (l1 ++ (a, v) :: l2) (l1 ++ l2)).
Qed.

End Preservation.

(** The memory of the list [5] satisfies the invariant. *)
Lemma ex_one_inv : mem_inv ex_one.
Proof.
  apply mem_inv_intro.
  - concrete.
  - intros o L Ho. exists 10%positive, [(11%positive, 5%Z)].
    unfold ex_one in Ho. cbn [lists] in Ho.
    apply lookup_singleton_Some in Ho as [<- <-]. concrete.
  - intros o1 o2 L1 L2 H1 H2 _. unfold ex_one in H1, H2.
    cbn [lists] in H1, H2.
    apply lookup_singleton_Some in H1 as [<- _].
    by apply lookup_singleton_Some in H2 as [<- _].
Qed.

(** The memory of the empty list and the list [7] satisfies the
    invariant, whatever the allocator holds. *)
Lemma ex_two_inv al : mem_inv (ex_two al).
Proof.
  apply mem_inv_intro.
  - concrete.
  - intros o L Ho. unfold ex_two in Ho. cbn [lists] in Ho.
    apply lookup_insert_Some in Ho as [[<- <-]|[_ Ho]].
    + exists 20%positive, [(21%positive, 7%Z)]. concrete.
    + apply lookup_singleton_Some in Ho as [<- <-].
      exists 10%positive, []. concrete.
  - intros o1 o2 L1 L2 H1 H2 Heq. unfold ex_two in H1, H2.
    cbn [lists] in H1, H2.
    apply lookup_insert_Some in H1 as [[<- <-]|[_ H1]];
      apply lookup_insert_Some in H2 as [[<- <-]|[_ H2]]; [done| | |].
    + apply lookup_singleton_Some in H2 as [<- <-]. discriminate.
    + apply lookup_singleton_Some in H1 as [<- <-]. discriminate.
    + apply lookup_singleton_Some in H1 as [<- _].
      by apply lookup_singleton_Some in H2 as [<- _].
Qed.

(** Two calls within their preconditions: a pop, and a move assignment
    whose replacement sentinel is the block 10 that the assignment itself
    has just released. *)
Lemma ring_invariant_preserved_witness :
  ((mem_inv ex_one ∧ call_pre ex_one (CPopFront 1%positive))
   ∧ ∃ m', run_call (CPopFront 1%positive) ex_one = Ok tt m' ∧ mem_inv m')
  ∧ ((mem_inv (ex_two [Some 10%positive])
      ∧ call_pre (ex_two [Some 10%positive])
          (CMoveAssign 1%positive 2%positive))
     ∧ ∃ m', run_call (CMoveAssign 1%positive 2%positive)
               (ex_two [Some 10%positive]) = Ok tt m'
             ∧ mem_inv m').
Proof.
  split.
  - assert (Hpre : call_pre ex_one (CPopFront 1%positive)).
    { exists (mkList (Some 10%positive) 1). split; [reflexivity|done]. }
    split; [split; [exact ex_one_inv|exact Hpre]|].
    pose proof (ring_invariant_preserved (CPopFront 1%positive) ex_one
                  ex_one_inv Hpre) as Hthm.
    destruct (run_call (CPopFront 1%positive) ex_one)
      as [[] m'|ex m'| | |] eqn:Hrun; try (by vm_compute in Hrun); try done.
    by exists m'.
  - assert (Hpre : call_pre (ex_two [Some 10%positive])
                     (CMoveAssign 1%positive 2%positive)).
    { split; [by eexists|]. split; [by eexists|]. intros _.
      exists 10%positive, [], 10%positive, [].
      split; [concrete|]. split; [reflexivity|].
      split; [right; apply list_elem_of_here|by vm_compute]. }
    split; [split; [exact (ex_two_inv _)|exact Hpre]|].
    pose proof (ring_invariant_preserved (CMoveAssign 1%positive 2%positive)
                  (ex_two [Some 10%positive]) (ex_two_inv _) Hpre) as Hthm.
    destruct (run_call (CMoveAssign 1%positive 2%positive)
                (ex_two [Some 10%positive]))
      as [[] m'|ex m'| | |] eqn:Hrun; try (by vm_compute in Hrun); try done.
    by exists m'.
Defined.

(** C3, refuted as stated: the move constructor, when the allocation of
    the replacement sentinel fails, returns with a source that has no
    sentinel at all, hence no ring. *)
Lemma failed_move_breaks_ring_invariant :
  mem_inv ex_one
  ∧ ∃ m',
      run_call (CMove 2%positive 1%positive)
        (mkMem (nodes ex_one) (lists ex_one) [None]) = Ok tt m'
      ∧ lists m' !! 1%positive = Some (mkList nullptr 0)
      ∧ ¬ ring_invariant m' 1%positive
      ∧ ¬ mem_inv m'.
Proof.
  split; [exact ex_one_inv|]. eexists. split; [by vm_compute|].
  assert (Hl : lists
                 (mkMem (nodes ex_one)
                    (<[1%positive := mkList nullptr 0]>
                       (<[2%positive := mkList (Some 10%positive) 1]>
                          (lists ex_one))) [])
               !! 1%positive = Some (mkList nullptr 0))
    by (by vm_compute).
  assert (Hno : ¬ ring_invariant
                    (mkMem (nodes ex_one)
                       (<[1%positive := mkList nullptr 0]>
                          (<[2%positive := mkList (Some 10%positive) 1]>
                             (lists ex_one))) []) 1%positive).
  { intros (e & ns & [Hl' _] & _). rewrite Hl in Hl'. discriminate. }
  split; [exact Hl|]. split; [exact Hno|].
  intros (_ & Hall & _). apply Hno. exact (Hall _ _ Hl).
Qed.

(** * Iterators at the boundaries, and Erase *)

Section Boundaries.
Context {T : Type} `{Element T}.
Implicit Types (ns : list (positive * T)) (m : mem (T:=T)).

(** C9.  For every list, [Erase(End())] returns normally and leaves the
    whole memory as it was: the size, the element sequence and every link
    are unchanged, and no error is raised. *)
Theorem erase_end_is_noop m this L :
  lists m !! this = Some L →
  (it <- End this;; Erase this it) m = Ok tt m.
Proof. apply Erase_end_noop. Qed.

(** C10.  For every list with a ring, [Erase] with a default-constructed
    iterator leaves every node and link as it was, yet decrements the
    counter: afterwards [Size()] differs from the number of typed nodes of
    the ring, and on an empty list it wraps around to [2^64 - 1]. *)
Theorem erase_null_iterator_breaks_count m this e ns :
  is_list m this e ns →
  ∃ m', Erase this Iterator_default m = Ok tt m'
      ∧ nodes m' = nodes m ∧ ring (nodes m') e ns
      ∧ Size this m'
        = Ok ((Z.of_nat (length ns) - 1) mod SIZE_MODULUS)%Z m'
      ∧ ((Z.of_nat (length ns) - 1) mod SIZE_MODULUS)%Z
        ≠ Z.of_nat (length ns)
      ∧ (ns = [] → Size this m' = Ok (SIZE_MODULUS - 1)%Z m').
Proof.
  intros [Hl Hr]. eexists. split; [by apply Erase_null|].
  split; [done|]. split; [done|].
  assert (HS : Size this
                 (set_lists
                    (insert this
                       (mkList (Some e)
                          ((Z.of_nat (length ns) - 1) mod SIZE_MODULUS)%Z))
                    m)
               = Ok ((Z.of_nat (length ns) - 1) mod SIZE_MODULUS)%Z
                   (set_lists
                      (insert this
                         (mkList (Some e)
                            ((Z.of_nat (length ns) - 1) mod SIZE_MODULUS)%Z))
                      m)).
  { red_iter. by exec_top. }
  split; [exact HS|]. split.
  - assert (Hpos : (0 < SIZE_MODULUS)%Z) by reflexivity.
    pose proof (Z.mod_pos_bound (Z.of_nat (length ns) - 1) SIZE_MODULUS
                  Hpos) as Hb.
    destruct (decide (Z.of_nat (length ns) < SIZE_MODULUS)%Z) as [Hlt|Hge];
      [|lia].
    destruct (length ns) as [|n] eqn:Hn.
    + change ((Z.of_nat 0 - 1) mod SIZE_MODULUS)%Z
        with (SIZE_MODULUS - 1)%Z. by vm_compute.
    + rewrite Z.mod_small by lia. lia.
  - intros ->. exact HS.
Qed.

(** C5 (as the code has it).  Incrementing, by either operator, a null
    iterator raises [out_of_range] at once; incrementing the [End()]
    iterator of a list with a sentinel raises nothing: the ring wraps and
    the iterator moves to [Begin()]. *)
Theorem increment_at_end_wraps m this e ns :
  is_list m this e ns →
  (∀ m0 : mem (T:=T),
     Iterator_preinc Iterator_default m0 = Throw out_of_range m0
     ∧ Iterator_postinc Iterator_default m0 = Throw out_of_range m0)
  ∧ (it <- End this;; Iterator_preinc it) m
    = Ok (mkIter (Some (hd_addr ns e))) m
  ∧ (it <- End this;; Iterator_postinc it) m
    = Ok (mkIter (Some e), mkIter (Some (hd_addr ns e))) m
  ∧ Begin this m = Ok (mkIter (Some (hd_addr ns e))) m.
Proof.
  intros Hlist. split; [done|].
  pose proof (Begin_ok m this e ns Hlist) as HB.
  destruct Hlist as [Hl (_ & He & _)].
  split; [|split; [|done]]; red_iter; by exec_top.
Qed.

(** C6 (as the code has it).  Dereferencing a default-constructed
    iterator, by [*] or by [->], raises [runtime_error], a signal other
    than [out_of_range]; dereferencing the [End()] iterator of a list with
    a sentinel raises nothing: the sentinel is read as if it were a typed
    node, which is undefined behaviour. *)
Theorem dereference_checks_null_only m this e ns :
  is_list m this e ns →
  (∀ m0 : mem (T:=T),
     Iterator_deref Iterator_default m0 = Throw runtime_error m0
     ∧ Iterator_arrow Iterator_default m0 = Throw runtime_error m0)
  ∧ runtime_error ≠ out_of_range
  ∧ (it <- End this;; Iterator_deref it) m = Undefined
  ∧ (it <- End this;; Iterator_arrow it) m = Undefined.
Proof.
  intros [Hl (_ & He & _)]. split; [done|]. split; [done|].
  split; red_iter; by exec_top.
Qed.

End Boundaries.

Lemma erase_end_is_noop_witness :
  lists ex_empty !! 1%positive = Some (mkList (Some 10%positive) 0)
  ∧ (it <- End 1%positive;; Erase 1%positive it) ex_empty = Ok tt ex_empty.
Proof.
  split; [reflexivity|].
  apply (erase_end_is_noop ex_empty 1%positive (mkList (Some 10%positive) 0)).
  reflexivity.
Defined.

Lemma erase_null_iterator_breaks_count_witness :
  is_list ex_empty 1%positive 10%positive []
  ∧ ∃ m', Erase 1%positive Iterator_default ex_empty = Ok tt m'
        ∧ Size 1%positive m' = Ok 18446744073709551615%Z m'.
Proof.
  assert (Hl : is_list ex_empty 1%positive 10%positive []) by concrete.
  split; [exact Hl|].
  destruct (erase_null_iterator_breaks_count ex_empty 1%positive
              10%positive [] Hl) as (m' & Hrun & _ & _ & _ & _ & Hsz).
  exists m'. split; [exact Hrun|]. exact (Hsz eq_refl).
Defined.

Lemma increment_at_end_wraps_witness :
  is_list ex_empty 1%positive 10%positive []
  ∧ (it <- End 1%positive;; Iterator_preinc it) ex_empty
    = Ok (mkIter (Some 10%positive)) ex_empty.
Proof.
  assert (Hl : is_list ex_empty 1%positive 10%positive []) by concrete.
  split; [exact Hl|].
  exact (proj1 (proj2 (increment_at_end_wraps ex_empty 1%positive
                         10%positive [] Hl))).
Defined.

Lemma dereference_checks_null_only_witness :
  is_list ex_empty 1%positive 10%positive []
  ∧ (it <- End 1%positive;; Iterator_deref it) ex_empty = Undefined.
Proof.
  assert (Hl : is_list ex_empty 1%positive 10%positive []) by concrete.
  split; [exact Hl|].
  exact (proj1 (proj2 (proj2 (dereference_checks_null_only ex_empty
                                1%positive 10%positive [] Hl)))).
Defined.

(** C5, refuted as stated: on an empty list the increment of the [End()]
    iterator returns normally. *)
Lemma increment_at_end_does_not_raise :
  is_list ex_empty 1%positive 10%positive []
  ∧ (it <- End 1%positive;; Iterator_preinc it) ex_empty
    ≠ Throw out_of_range ex_empty
  ∧ (it <- End 1%positive;; it' <- Iterator_postinc it;; ret tt) ex_empty
    = Ok tt ex_empty.
Proof. split; [concrete|]. split; [by vm_compute|by vm_compute]. Qed.

(** C6, refuted as stated: dereferencing [End()] raises no
    [runtime_error]. *)
Lemma dereference_of_end_does_not_raise :
  is_list ex_empty 1%positive 10%positive []
  ∧ (it <- End 1%positive;; Iterator_deref it) ex_empty
    ≠ Throw runtime_error ex_empty
  ∧ (it <- End 1%positive;; Iterator_deref it) ex_empty = Undefined.
Proof. split; [concrete|]. split; [by vm_compute|by vm_compute]. Qed.

(** * Failing pushes, and moves *)

Section PushFailure.
Context {T : Type} `{Element T}.
Implicit Types (ns : list (positive * T)) (m : mem (T:=T)).

(** C2 (as the code has it).  When the allocation of the node fails, or
    the copy constructor of the element throws in an overload that takes
    [const T&], the push propagates the exception and leaves the heap and
    every [List] object exactly as they were: nothing is linked, no node
    stays allocated, [Size()] keeps its value.  A throwing move
    constructor in an overload that takes [T&&] does not propagate: it
    escapes the [noexcept] constructor of [TNode] and ends the program. *)
Theorem push_failure_leaves_list_unchanged s p this x m :
  (¬ (∃ a rest, alloc_succeeds m a rest)) ∨ ctor_throws p x = true →
  match push s p this x m with
  | Throw ex m' =>
      nodes m' = nodes m ∧ lists m' = lists m
      ∧ Size this m' = match Size this m with
                       | Ok n _ => Ok n m'
                       | r => r
                       end
      ∧ ((ex = bad_alloc ∧ ¬ (∃ a rest, alloc_succeeds m a rest))
         ∨ (ex = element_exn ∧ p = ByCopy ∧ copy_throws x = true))
  | Terminate =>
      p = ByMove ∧ move_throws x = true ∧ ∃ a rest, alloc_succeeds m a rest
  | Ok _ _ | Undefined | OutOfFuel => False
  end.
Proof.
  intros Hfail.
  assert (Hsize : ∀ m1 : mem (T:=T),
            nodes m1 = nodes m → lists m1 = lists m →
            Size this m1 = match Size this m with
                           | Ok n _ => Ok n m1
                           | r => r
                           end).
  { intros m1 _ Hl. unfold Size, get_size, read_list, bind, ret.
    rewrite Hl. by destruct (lists m !! this). }
  destruct (operator_new_cases m) as [(a & rest & Hal)|[rest Hnew]].
  - destruct Hfail as [Hno|Hx]; [exfalso; apply Hno; eauto|].
    destruct p; cbn [ctor_throws] in Hx.
    + rewrite (push_copy_throws s m this x a rest Hal Hx).
      split; [done|]. split; [done|]. split; [by apply Hsize|]. by right.
    + rewrite (push_move_throws s m this x a rest Hal Hx). eauto.
  - rewrite (push_bad_alloc s p m this x _ Hnew).
    split; [done|]. split; [done|]. split; [by apply Hsize|]. left.
    split; [done|]. intros (a & rest' & Hal).
    apply operator_new_Ok in Hal. congruence.
Qed.

End PushFailure.

Lemma push_failure_leaves_list_unchanged_witness :
  ctor_throws ByCopy (-1)%Z = true
  ∧ match push AtBack ByCopy 1%positive (-1)%Z ex_one with
    | Throw ex m' =>
        nodes m' = nodes ex_one ∧ lists m' = lists ex_one
        ∧ Size 1%positive m' = match Size 1%positive ex_one with
                               | Ok n _ => Ok n m'
                               | r => r
                               end
        ∧ ((ex = bad_alloc ∧ ¬ (∃ a rest, alloc_succeeds ex_one a rest))
           ∨ (ex = element_exn ∧ ByCopy = ByCopy
              ∧ copy_throws (-1)%Z = true))
    | Terminate =>
        ByCopy = ByMove ∧ move_throws (-1)%Z = true
        ∧ ∃ a rest, alloc_succeeds ex_one a rest
    | Ok _ _ | Undefined | OutOfFuel => False
    end.
Proof.
  split; [reflexivity|].
  apply (push_failure_leaves_list_unchanged AtBack ByCopy 1%positive
           (-1)%Z ex_one).
  right. reflexivity.
Defined.

(** C2, refuted as stated: with an element whose move constructor throws,
    [PushBack(T&&)] does not propagate any exception. *)
Lemma push_move_throw_terminates :
  move_throws (-1)%Z = true
  ∧ is_list ex_one 1%positive 10%positive [(11%positive, 5%Z)]
  ∧ PushBack_move 1%positive (-1)%Z ex_one = Terminate
  ∧ ¬ (∃ ex m', PushBack_move 1%positive (-1)%Z ex_one = Throw ex m').
Proof.
  split; [reflexivity|]. split; [concrete|].
  assert (Hrun : PushBack_move 1%positive (-1)%Z ex_one = Terminate)
    by (by vm_compute).
  split; [exact Hrun|]. intros (ex & m' & Hthrow). congruence.
Qed.

(** * Moves *)

Section Moves.
Context {T : Type} `{Element T}.
Implicit Types (h : gmap positive (ListNode (T:=T))).
Implicit Types (l : list (positive * T)).
Implicit Types (ns : list (positive * T)) (m : mem (T:=T)).

Lemma ring_lookup_eq h h' e ns b :
  ring h e ns → ring h' e ns → b ∈ e :: ns.*1 → h' !! b = h !! b.
Proof.
  intros (_ & He & Hc) (_ & He' & Hc') [->|Hb]%elem_of_cons; [congruence|].
  apply elem_of_addrs_split in Hb as (l1 & v & l2 & ->).
  apply chain_lookup in Hc, Hc'. congruence.
Qed.

Lemma moved_intro this other e ns a m m' :
  is_list m other e ns → nodes m !! a = None →
  is_list m' this e ns → is_list m' other a [] →
  moved this other e ns m m'.
Proof.
  intros [_ Hr] Ha Hthis Hother. split; [done|]. split; [|split].
  - intros b Hb.
    apply (ring_lookup_eq (nodes m) (nodes m') e ns);
      [done|apply Hthis|done].
  - intros fuel Hfuel. by apply (traverse_ok m' this e ns).
  - split; [|split; [|split]].
    + by rewrite (IsEmpty_ok m' other _ (proj1 Hother)).
    + by rewrite (Size_ok m' other _ (proj1 Hother)).
    + intros fuel. apply (traverse_ok m' other a []); [done|simpl; lia].
    + by exists a.
Qed.

Lemma move_assigned_intro this other e ns a m m' :
  is_list m other e ns → a ∉ e :: ns.*1 →
  is_list m' this e ns → is_list m' other a [] →
  move_assigned this other e ns a m m'.
Proof.
  intros [_ Hr] Ha Hthis Hother. split; [done|]. split; [|split].
  - intros b Hb.
    apply (ring_lookup_eq (nodes m) (nodes m') e ns);
      [done|apply Hthis|done].
  - intros fuel Hfuel. by apply (traverse_ok m' this e ns).
  - split; [|split; [|split]].
    + by rewrite (IsEmpty_ok m' other _ (proj1 Hother)).
    + by rewrite (Size_ok m' other _ (proj1 Hother)).
    + intros fuel. apply (traverse_ok m' other a []); [done|simpl; lia].
    + done.
Qed.

(** C7.  With the allocation of the replacement sentinel succeeding, move
    construction and move assignment (to a distinct list with a ring of
    its own) return with the source empty ([IsEmpty()], [Size() == 0]) and
    the destination holding the source's elements in their order, on the
    source's own nodes.  The move constructor allocates on the heap as it
    finds it; move assignment allocates after it has released the old
    nodes of the destination, so that the allocation also succeeds with
    one of their addresses. *)
Theorem move_leaves_source_empty m this other e ns a rest :
  heap_wf (nodes m) → is_list m other e ns → this ≠ other →
  (alloc_succeeds m a rest →
     ∃ m', List_move this other m = Ok tt m' ∧ moved this other e ns m m')
  ∧ (∀ e1 ns1, is_list m this e1 ns1 → e1 ≠ e →
       alloc_succeeds_after m (e1 :: ns1.*1) a rest →
       ∃ m', List_move_assign this other m = Ok tt m'
             ∧ move_assigned this other e ns a m m').
Proof.
  intros Hwf Hother Hne. split.
  - intros Hal. pose proof Hal as (_ & Ha & _).
    destruct (List_move_ok m this other e ns a rest Hwf Hother Hne Hal)
      as (m' & Hrun & Hthis & Hother' & _).
    exists m'. split; [done|]. by apply (moved_intro this other e ns a).
  - intros e1 ns1 Hthis Hene Hal.
    destruct (List_move_assign_exact m this other e1 ns1 e ns
                Hwf Hthis Hother Hne Hene)
      as (m' & Hrun & Hthis' & _ & _ & _ & Hsucc & _).
    destruct (Hsucc a rest Hal) as (Hother' & _ & Hfar & _).
    exists m'. split; [done|].
    by apply (move_assigned_intro this other e ns a).
Qed.

End Moves.

(** A move construction with the unused block 30, and a move assignment
    whose allocation returns the block 10 that the assignment has just
    released. *)
Lemma move_leaves_source_empty_witness :
  ((heap_wf (nodes (ex_two [Some 30%positive]))
    ∧ is_list (ex_two [Some 30%positive]) 2%positive 20%positive
        [(21%positive, 7%Z)]
    ∧ 3%positive ≠ 2%positive
    ∧ alloc_succeeds (ex_two [Some 30%positive]) 30%positive [])
   ∧ ∃ m', List_move 3%positive 2%positive (ex_two [Some 30%positive])
           = Ok tt m'
           ∧ moved 3%positive 2%positive 20%positive [(21%positive, 7%Z)]
               (ex_two [Some 30%positive]) m')
  ∧ ((heap_wf (nodes (ex_two [Some 10%positive]))
      ∧ is_list (ex_two [Some 10%positive]) 2%positive 20%positive
          [(21%positive, 7%Z)]
      ∧ 1%positive ≠ 2%positive
      ∧ is_list (ex_two [Some 10%positive]) 1%positive 10%positive []
      ∧ 10%positive ≠ 20%positive
      ∧ alloc_succeeds_after (ex_two [Some 10%positive]) [10%positive]
          10%positive [])
     ∧ ∃ m', List_move_assign 1%positive 2%positive
               (ex_two [Some 10%positive]) = Ok tt m'
             ∧ move_assigned 1%positive 2%positive 20%positive
                 [(21%positive, 7%Z)] 10%positive
                 (ex_two [Some 10%positive]) m').
Proof.
  split.
  - assert (Hwf : heap_wf (nodes (ex_two [Some 30%positive]))) by concrete.
    assert (Hl : is_list (ex_two [Some 30%positive]) 2%positive 20%positive
                   [(21%positive, 7%Z)]) by concrete.
    assert (Hne : 3%positive ≠ 2%positive) by done.
    assert (Hal : alloc_succeeds (ex_two [Some 30%positive]) 30%positive [])
      by concrete.
    split; [done|].
    exact (proj1 (move_leaves_source_empty (ex_two [Some 30%positive])
                    3%positive 2%positive 20%positive [(21%positive, 7%Z)]
                    30%positive [] Hwf Hl Hne) Hal).
  - assert (Hwf : heap_wf (nodes (ex_two [Some 10%positive]))) by concrete.
    assert (Hl : is_list (ex_two [Some 10%positive]) 2%positive 20%positive
                   [(21%positive, 7%Z)]) by concrete.
    assert (Hne : 1%positive ≠ 2%positive) by done.
    assert (Hl1 : is_list (ex_two [Some 10%positive]) 1%positive 10%positive
                    []) by concrete.
    assert (Hene : 10%positive ≠ 20%positive) by done.
    assert (Hal : alloc_succeeds_after (ex_two [Some 10%positive])
                    [10%positive] 10%positive []).
    { split; [reflexivity|].
      split; [right; apply list_elem_of_here|by vm_compute]. }
    split; [done|].
    exact (proj2 (move_leaves_source_empty (ex_two [Some 10%positive])
                    1%positive 2%positive 20%positive [(21%positive, 7%Z)]
                    10%positive [] Hwf Hl Hne)
             10%positive [] Hl1 Hene Hal).
Defined.

(** C4, on the code: move assignment from the list [7] with the
    allocation of the replacement sentinel failing.  The destination gets
    the element, but the source keeps [size_ == 1] next to a null [end_],
    and its destructor then dereferences the null pointer.  The move
    constructor, in the same situation, resets the size and leaves a
    destructible source. *)
Theorem move_assign_failure_keeps_stale_size :
  ∃ m',
    List_move_assign 1%positive 2%positive (ex_two [None]) = Ok tt m'
    ∧ traverse 1 1%positive m' = Ok [7%Z] m'
    ∧ lists m' !! 2%positive = Some (mkList nullptr 1)
    ∧ List_destroy 2%positive m' = Undefined
    ∧ ∃ m'',
        List_move 3%positive 2%positive (ex_two [None]) = Ok tt m''
        ∧ lists m'' !! 2%positive = Some (mkList nullptr 0)
        ∧ List_destroy 2%positive m''
          = Ok tt (set_lists (delete 2%positive) m'').
Proof.
  eexists. split; [by vm_compute|].
  split; [by vm_compute|]. split; [by vm_compute|]. split; [by vm_compute|].
  eexists. split; [by vm_compute|]. split; by vm_compute.
Qed.

(** * Sequences of pushes and pops; copies *)

Section SequencesAndCopies.
Context {T : Type} `{Element T}.
Implicit Types (l : list (positive * T)).
Implicit Types (ns : list (positive * T)) (m : mem (T:=T)).
Implicit Types (ops : list (op (T:=T))) (vs : list T).

Lemma original_intact_intro A eA nsA m :
  is_list m A eA nsA → original_intact A eA nsA m.
Proof.
  intros Hl. split; [done|]. split.
  - by rewrite (Size_ok m A _ (proj1 Hl)).
  - intros fuel Hfuel. by apply (traverse_ok m A eA nsA).
Qed.

(** C1.  Starting from an empty list, for every sequence of pushes and
    pops in which no pop meets an empty list: when the sequence has been
    performed, [Size()] is the number of pushes minus the number of pops,
    and the traversal from [Begin()] to [End()] yields exactly that many
    elements, in the order the operations imply.  The sequence can only
    be cut short by an exception of a push (or by a throwing move
    constructor ending the program), never by undefined behaviour; and
    with an allocator that hands out fresh addresses and constructors
    that do not throw it is performed to the end. *)
Theorem push_pop_sequence_size_and_order this e m ops vs :
  heap_wf (nodes m) → is_list m this e [] →
  Forall (λ o, is_push o || is_pop o = true) ops →
  apply_ops ops [] = Some vs →
  match run_ops this ops m with
  | Ok _ m' =>
      Size this m'
      = Ok (Z.of_nat (count_ops is_push ops)
            - Z.of_nat (count_ops is_pop ops))%Z m'
      ∧ (Z.of_nat (length vs)
         = Z.of_nat (count_ops is_push ops)
           - Z.of_nat (count_ops is_pop ops))%Z
      ∧ ∀ fuel, length vs ≤ fuel → traverse fuel this m' = Ok vs m'
  | Throw ex m' => ex = bad_alloc ∨ ex = element_exn
  | Terminate => ∃ s x, OpPush s ByMove x ∈ ops ∧ move_throws x = true
  | Undefined | OutOfFuel => False
  end
  ∧ (good_script (nodes m) (count_ops is_push ops) (allocator m) [] →
     Forall no_throw ops →
     ∃ m', run_ops this ops m = Ok tt m').
Proof.
  intros Hwf Hlist Hall Happ. split.
  - pose proof (run_ops_total this e ops [] m vs Hwf Hlist Happ) as Htot.
    pose proof (apply_ops_length ops [] vs Happ Hall) as Hlen.
    cbn [length] in Hlen.
    destruct (run_ops this ops m) as [[] m'|ex m'| | |]; try done.
    + destruct Htot as (ns' & Hvs & Hlist' & _). subst vs.
      rewrite length_fmap in Hlen. split; [|split].
      * rewrite (Size_ok m' this _ (proj1 Hlist')). cbn [size_].
        f_equal. lia.
      * rewrite length_fmap. lia.
      * intros fuel Hfuel. rewrite length_fmap in Hfuel.
        by apply (traverse_ok m' this e ns').
    + by destruct Htot as [Hex _].
  - intros Hgood Hnt.
    by apply (run_ops_progress this e ops [] m vs []).
Qed.

(** C8.  Copy-construct [B] from [A], then apply to [B] any sequence of
    pushes, pops and erases within their preconditions: whatever happens
    (the sequence completes, or a push throws part way, or the copy
    itself throws), [A] still has its nodes, its size and its element
    sequence; and when all completes, [B] holds the sequence the
    operations imply from [A]'s elements. *)
Theorem copy_then_mutate_leaves_original m A eA nsA B fuel ops vs' :
  heap_wf (nodes m) → is_list m A eA nsA → B ≠ A →
  length nsA ≤ fuel →
  apply_ops ops (nsA.*2) = Some vs' →
  match List_copy fuel B A m with
  | Ok _ m1 =>
      original_intact A eA nsA m1
      ∧ (∀ f, length nsA ≤ f → traverse f B m1 = Ok (nsA.*2) m1)
      ∧ match run_ops B ops m1 with
        | Ok _ m2 =>
            original_intact A eA nsA m2
            ∧ ∀ f, length vs' ≤ f → traverse f B m2 = Ok vs' m2
        | Throw ex m2 =>
            (ex = bad_alloc ∨ ex = element_exn)
            ∧ original_intact A eA nsA m2
        | Terminate => ∃ s x, OpPush s ByMove x ∈ ops ∧ move_throws x = true
        | Undefined | OutOfFuel => False
        end
  | Throw ex m1 =>
      (ex = bad_alloc ∨ ex = element_exn) ∧ original_intact A eA nsA m1
  | Terminate | Undefined | OutOfFuel => False
  end.
Proof.
  intros Hwf HA Hne Hfuel Happ.
  pose proof (List_copy_total m B A eA nsA fuel Hwf HA Hne Hfuel) as Hcopy.
  destruct (List_copy fuel B A m) as [[] m1|ex m1| | |]; try done.
  - destruct Hcopy as (e & ns & He & HB & Hvs & Hwf1 & Hlf & Hrk).
    assert (HA1 : is_list m1 A eA nsA).
    { destruct HA as [Hl Hr]. split; [|by apply Hrk].
      rewrite Hlf by done. exact Hl. }
    assert (Hene : e ≠ eA).
    { intros ->. destruct HA as [_ (_ & HeA & _)]. congruence. }
    split; [by apply original_intact_intro|]. split.
    { intros f Hf. rewrite <- Hvs. apply (traverse_ok m1 B e ns); [done|].
      apply (f_equal length) in Hvs. rewrite !length_fmap in Hvs. lia. }
    rewrite <- Hvs in Happ.
    pose proof (run_ops_total B e ops ns m1 vs' Hwf1 HB Happ) as Htot.
    destruct (run_ops B ops m1) as [[] m2|ex m2| | |]; try done.
    + destruct Htot as (ns' & Hvs' & Hev). split.
      * apply original_intact_intro.
        by apply (evolved_other B e ns' m1 m2 A eA nsA).
      * intros f Hf. rewrite <- Hvs'.
        apply (traverse_ok m2 B e ns'); [apply Hev|].
        rewrite <- Hvs', length_fmap in Hf. done.
    + destruct Htot as (Hex & ns' & Hev). split; [done|].
      apply original_intact_intro.
      by apply (evolved_other B e ns' m1 m2 A eA nsA).
  - destruct Hcopy as (Hex & Hwf1 & Hl1 & Hrk). split; [done|].
    apply original_intact_intro. destruct HA as [Hl Hr].
    split; [|by apply Hrk]. rewrite Hl1, lookup_delete_ne by done. exact Hl.
Qed.

End SequencesAndCopies.

Lemma push_pop_sequence_size_and_order_witness :
  (heap_wf (nodes ex_empty)
   ∧ is_list ex_empty 1%positive 10%positive []
   ∧ Forall (λ o, is_push o || is_pop o = true) scenario_ops
   ∧ apply_ops scenario_ops [] = Some [0%Z; 1%Z; 2%Z])
  ∧ ∃ m', run_ops 1%positive scenario_ops ex_empty = Ok tt m'
        ∧ Size 1%positive m' = Ok 3%Z m'
        ∧ traverse 3 1%positive m' = Ok [0%Z; 1%Z; 2%Z] m'.
Proof.
  assert (Hwf : heap_wf (nodes ex_empty)) by concrete.
  assert (Hl : is_list ex_empty 1%positive 10%positive []) by concrete.
  assert (Hall : Forall (λ o, is_push o || is_pop o = true) scenario_ops)
    by (unfold scenario_ops; concrete).
  assert (Happ : apply_ops scenario_ops [] = Some [0%Z; 1%Z; 2%Z])
    by reflexivity.
  split; [done|].
  destruct (push_pop_sequence_size_and_order 1%positive 10%positive
              ex_empty scenario_ops [0%Z; 1%Z; 2%Z] Hwf Hl Hall Happ)
    as [Hres Hprog].
  destruct Hprog as [m' Hrun].
  { unfold scenario_ops. cbn [count_ops is_push Nat.add].
    unfold ex_empty. cbn [nodes allocator]. concrete. }
  { unfold scenario_ops. repeat constructor. }
  rewrite Hrun in Hres. destruct Hres as (Hsize & _ & Htrav).
  exists m'. split; [done|]. split; [exact Hsize|].
  apply Htrav. simpl. lia.
Defined.

Lemma copy_then_mutate_leaves_original_witness :
  (heap_wf (nodes ex_A)
   ∧ is_list ex_A 1%positive 10%positive
       [(11%positive, 1%Z); (12%positive, 2%Z)]
   ∧ 2%positive ≠ 1%positive
   ∧ apply_ops [OpPush AtBack ByCopy 3%Z] [1%Z; 2%Z]
     = Some [1%Z; 2%Z; 3%Z])
  ∧ ∃ m2,
      (List_copy 2 2%positive 1%positive;;
       run_ops 2%positive [OpPush AtBack ByCopy 3%Z]) ex_A = Ok tt m2
      ∧ traverse 2 1%positive m2 = Ok [1%Z; 2%Z] m2
      ∧ traverse 3 2%positive m2 = Ok [1%Z; 2%Z; 3%Z] m2.
Proof.
  assert (Hwf : heap_wf (nodes ex_A)) by concrete.
  assert (Hl : is_list ex_A 1%positive 10%positive
                 [(11%positive, 1%Z); (12%positive, 2%Z)]) by concrete.
  assert (Hne : 2%positive ≠ 1%positive) by done.
  assert (Happ : apply_ops [OpPush AtBack ByCopy 3%Z] [1%Z; 2%Z]
                 = Some [1%Z; 2%Z; 3%Z]) by reflexivity.
  split; [done|].
  pose proof (copy_then_mutate_leaves_original ex_A 1%positive 10%positive
                [(11%positive, 1%Z); (12%positive, 2%Z)] 2%positive 2
                [OpPush AtBack ByCopy 3%Z] [1%Z; 2%Z; 3%Z]
                Hwf Hl Hne (le_n 2) Happ) as Hthm.
  unfold bind at 1.
  destruct (List_copy 2 2%positive 1%positive ex_A) as [[] m1|ex m1| | |]
    eqn:Hcopy; try (by vm_compute in Hcopy).
  destruct Hthm as (_ & _ & Hthm).
  destruct (run_ops 2%positive [OpPush AtBack ByCopy 3%Z] m1)
    as [[] m2|ex m2| | |] eqn:Hrun.
  - destruct Hthm as [(_ & _ & HtravA) HtravB].
    exists m2. split; [done|]. split; [by apply HtravA|by apply HtravB].
  - exfalso. vm_compute in Hcopy. injection Hcopy as <-.
    by vm_compute in Hrun.
  - exfalso. vm_compute in Hcopy. injection Hcopy as <-.
    by vm_compute in Hrun.
  - done.
  - done.
Defined.

(** * Further properties of the operations

    Observers, iterators, single mutators, the life cycle of a list and
    compositions of operations, each with the memory it leaves. *)

(** Facts about the example memories. *)

Lemma ex_A_list :
  is_list ex_A 1%positive 10%positive [(11%positive, 1%Z); (12%positive, 2%Z)].
Proof. concrete. Qed.

Lemma ex_A_wf : heap_wf (nodes ex_A).
Proof. concrete. Qed.

Lemma ex_one_list : is_list ex_one 1%positive 10%positive [(11%positive, 5%Z)].
Proof. concrete. Qed.

Lemma ex_one_wf : heap_wf (nodes ex_one).
Proof. concrete. Qed.

Lemma ex_empty_list : is_list ex_empty 1%positive 10%positive [].
Proof. concrete. Qed.

Lemma ex_empty_wf : heap_wf (nodes ex_empty).
Proof. concrete. Qed.

Lemma ex_two_lists al :
  heap_wf (nodes (ex_two al))
  ∧ is_list (ex_two al) 1%positive 10%positive []
  ∧ is_list (ex_two al) 2%positive 20%positive [(21%positive, 7%Z)].
Proof. concrete. Qed.

Section Observers.
Context {T : Type} `{Element T}.
Implicit Types (h : gmap positive (ListNode (T:=T))).
Implicit Types (l : list (positive * T)).
Implicit Types (ns : list (positive * T)) (m : mem (T:=T)).

Lemma List_default_run h ls a rest this :
  h !! a = None → (a < ADDRESS_LIMIT)%positive →
  List_default this (mkMem h ls (Some a :: rest))
  = Ok tt (mkMem (<[a := mkNode (Some a) (Some a) None]> h)
             (<[this := mkList (Some a) 0]> ls) rest).
Proof.
  intros Ha Hlt. apply Pos.ltb_lt in Hlt.
  unfold List_default, constructor, new_ListNode, operator_new.
  exec_top. rewrite Hlt. exec_top. by rewrite !insert_insert_eq.
Qed.

Lemma hd_addr_sentinel h e ns :
  ring h e ns → hd_addr ns e = e ↔ ns = [].
Proof.
  intros (Hnd & _ & _). split; [|by intros ->].
  destruct ns as [|[a v] ns]; [done|]. cbn [hd_addr]. intros ->.
  rewrite fmap_cons in Hnd. cbn [fst] in Hnd.
  apply NoDup_cons in Hnd as [Hnd _]. exfalso. apply Hnd, list_elem_of_here.
Qed.

(** X1.  [List()] on storage that holds no object yet: either the sentinel
    is allocated and the new list is empty ([IsEmpty()], [Size() == 0],
    [Begin() == End()], an empty traversal) while every other object and
    every other node is untouched, or the allocation fails, [bad_alloc]
    propagates, and neither the heap nor the objects have changed. *)
Theorem default_constructor_makes_empty_list m this :
  lists m !! this = None →
  match List_default this m with
  | Ok _ m' =>
      ∃ a, nodes m !! a = None
        ∧ is_list m' this a []
        ∧ IsEmpty this m' = Ok true m'
        ∧ Size this m' = Ok 0%Z m'
        ∧ (b <- Begin this;; s <- End this;; ret (Iterator_eq b s)) m'
          = Ok true m'
        ∧ (∀ fuel, traverse fuel this m' = Ok [] m')
        ∧ lists_frame this m m'
        ∧ (∀ b, b ≠ a → nodes m' !! b = nodes m !! b)
  | Throw ex m' => ex = bad_alloc ∧ nodes m' = nodes m ∧ lists m' = lists m
  | Terminate | Undefined | OutOfFuel => False
  end.
Proof.
  intros Hnone.
  destruct (operator_new_cases m) as [(a & rest & Hal & Ha & Hlt)|[rest Hfail]].
  - destruct m as [h ls al]. cbn [nodes lists allocator] in *. subst al.
    rewrite (List_default_run h ls a rest this Ha Hlt).
    assert (Hlist : is_list (mkMem (<[a := mkNode (Some a) (Some a) None]> h)
                       (<[this := mkList (Some a) 0]> ls) rest) this a []).
    { split; cbn [nodes lists length]; [by rewrite lookup_insert_eq|].
      apply ring_empty_intro. by rewrite lookup_insert_eq. }
    exists a. split; [done|]. split; [done|].
    split; [by rewrite (IsEmpty_ok _ _ _ (proj1 Hlist))|].
    split; [by rewrite (Size_ok _ _ _ (proj1 Hlist))|].
    split.
    { erewrite bind_Ok; [|by apply (Begin_ok _ _ _ _ Hlist)].
      erewrite bind_Ok; [|by apply (End_ok _ _ _ (proj1 Hlist))].
      unfold Iterator_eq, ret. cbn [iter_ hd_addr end_].
      by rewrite bool_decide_true. }
    split.
    { intros fuel. apply (traverse_ok _ this a []); [done|]. apply Nat.le_0_l. }
    split.
    { intros o Ho. cbn [lists]. by rewrite lookup_insert_ne. }
    intros b Hb. cbn [nodes]. by rewrite lookup_insert_ne.
  - rewrite (List_default_fail m this _ Hfail).
    unfold set_lists. cbn [nodes lists].
    split; [done|]. split; [done|]. by apply delete_id.
Qed.

(** X2.  On a list with its ring, [begin(l) == end(l)] holds exactly when
    the list has no element and [begin(l) != end(l)] exactly when it has
    one, and [IsEmpty()] agrees with both: the counter and the links tell
    the same story. *)
Theorem begin_is_end_exactly_when_empty m this e ns :
  is_list m this e ns →
  (b <- global_begin this;; s <- global_end this;; ret (Iterator_eq b s)) m
  = Ok (bool_decide (ns = [])) m
  ∧ (b <- global_begin this;; s <- global_end this;; ret (Iterator_ne b s)) m
    = Ok (negb (bool_decide (ns = []))) m
  ∧ IsEmpty this m = Ok (bool_decide (ns = [])) m.
Proof.
  intros Hlist. pose proof (hd_addr_sentinel _ _ _ (proj2 Hlist)) as Hhd.
  assert (Heq : bool_decide (Some (hd_addr ns e) = Some e)
                = bool_decide (ns = [])).
  { apply bool_decide_ext. rewrite <- Hhd. split; congruence. }
  unfold global_begin, global_end.
  split; [|split].
  - erewrite bind_Ok; [|by apply (Begin_ok _ _ _ _ Hlist)].
    erewrite bind_Ok; [|by apply (End_ok _ _ _ (proj1 Hlist))].
    unfold Iterator_eq, ret. cbn [iter_ end_]. by rewrite Heq.
  - erewrite bind_Ok; [|by apply (Begin_ok _ _ _ _ Hlist)].
    erewrite bind_Ok; [|by apply (End_ok _ _ _ (proj1 Hlist))].
    unfold Iterator_ne, ret. cbn [iter_ end_]. by rewrite Heq.
  - rewrite (IsEmpty_ok _ _ _ (proj1 Hlist)). cbn [size_]. f_equal.
    apply bool_decide_ext. destruct ns; simpl; split; (done || lia).
Qed.

(** X3.  [Front()] and [Back()] return the first and the last element of
    a non-empty list and leave the memory alone; on an empty list both
    read the sentinel as if it were a typed node, which is undefined
    behaviour. *)
Theorem front_and_back_read_the_ends m this e ns :
  is_list m this e ns →
  Front this m = match head (ns.*2) with
                 | Some v => Ok v m
                 | None => Undefined
                 end
  ∧ Back this m = match last (ns.*2) with
                  | Some v => Ok v m
                  | None => Undefined
                  end.
Proof.
  intros Hlist. split.
  - destruct ns as [|[a v] ns].
    + destruct Hlist as [Hl (_ & He & _)]. cbn [hd_addr last_addr] in He.
      unfold Front. by exec_top.
    + by rewrite (Front_ok m this e a v ns Hlist).
  - destruct (snoc_case ns) as [->|(l & a & v & ->)].
    + destruct Hlist as [Hl (_ & He & _)]. cbn [hd_addr last_addr] in He.
      unfold Back. by exec_top.
    + rewrite (Back_ok m this e l a v Hlist).
      by rewrite fmap_app, fmap_cons, fmap_nil, last_snoc.
Qed.

End Observers.

Lemma default_constructor_makes_empty_list_witness :
  lists ex_empty !! 2%positive = None
  ∧ ∃ m', List_default 2%positive ex_empty = Ok tt m'
        ∧ IsEmpty 2%positive m' = Ok true m'
        ∧ Size 2%positive m' = Ok 0%Z m'.
Proof.
  assert (Hn : lists ex_empty !! 2%positive = None) by reflexivity.
  split; [exact Hn|].
  pose proof (default_constructor_makes_empty_list ex_empty 2%positive Hn)
    as Hthm.
  destruct (List_default 2%positive ex_empty) as [[] m'|ex m'| | |] eqn:Hrun;
    try (by vm_compute in Hrun).
  destruct Hthm as (a & _ & _ & Hemp & Hsz & _).
  exists m'. split; [reflexivity|]. split; [exact Hemp|exact Hsz].
Defined.

Lemma begin_is_end_exactly_when_empty_witness :
  is_list ex_one 1%positive 10%positive [(11%positive, 5%Z)]
  ∧ (b <- global_begin 1%positive;; s <- global_end 1%positive;;
     ret (Iterator_eq b s)) ex_one = Ok false ex_one.
Proof.
  split; [exact ex_one_list|].
  exact (proj1 (begin_is_end_exactly_when_empty ex_one 1%positive 10%positive
                  [(11%positive, 5%Z)] ex_one_list)).
Defined.

Lemma front_and_back_read_the_ends_witness :
  is_list ex_A 1%positive 10%positive [(11%positive, 1%Z); (12%positive, 2%Z)]
  ∧ Front 1%positive ex_A = Ok 1%Z ex_A
  ∧ Back 1%positive ex_A = Ok 2%Z ex_A.
Proof.
  split; [exact ex_A_list|].
  exact (front_and_back_read_the_ends ex_A 1%positive 10%positive
           [(11%positive, 1%Z); (12%positive, 2%Z)] ex_A_list).
Defined.

Section Iterators.
Context {T : Type} `{Element T}.
Implicit Types (h : gmap positive (ListNode (T:=T))).
Implicit Types (l : list (positive * T)).
Implicit Types (ns : list (positive * T)) (m : mem (T:=T)).

(** The node at a position of the ring, with both of its links. *)
Lemma ring_typed_lookup h e l1 a v l2 :
  ring h e (l1 ++ (a, v) :: l2) →
  h !! a = Some (mkNode (Some (last_addr e l1)) (Some (hd_addr l2 e)) (Some v)).
Proof. intros (_ & _ & Hc). by apply chain_lookup in Hc. Qed.

Lemma ring_deref m e ns b v :
  ring (nodes m) e ns → (b, v) ∈ ns →
  Iterator_deref (mkIter (Some b)) m = Ok v m.
Proof.
  intros Hr (l1 & l2 & ->)%list_elem_of_split.
  pose proof (ring_typed_lookup _ _ _ _ _ _ Hr) as Hb.
  red_iter. by exec_top.
Qed.

(** X4.  At every position of a ring, the sentinel included, [++]
    followed by [--] and [--] followed by [++] lead back to the position
    and throw nothing; the post-fix operators return the old position and
    move like the pre-fix ones; an increment never leaves the ring. *)
Theorem increment_and_decrement_are_inverse m e ns a :
  ring (nodes m) e ns → a ∈ e :: ns.*1 →
  (it <- Iterator_preinc (mkIter (Some a));; Iterator_predec it) m
  = Ok (mkIter (Some a)) m
  ∧ (it <- Iterator_predec (mkIter (Some a));; Iterator_preinc it) m
    = Ok (mkIter (Some a)) m
  ∧ (p <- Iterator_postinc (mkIter (Some a));;
     q <- Iterator_postdec (snd p);; ret (fst p, fst q, snd q)) m
    = (it <- Iterator_preinc (mkIter (Some a));;
       ret (mkIter (Some a), it, mkIter (Some a))) m
  ∧ ∃ b, b ∈ e :: ns.*1
       ∧ Iterator_preinc (mkIter (Some a)) m = Ok (mkIter (Some b)) m.
Proof.
  intros Hr Ha.
  destruct (ring_links _ _ _ Hr a Ha)
    as (n & b & c & nb & nc & Hn & Hnb & Hb & Hlb & Hpb & Hnc & Hc & Hlc & Hpc).
  destruct n as [pa na va], nb as [pb nb' vb], nc as [pc nc' vc].
  cbn [prev_ next_] in *. subst.
  split; [|split; [|split]].
  - red_iter. by exec_top.
  - red_iter. by exec_top.
  - red_iter. exec_top. cbn [fst snd iter_]. by exec_top.
  - exists b. split; [done|]. red_iter. by exec_top.
Qed.

(** X5.  Decrementing a null iterator throws [out_of_range];
    decrementing [Begin()] does not: the ring is circular and the
    iterator arrives at [End()].  Decrementing [End()] arrives at the last
    element, whose dereference is what [Back()] returns. *)
Theorem decrement_wraps_at_begin m this e ns :
  is_list m this e ns →
  (∀ m0 : mem (T:=T),
     Iterator_predec Iterator_default m0 = Throw out_of_range m0
     ∧ Iterator_postdec Iterator_default m0 = Throw out_of_range m0)
  ∧ (it <- Begin this;; Iterator_predec it) m = End this m
  ∧ (it <- Begin this;; Iterator_postdec it) m
    = Ok (mkIter (Some (hd_addr ns e)), mkIter (Some e)) m
  ∧ (it <- End this;; Iterator_predec it) m
    = Ok (mkIter (Some (last_addr e ns))) m
  ∧ (it <- End this;; it' <- Iterator_predec it;; Iterator_deref it') m
    = Back this m.
Proof.
  intros Hlist. split; [done|].
  pose proof Hlist as [Hl Hr]. pose proof Hr as (_ & He & Hc).
  assert (Hprev : GetPrev (Some (hd_addr ns e)) m = Ok (Some e) m).
  { destruct ns as [|[a v] ns]; cbn [hd_addr last_addr chain] in *.
    - by exec_top.
    - destruct Hc as [Ha _]. by exec_top. }
  assert (Hpd : Iterator_predec (mkIter (Some (hd_addr ns e))) m
                = Ok (mkIter (Some e)) m).
  { unfold Iterator_predec. cbn [iter_]. rewrite decide_False by done.
    erewrite bind_Ok; [|exact Hprev]. rewrite decide_False by done.
    erewrite bind_Ok; [|exact Hprev]. done. }
  split; [|split; [|split]].
  - erewrite bind_Ok; [|by apply (Begin_ok _ _ _ _ Hlist)].
    by rewrite Hpd, (End_ok _ _ _ Hl).
  - erewrite bind_Ok; [|by apply (Begin_ok _ _ _ _ Hlist)].
    unfold Iterator_postdec. cbn [iter_]. rewrite decide_False by done.
    erewrite bind_Ok; [|exact Hprev]. done.
  - red_iter. by exec_top.
  - red_iter. unfold Back. by exec_top.
Qed.

(** X6.  An iterator built on a freshly allocated, unlinked [ListNode]:
    [--it] throws [out_of_range] because the [prev_] of the node is null,
    whereas [it--] and [++it] throw nothing and leave a null iterator;
    dereferencing the iterator is undefined behaviour, the node being no
    [TNode]. *)
Theorem iterator_to_fresh_node m a rest :
  alloc_succeeds m a rest →
  ∃ m1,
    new_ListNode m = Ok a m1
    ∧ Iterator_predec (mkIter (Some a)) m1 = Throw out_of_range m1
    ∧ Iterator_postdec (mkIter (Some a)) m1
      = Ok (mkIter (Some a), mkIter nullptr) m1
    ∧ Iterator_preinc (mkIter (Some a)) m1 = Ok (mkIter nullptr) m1
    ∧ Iterator_deref (mkIter (Some a)) m1 = Undefined.
Proof.
  intros (Hal & Ha & Hlt). destruct m as [h ls al].
  cbn [nodes lists allocator] in *. subst al. apply Pos.ltb_lt in Hlt.
  eexists. split.
  { unfold new_ListNode, operator_new. exec_top. rewrite Hlt. exec_top.
    reflexivity. }
  split; [|split; [|split]]; red_iter; by exec_top.
Qed.

(** Positions reached by increments. *)
Lemma advance_from_begin m this e ns k :
  is_list m this e ns → k ≤ length ns →
  (it <- Begin this;; advance k it) m
  = Ok (mkIter (Some (hd_addr (drop k ns) e))) m.
Proof.
  intros Hlist Hk.
  erewrite bind_Ok; [|by apply (Begin_ok _ _ _ _ Hlist)].
  apply (advance_chain m e ns e k); [apply Hlist|done].
Qed.

(** X7.  [k] increments from [Begin()] arrive at the [k]-th element,
    whose dereference is its value; [Size()] increments arrive at [End()],
    and with fewer the iterator still differs from [End()]. *)
Theorem increments_reach_every_element m this e ns k :
  is_list m this e ns → k ≤ length ns →
  (it <- Begin this;; it' <- advance k it;; Iterator_deref it') m
  = match ns.*2 !! k with
    | Some v => Ok v m
    | None => Undefined
    end
  ∧ (k = length ns → (it <- Begin this;; advance k it) m = End this m)
  ∧ (k < length ns →
     (it <- Begin this;; it' <- advance k it;;
      s <- End this;; ret (Iterator_ne it' s)) m = Ok true m).
Proof.
  intros Hlist Hk.
  pose proof (advance_from_begin m this e ns k Hlist Hk) as Hadv.
  assert (Hadv' : ∀ A (K : Iterator → M (T:=T) A),
            (it <- Begin this;; it' <- advance k it;; K it') m
            = K (mkIter (Some (hd_addr (drop k ns) e))) m).
  { intros A K. unfold bind in Hadv |- *.
    destruct (Begin this m) as [it m1| | | |]; try done.
    by destruct (advance k it m1) as [it' m2| | | |]; simplify_eq. }
  pose proof Hlist as [Hl Hr].
  split; [|split].
  - rewrite Hadv'. rewrite list_lookup_fmap.
    destruct (ns !! k) as [[a v]|] eqn:Hlook; cbn [fmap option_fmap option_map snd].
    + apply take_drop_middle in Hlook as Hsplit.
      rewrite (drop_S _ _ _ Hlook). cbn [hd_addr].
      rewrite <- Hsplit in Hr.
      pose proof (ring_typed_lookup _ _ _ _ _ _ Hr) as Ha.
      red_iter. by exec_top.
    + apply lookup_ge_None in Hlook. rewrite drop_ge by done.
      cbn [hd_addr]. destruct Hr as (_ & He & _). red_iter. by exec_top.
  - intros ->. rewrite Hadv, drop_all. cbn [hd_addr].
    by rewrite (End_ok _ _ _ Hl).
  - intros Hlt. rewrite Hadv'.
    erewrite bind_Ok; [|by apply (End_ok _ _ _ Hl)].
    unfold Iterator_ne, ret. cbn [iter_ end_].
    destruct (lookup_lt_is_Some_2 ns k Hlt) as [[a v] Hlook].
    apply take_drop_middle in Hlook as Hsplit.
    rewrite (drop_S _ _ _ Hlook). cbn [hd_addr].
    rewrite <- Hsplit in Hr. apply ring_sentinel_ne in Hr.
    rewrite bool_decide_false by congruence. done.
Qed.

(** Positions reached by decrements, counted from the back. *)
Lemma retreat_chain m e ns :
  ring (nodes m) e ns →
  ∀ k j, k ≤ j → j ≤ length ns →
  retreat k (mkIter (Some (last_addr e (take j ns)))) m
  = Ok (mkIter (Some (last_addr e (take (j - k) ns)))) m.
Proof.
  intros Hr. induction k as [|k IH]; intros j Hk Hj.
  - by rewrite Nat.sub_0_r.
  - destruct j as [|j]; [lia|].
    destruct (lookup_lt_is_Some_2 ns j ltac:(lia)) as [[a v] Hlook].
    rewrite (take_S_r _ _ _ Hlook), last_addr_app. cbn [last_addr retreat].
    apply take_drop_middle in Hlook as Hsplit.
    pose proof Hr as Hr'. rewrite <- Hsplit in Hr'.
    pose proof (ring_typed_lookup _ _ _ _ _ _ Hr') as Ha.
    erewrite bind_Ok; [|red_iter; exec_top; reflexivity].
    rewrite (IH j) by lia. by replace (S j - S k) with (j - k) by lia.
Qed.

Lemma bind_assoc {A B C} (c : M (T:=T) A) (k1 : A → M B) (k2 : B → M C) m :
  bind (bind c k1) k2 m = bind c (λ x, bind (k1 x) k2) m.
Proof. unfold bind. by destruct (c m). Qed.

(** X8.  [k + 1] decrements from [End()] arrive at the [k]-th element
    counted from the back; [Size()] decrements arrive at [Begin()], and
    one more at [End()] again. *)
Theorem decrements_reach_every_element_from_the_back m this e ns k v :
  is_list m this e ns → reverse (ns.*2) !! k = Some v →
  (it <- End this;; it' <- retreat (S k) it;; Iterator_deref it') m = Ok v m
  ∧ (it <- End this;; retreat (length ns) it) m = Begin this m
  ∧ (it <- End this;; retreat (S (length ns)) it) m = End this m.
Proof.
  intros Hlist Hv. pose proof Hlist as [Hl Hr].
  pose proof Hr as (_ & He & _).
  assert (Hk : k < length ns).
  { apply lookup_lt_Some in Hv. by rewrite length_reverse, length_fmap in Hv. }
  assert (Hpd : Iterator_predec (mkIter (Some e)) m
                = Ok (mkIter (Some (last_addr e ns))) m).
  { red_iter. by exec_top. }
  assert (Hret : ∀ j, j ≤ length ns →
            retreat j (mkIter (Some (last_addr e ns))) m
            = Ok (mkIter (Some (last_addr e (take (length ns - j) ns)))) m).
  { intros j Hj.
    pose proof (retreat_chain m e ns Hr j (length ns) Hj (le_n _)) as Hx.
    by rewrite firstn_all in Hx. }
  split; [|split].
  - erewrite bind_Ok; [|by apply (End_ok _ _ _ Hl)].
    cbn [end_ retreat]. rewrite bind_assoc.
    erewrite bind_Ok; [|exact Hpd].
    erewrite bind_Ok; [|by apply Hret; lia].
    rewrite reverse_lookup in Hv by (rewrite length_fmap; lia).
    rewrite length_fmap, list_lookup_fmap in Hv.
    destruct (ns !! (length ns - S k)) as [[a w]|] eqn:Hlook; [|done].
    cbn in Hv. simplify_eq.
    replace (length ns - k) with (S (length ns - S k)) by lia.
    rewrite (take_S_r _ _ _ Hlook), last_addr_app. cbn [last_addr].
    apply (ring_deref m e ns); [done|]. by apply list_elem_of_lookup_2 in Hlook.
  - erewrite bind_Ok; [|by apply (End_ok _ _ _ Hl)].
    rewrite (Begin_ok _ _ _ _ Hlist). cbn [end_].
    destruct ns as [|[a w] ns]; [done|].
    cbn [length retreat]. erewrite bind_Ok; [|exact Hpd].
    rewrite Hret by (cbn [length]; lia). cbn [length].
    replace (S (length ns) - length ns) with 1 by lia. done.
  - erewrite bind_Ok; [|by apply (End_ok _ _ _ Hl)].
    cbn [end_ retreat]. erewrite bind_Ok; [|exact Hpd].
    rewrite Hret by lia. rewrite Nat.sub_diag, take_0. cbn [last_addr].
    by rewrite (End_ok _ _ _ Hl).
Qed.

End Iterators.

Lemma increment_and_decrement_are_inverse_witness :
  (ring (nodes ex_A) 10%positive [(11%positive, 1%Z); (12%positive, 2%Z)]
   ∧ 12%positive ∈ 10%positive :: [(11%positive, 1%Z); (12%positive, 2%Z)].*1)
  ∧ (it <- Iterator_preinc (mkIter (Some 12%positive));; Iterator_predec it)
      ex_A
    = Ok (mkIter (Some 12%positive)) ex_A.
Proof.
  assert (Hin : 12%positive
                ∈ 10%positive :: [(11%positive, 1%Z); (12%positive, 2%Z)].*1).
  { apply list_elem_of_further, list_elem_of_further, list_elem_of_here. }
  split; [split; [exact (proj2 ex_A_list)|exact Hin]|].
  exact (proj1 (increment_and_decrement_are_inverse ex_A 10%positive
                  [(11%positive, 1%Z); (12%positive, 2%Z)] 12%positive
                  (proj2 ex_A_list) Hin)).
Defined.

Lemma decrement_wraps_at_begin_witness :
  is_list ex_A 1%positive 10%positive [(11%positive, 1%Z); (12%positive, 2%Z)]
  ∧ (it <- Begin 1%positive;; Iterator_predec it) ex_A = End 1%positive ex_A
  ∧ End 1%positive ex_A = Ok (mkIter (Some 10%positive)) ex_A.
Proof.
  split; [exact ex_A_list|]. split; [|reflexivity].
  exact (proj1 (proj2 (decrement_wraps_at_begin ex_A 1%positive 10%positive
                         [(11%positive, 1%Z); (12%positive, 2%Z)]
                         ex_A_list))).
Defined.

Lemma iterator_to_fresh_node_witness :
  alloc_succeeds ex_empty 11%positive [Some 12%positive; Some 13%positive]
  ∧ ∃ m1,
      new_ListNode ex_empty = Ok 11%positive m1
      ∧ Iterator_predec (mkIter (Some 11%positive)) m1 = Throw out_of_range m1
      ∧ Iterator_postdec (mkIter (Some 11%positive)) m1
        = Ok (mkIter (Some 11%positive), mkIter nullptr) m1
      ∧ Iterator_preinc (mkIter (Some 11%positive)) m1
        = Ok (mkIter nullptr) m1
      ∧ Iterator_deref (mkIter (Some 11%positive)) m1 = Undefined.
Proof.
  assert (Hal : alloc_succeeds ex_empty 11%positive
                  [Some 12%positive; Some 13%positive]) by concrete.
  split; [exact Hal|].
  exact (iterator_to_fresh_node ex_empty 11%positive
           [Some 12%positive; Some 13%positive] Hal).
Defined.

Lemma increments_reach_every_element_witness :
  (is_list ex_A 1%positive 10%positive
     [(11%positive, 1%Z); (12%positive, 2%Z)]
   ∧ 1 ≤ 2)
  ∧ (it <- Begin 1%positive;; it' <- advance 1 it;; Iterator_deref it') ex_A
    = Ok 2%Z ex_A.
Proof.
  assert (Hk : 1 ≤ 2) by lia.
  split; [split; [exact ex_A_list|exact Hk]|].
  exact (proj1 (increments_reach_every_element ex_A 1%positive 10%positive
                  [(11%positive, 1%Z); (12%positive, 2%Z)] 1
                  ex_A_list Hk)).
Defined.

Lemma decrements_reach_every_element_from_the_back_witness :
  (is_list ex_A 1%positive 10%positive
     [(11%positive, 1%Z); (12%positive, 2%Z)]
   ∧ reverse ([(11%positive, 1%Z); (12%positive, 2%Z)].*2) !! 1 = Some 1%Z)
  ∧ (it <- End 1%positive;; it' <- retreat 2 it;; Iterator_deref it') ex_A
    = Ok 1%Z ex_A.
Proof.
  assert (Hv : reverse ([(11%positive, 1%Z); (12%positive, 2%Z)].*2) !! 1
               = Some 1%Z) by reflexivity.
  split; [split; [exact ex_A_list|exact Hv]|].
  exact (proj1 (decrements_reach_every_element_from_the_back ex_A 1%positive
                  10%positive [(11%positive, 1%Z); (12%positive, 2%Z)] 1 1%Z
                  ex_A_list Hv)).
Defined.

Section Mutators.
Context {T : Type} `{Element T}.
Implicit Types (h : gmap positive (ListNode (T:=T))).
Implicit Types (l : list (positive * T)).
Implicit Types (ns : list (positive * T)) (m : mem (T:=T)).

(** X9.  A successful push followed by the pop at the same side restores
    the heap and every [List] object exactly; only the allocator has moved
    on. *)
Theorem push_then_pop_restores_memory s p m this e ns x a rest :
  heap_wf (nodes m) → is_list m this e ns →
  alloc_succeeds m a rest → ctor_throws p x = false →
  (push s p this x;; pop s this) m = Ok tt (mkMem (nodes m) (lists m) rest).
Proof.
  intros Hwf Hlist Hal Hx.
  destruct (push_ok s p m this e ns x a rest Hwf Hlist Hal Hx)
    as (m1 & Hpush & Hup).
  pose proof Hup as (Hlist1 & Hwf1 & Hal1 & Hnf1 & Hlf1).
  destruct (pop_placed s m1 this e ns a x Hwf1 Hlist1)
    as (m2 & Hpop & (Hlist2 & Hwf2 & Hal2 & Hnf2 & Hlf2) & Ha2).
  erewrite bind_Ok; [|exact Hpush]. rewrite Hpop. f_equal.
  destruct Hal as (_ & Ha & _).
  destruct m2 as [h2 ls2 al2]. cbn [nodes lists allocator] in *.
  f_equal.
  - apply map_eq. intros b.
    destruct (decide (b = a)) as [->|Hba]; [congruence|].
    destruct (decide (b ∈ e :: ns.*1)) as [Hin|Hout].
    + apply (ring_lookup_eq (nodes m) h2 e ns);
        [apply Hlist|apply Hlist2|done].
    + unfold nodes_frame in Hnf1, Hnf2. cbn [nodes] in Hnf2.
      rewrite Hnf2, Hnf1; [done| |].
      * apply not_elem_of_cons. by split.
      * rewrite not_elem_of_cons, elem_of_placed.
        apply not_elem_of_cons in Hout. tauto.
  - apply map_eq. intros o. destruct (decide (o = this)) as [->|Ho].
    + destruct Hlist as [Hl _], Hlist2 as [Hl2 _]. cbn [lists] in Hl2.
      congruence.
    + unfold lists_frame in Hlf1, Hlf2. cbn [lists] in Hlf2.
      rewrite Hlf2, Hlf1; done.
  - congruence.
Qed.

(** X10.  A successful push makes the new value the front (or the back)
    element, adds one to [Size()], leaves [End()] where it was, and keeps
    every iterator to an older element valid: it still dereferences to the
    same value. *)
Theorem push_keeps_every_iterator_valid s p m this e ns x a rest :
  heap_wf (nodes m) → is_list m this e ns →
  alloc_succeeds m a rest → ctor_throws p x = false →
  ∃ m', push s p this x m = Ok tt m'
      ∧ is_list m' this e (placed s a x ns)
      ∧ match s with
        | AtFront => Front this m'
        | AtBack => Back this m'
        end = Ok x m'
      ∧ Size this m' = Ok (Z.of_nat (length ns) + 1)%Z m'
      ∧ End this m' = Ok (mkIter (Some e)) m'
      ∧ (∀ b v, (b, v) ∈ ns → Iterator_deref (mkIter (Some b)) m' = Ok v m')
      ∧ Iterator_deref (mkIter (Some a)) m' = Ok x m'.
Proof.
  intros Hwf Hlist Hal Hx.
  destruct (push_ok s p m this e ns x a rest Hwf Hlist Hal Hx)
    as (m' & Hpush & Hlist' & _).
  exists m'. split; [done|]. split; [done|].
  pose proof Hlist' as [Hl' Hr'].
  split; [|split; [|split; [|split]]].
  - destruct s; cbn [placed] in Hlist'.
    + by apply (Front_ok m' this e a x ns).
    + by apply (Back_ok m' this e ns a x).
  - rewrite (Size_ok _ _ _ Hl'). cbn [size_]. f_equal.
    rewrite length_placed. lia.
  - by rewrite (End_ok _ _ _ Hl').
  - intros b v Hb. apply (ring_deref m' e (placed s a x ns)); [done|].
    destruct s; cbn [placed]; [by apply list_elem_of_further|].
    apply elem_of_app. by left.
  - apply (ring_deref m' e (placed s a x ns)); [done|].
    destruct s; cbn [placed]; [apply list_elem_of_here|].
    apply elem_of_app. right. apply list_elem_of_here.
Qed.

(** X11.  [Erase] at the iterator reached by [k] increments from
    [Begin()], for [k] below [Size()]: the [k]-th element is removed and
    the others keep their order, [Size()] drops by one, the iterators to
    the other elements still dereference to their values, the erased node
    is released (dereferencing the old iterator is undefined behaviour),
    and no node outside the list is touched. *)
Theorem erase_removes_one_element m this e ns k v :
  heap_wf (nodes m) → is_list m this e ns → ns.*2 !! k = Some v →
  ∃ a m',
    ns !! k = Some (a, v)
    ∧ (it <- Begin this;; advance k it) m = Ok (mkIter (Some a)) m
    ∧ Erase this (mkIter (Some a)) m = Ok tt m'
    ∧ is_list m' this e (delete k ns)
    ∧ Size this m' = Ok (Z.of_nat (length ns) - 1)%Z m'
    ∧ (∀ fuel, length ns ≤ S fuel →
         traverse fuel this m' = Ok (delete k (ns.*2)) m')
    ∧ (∀ b w, (b, w) ∈ delete k ns →
         Iterator_deref (mkIter (Some b)) m' = Ok w m')
    ∧ Iterator_deref (mkIter (Some a)) m' = Undefined
    ∧ (∀ b, b ∉ e :: ns.*1 → nodes m' !! b = nodes m !! b).
Proof.
  intros Hwf Hlist Hv. rewrite list_lookup_fmap in Hv.
  destruct (ns !! k) as [[a w]|] eqn:Hlook; [|done].
  cbn in Hv. simplify_eq.
  pose proof (lookup_lt_Some _ _ _ Hlook) as Hk.
  pose proof (take_drop_middle _ _ _ Hlook) as Hsplit.
  exists a.
  pose proof Hlist as Hlist0. rewrite <- Hsplit in Hlist0.
  destruct (Erase_node m this e (take k ns) a v (drop (S k) ns) Hwf Hlist0)
    as (m' & Hrun & (Hlist' & _ & _ & Hnf & _) & Ha).
  rewrite <- delete_take_drop in Hlist'. rewrite Hsplit in Hnf.
  exists m'. split; [done|]. split.
  { rewrite (advance_from_begin m this e ns k Hlist) by lia.
    by rewrite (drop_S _ _ _ Hlook). }
  split; [done|]. split; [done|].
  pose proof Hlist' as [Hl' Hr'].
  assert (Hlen : length (delete k ns) = length ns - 1).
  { rewrite length_delete; [done|]. by rewrite Hlook. }
  split; [|split; [|split; [|split]]].
  - rewrite (Size_ok _ _ _ Hl'). cbn [size_]. f_equal. lia.
  - intros fuel Hfuel. rewrite <- list_fmap_delete.
    apply (traverse_ok m' this e (delete k ns)); [done|lia].
  - intros b w' Hb. by apply (ring_deref m' e (delete k ns)).
  - red_iter. by exec_top.
  - intros b Hb. by apply Hnf.
Qed.

(** X12.  [Erase] called on a list [A] with an iterator to an element of
    another list [B] unlinks the node from the ring of [B], yet decrements
    the counter of [A]: afterwards [B.Size()] is one more than the number
    of nodes of [B], and [A.Size()] differs from the number of nodes of
    [A]. *)
Theorem erase_through_another_list m A eA nsA B eB l1 a v l2 :
  is_list m A eA nsA → is_list m B eB (l1 ++ (a, v) :: l2) →
  A ≠ B → eA ≠ eB →
  ∃ m', Erase A (mkIter (Some a)) m = Ok tt m'
      ∧ ring (nodes m') eB (l1 ++ l2)
      ∧ Size B m' = Ok (Z.of_nat (length (l1 ++ l2)) + 1)%Z m'
      ∧ ring (nodes m') eA nsA
      ∧ Size A m'
        = Ok ((Z.of_nat (length nsA) - 1) mod SIZE_MODULUS)%Z m'
      ∧ ((Z.of_nat (length nsA) - 1) mod SIZE_MODULUS)%Z
        ≠ Z.of_nat (length nsA).
Proof.
  intros [HlA HrA] [HlB HrB] Hne Hene.
  destruct m as [h ls al]. cbn [nodes lists allocator] in *.
  destruct (UnLink_ring h ls al eB l1 a v l2 HrB)
    as (h' & Hun & HrB' & Ha & Hf).
  assert (HaA : a ∉ eA :: nsA.*1).
  { apply (rings_disjoint h eB (l1 ++ (a, v) :: l2) eA nsA);
      [done|done|congruence|].
    apply list_elem_of_further. rewrite elem_of_middle. by left. }
  assert (HrA' : ring h' eA nsA).
  { apply (ring_frame h); [|done]. intros b Hb. apply Hf.
    by apply (rings_disjoint h eA nsA eB (l1 ++ (a, v) :: l2)). }
  eexists. split.
  { unfold Erase. cbn [iter_]. erewrite bind_Ok; [|exec_top; reflexivity].
    rewrite decide_True.
    2:{ intros Heq. apply HaA. simplify_eq. apply list_elem_of_here. }
    erewrite bind_Ok; [|exact Hun]. exec_top. reflexivity. }
  cbn [nodes lists allocator].
  split; [done|]. split.
  { red_iter. exec_top. do 2 f_equal.
    rewrite !length_app. cbn [length]. lia. }
  split; [done|]. split.
  { red_iter. by exec_top. }
  assert (Hpos : (0 < SIZE_MODULUS)%Z) by reflexivity.
  pose proof (Z.mod_pos_bound (Z.of_nat (length nsA) - 1) SIZE_MODULUS Hpos)
    as Hb.
  destruct (length nsA) as [|n] eqn:Hn.
  - change ((Z.of_nat 0 - 1) mod SIZE_MODULUS)%Z with (SIZE_MODULUS - 1)%Z.
    by vm_compute.
  - intros Heq. rewrite Heq in Hb.
    destruct (decide (Z.of_nat (S n) < SIZE_MODULUS)%Z) as [Hlt|Hge]; [|lia].
    rewrite Z.mod_small in Heq by lia. lia.
Qed.

(** A list whose sentinel has been released: the destructor enters its
    loop and reads the dead sentinel. *)
Lemma List_destroy_dangling m this e n :
  lists m !! this = Some (mkList (Some e) n) → nodes m !! e = None →
  (0 < n)%Z → List_destroy this m = Undefined.
Proof.
  intros Hl He Hn. destruct m as [h ls al]. cbn [nodes lists] in *.
  unfold List_destroy, clear_with. exec_top.
  rewrite while_not_empty_eq.
  destruct (Z.to_nat n) as [|k] eqn:Hk; [lia|].
  unfold IsEmpty, PopFront. exec_top.
  rewrite bool_decide_false by lia. by exec_top.
Qed.

(** X13.  [PopBack()] or [PopFront()] on an empty list returns normally,
    but it has released the sentinel and wrapped [size_] to [2^64 - 1]:
    the list reports non-empty, and [Begin()], a further pop and the
    destructor all read the dead sentinel. *)
Theorem pop_on_empty_list_frees_the_sentinel s m this e :
  is_list m this e [] →
  ∃ m', pop s this m = Ok tt m'
      ∧ nodes m' = delete e (nodes m)
      ∧ lists m' = <[this := mkList (Some e) (SIZE_MODULUS - 1)]> (lists m)
      ∧ IsEmpty this m' = Ok false m'
      ∧ Begin this m' = Undefined
      ∧ (∀ s', pop s' this m' = Undefined)
      ∧ List_destroy this m' = Undefined.
Proof.
  intros [Hl (_ & He & _)]. cbn [hd_addr last_addr length] in *.
  destruct m as [h ls al]. cbn [nodes lists allocator] in *.
  change (Z.of_nat 0) with 0%Z in Hl.
  assert (Hrun : pop s this (mkMem h ls al)
                 = Ok tt (mkMem (delete e h)
                            (<[this := mkList (Some e) (SIZE_MODULUS - 1)]> ls)
                            al)).
  { destruct s; cbn [pop]; unfold PopFront, PopBack, UnLink; exec_top;
      by rewrite !delete_insert_eq. }
  eexists. split; [exact Hrun|]. cbn [nodes lists allocator].
  split; [done|]. split; [done|].
  set (n := (SIZE_MODULUS - 1)%Z).
  assert (Hn : (0 < n)%Z) by reflexivity. clearbody n.
  split; [red_iter; exec_top; by rewrite bool_decide_false by lia|].
  split; [red_iter; by exec_top|].
  split.
  { intros s'. destruct s'; cbn [pop]; unfold PopFront, PopBack; by exec_top. }
  apply (List_destroy_dangling _ this e n); cbn [nodes lists];
    [by rewrite lookup_insert_eq|by rewrite lookup_delete_eq|done].
Qed.

End Mutators.

Lemma push_then_pop_restores_memory_witness :
  (heap_wf (nodes ex_one)
   ∧ is_list ex_one 1%positive 10%positive [(11%positive, 5%Z)]
   ∧ alloc_succeeds ex_one 12%positive [None]
   ∧ ctor_throws ByCopy 9%Z = false)
  ∧ (push AtBack ByCopy 1%positive 9%Z;; pop AtBack 1%positive) ex_one
    = Ok tt (mkMem (nodes ex_one) (lists ex_one) [None]).
Proof.
  assert (Hal : alloc_succeeds ex_one 12%positive [None]) by concrete.
  assert (Hx : ctor_throws ByCopy 9%Z = false) by reflexivity.
  split; [split; [exact ex_one_wf|split; [exact ex_one_list|by split]]|].
  exact (push_then_pop_restores_memory AtBack ByCopy ex_one 1%positive
           10%positive [(11%positive, 5%Z)] 9%Z 12%positive [None]
           ex_one_wf ex_one_list Hal Hx).
Defined.

Lemma push_keeps_every_iterator_valid_witness :
  (heap_wf (nodes ex_one)
   ∧ is_list ex_one 1%positive 10%positive [(11%positive, 5%Z)]
   ∧ alloc_succeeds ex_one 12%positive [None]
   ∧ ctor_throws ByCopy 9%Z = false)
  ∧ ∃ m', push AtFront ByCopy 1%positive 9%Z ex_one = Ok tt m'
        ∧ Front 1%positive m' = Ok 9%Z m'
        ∧ Iterator_deref (mkIter (Some 11%positive)) m' = Ok 5%Z m'.
Proof.
  assert (Hal : alloc_succeeds ex_one 12%positive [None]) by concrete.
  assert (Hx : ctor_throws ByCopy 9%Z = false) by reflexivity.
  split; [split; [exact ex_one_wf|split; [exact ex_one_list|by split]]|].
  destruct (push_keeps_every_iterator_valid AtFront ByCopy ex_one 1%positive
              10%positive [(11%positive, 5%Z)] 9%Z 12%positive [None]
              ex_one_wf ex_one_list Hal Hx)
    as (m' & Hrun & _ & Hfront & _ & _ & Hold & _).
  exists m'. split; [exact Hrun|]. split; [exact Hfront|].
  apply Hold, list_elem_of_here.
Defined.

Lemma erase_removes_one_element_witness :
  (heap_wf (nodes ex_A)
   ∧ is_list ex_A 1%positive 10%positive
       [(11%positive, 1%Z); (12%positive, 2%Z)]
   ∧ [(11%positive, 1%Z); (12%positive, 2%Z)].*2 !! 0 = Some 1%Z)
  ∧ ∃ a m', Erase 1%positive (mkIter (Some a)) ex_A = Ok tt m'
          ∧ traverse 1 1%positive m' = Ok [2%Z] m'
          ∧ Iterator_deref (mkIter (Some a)) m' = Undefined.
Proof.
  assert (Hv : [(11%positive, 1%Z); (12%positive, 2%Z)].*2 !! 0 = Some 1%Z)
    by reflexivity.
  split; [split; [exact ex_A_wf|split; [exact ex_A_list|exact Hv]]|].
  destruct (erase_removes_one_element ex_A 1%positive 10%positive
              [(11%positive, 1%Z); (12%positive, 2%Z)] 0 1%Z
              ex_A_wf ex_A_list Hv)
    as (a & m' & _ & _ & Hrun & _ & _ & Htrav & _ & Hdead & _).
  exists a, m'. split; [exact Hrun|]. split; [|exact Hdead].
  apply (Htrav 1). apply le_n.
Defined.

Lemma erase_through_another_list_witness :
  (is_list (ex_two []) 1%positive 10%positive []
   ∧ is_list (ex_two []) 2%positive 20%positive ([] ++ [(21%positive, 7%Z)])
   ∧ 1%positive ≠ 2%positive ∧ 10%positive ≠ 20%positive)
  ∧ ∃ m', Erase 1%positive (mkIter (Some 21%positive)) (ex_two []) = Ok tt m'
        ∧ ring (nodes m') 20%positive []
        ∧ Size 2%positive m' = Ok 1%Z m'
        ∧ Size 1%positive m' = Ok 18446744073709551615%Z m'.
Proof.
  destruct (ex_two_lists []) as (_ & H1 & H2).
  assert (Hne : 1%positive ≠ 2%positive) by done.
  assert (Hene : 10%positive ≠ 20%positive) by done.
  split; [split; [exact H1|split; [exact H2|by split]]|].
  destruct (erase_through_another_list (ex_two []) 1%positive 10%positive []
              2%positive 20%positive [] 21%positive 7%Z [] H1 H2 Hne Hene)
    as (m' & Hrun & HrB & HsB & _ & HsA & _).
  exists m'. split; [exact Hrun|]. split; [exact HrB|].
  split; [exact HsB|exact HsA].
Defined.

Lemma pop_on_empty_list_frees_the_sentinel_witness :
  is_list ex_empty 1%positive 10%positive []
  ∧ ∃ m', pop AtBack 1%positive ex_empty = Ok tt m'
        ∧ nodes m' = delete 10%positive (nodes ex_empty)
        ∧ IsEmpty 1%positive m' = Ok false m'
        ∧ List_destroy 1%positive m' = Undefined.
Proof.
  split; [exact ex_empty_list|].
  destruct (pop_on_empty_list_frees_the_sentinel AtBack ex_empty 1%positive
              10%positive ex_empty_list)
    as (m' & Hrun & Hn & _ & Hemp & _ & _ & Hd).
  exists m'. split; [exact Hrun|]. split; [exact Hn|].
  split; [exact Hemp|exact Hd].
Defined.

Section Footprints.
Context {T : Type} `{Element T}.
Implicit Types (h : gmap positive (ListNode (T:=T))).
Implicit Types (l : list (positive * T)).
Implicit Types (ns : list (positive * T)) (m : mem (T:=T)).

(** The destructor, with what it does to the heap. *)
Lemma List_destroy_exact m this e ns :
  heap_wf (nodes m) → is_list m this e ns →
  ∃ m', List_destroy this m = Ok tt m'
      ∧ (∀ b, b ∈ e :: ns.*1 → nodes m' !! b = None)
      ∧ (∀ b, b ∉ e :: ns.*1 → nodes m' !! b = nodes m !! b)
      ∧ lists m' = delete this (lists m)
      ∧ allocator m' = allocator m.
Proof.
  intros Hwf Hlist.
  destruct (clear_with_exact AtFront this e ns m Hwf Hlist)
    as (m1 & Hclear & [Hl1 Hr1] & _ & (Hrel & Hsame & _) & Hlf & Hal).
  pose proof Hr1 as (_ & He1 & _).
  destruct m1 as [h1 ls1 al1].
  unfold lists_frame in Hlf.
  cbn [nodes lists allocator length hd_addr last_addr pop] in *.
  eexists. split.
  { unfold List_destroy, end_lifetime. erewrite bind_Ok; [|exact Hclear].
    exec_top. reflexivity. }
  cbn [nodes lists allocator].
  split; [|split; [|split; [|done]]].
  - intros b Hb. destruct (decide (b = e)) as [->|Hbe].
    + by rewrite lookup_delete_eq.
    + rewrite lookup_delete_ne by done. apply Hrel; [|done].
      by intros ->%list_elem_of_singleton.
  - intros b Hb. assert (b ≠ e).
    { intros ->. apply Hb, list_elem_of_here. }
    rewrite lookup_delete_ne by done. apply Hsame; [|done].
    by intros ->%list_elem_of_singleton.
  - rewrite delete_insert_eq. apply map_eq. intros o.
    destruct (decide (o = this)) as [->|Ho].
    + by rewrite !lookup_delete_eq.
    + rewrite !lookup_delete_ne by done. by apply Hlf.
Qed.

(** X14.  The destructor of a list with its ring returns, releases the
    sentinel and every typed node, ends the object, and touches no other
    node and no other object; it allocates nothing. *)
Theorem destructor_releases_every_node m this e ns :
  heap_wf (nodes m) → is_list m this e ns →
  ∃ m', List_destroy this m = Ok tt m'
      ∧ (∀ b, b ∈ e :: ns.*1 → nodes m' !! b = None)
      ∧ (∀ b, b ∉ e :: ns.*1 → nodes m' !! b = nodes m !! b)
      ∧ lists m' = delete this (lists m)
      ∧ allocator m' = allocator m
      ∧ (∀ o eo nso, is_list m o eo nso → o ≠ this → eo ≠ e →
           is_list m' o eo nso).
Proof.
  intros Hwf Hlist.
  destruct (List_destroy_exact m this e ns Hwf Hlist)
    as (m' & Hrun & Hrel & Hkeep & Hl & Hal).
  exists m'. split; [done|]. split; [done|]. split; [done|].
  split; [done|]. split; [done|].
  intros o eo nso [Hlo Hro] Ho Heo. split.
  - rewrite Hl, lookup_delete_ne by done. exact Hlo.
  - apply (ring_frame (nodes m)); [|done]. intros b Hb. apply Hkeep.
    by apply (rings_disjoint (nodes m) eo nso e ns); [|apply Hlist| |].
Qed.

(** Allocation does not look at the [List] objects. *)
Lemma operator_new_throw_lists m rest ls' :
  operator_new m = Throw bad_alloc (mkMem (nodes m) (lists m) rest) →
  operator_new (mkMem (nodes m) ls' (allocator m))
  = Throw bad_alloc (mkMem (nodes m) ls' rest).
Proof.
  destruct m as [h ls al]. unfold operator_new. cbn [nodes lists allocator].
  destruct al as [|[a|] rest']; intros Hx.
  - by simplify_eq.
  - destruct (h !! a); [by simplify_eq|].
    destruct (a <? ADDRESS_LIMIT)%positive; by simplify_eq.
  - by simplify_eq.
Qed.

Lemma List_move_no_memory m this other L rest :
  lists m !! other = Some L → this ≠ other →
  operator_new m = Throw bad_alloc (mkMem (nodes m) (lists m) rest) →
  List_move this other m
  = Ok tt (mkMem (nodes m)
             (<[other := mkList nullptr 0]> (<[this := L]> (lists m)))
             rest).
Proof.
  intros Hl Hne Hnew. destruct m as [h ls al], L as [eL sL].
  cbn [nodes lists allocator] in *.
  pose proof (operator_new_throw_lists (mkMem h ls al) rest
                (<[this := mkList eL sL]> ls) Hnew) as Hnew'.
  cbn [nodes lists allocator] in Hnew'.
  unfold List_move, new_ListNode. unfold noexcept.
  erewrite bind_Ok; [|exec_top; reflexivity]. cbn [end_ size_].
  erewrite bind_Ok; [|exec_top; reflexivity].
  unfold try_catch. unfold bind at 1 2. rewrite Hnew'.
  exec_top. by rewrite insert_insert_eq.
Qed.

(** X15.  The move constructor cannot fail: whatever the allocator
    answers, it returns with the destination owning the nodes of the
    source unchanged and the source reporting empty; the source can then
    be destroyed without harm to the destination. *)
Theorem move_constructor_never_fails m this other e ns :
  heap_wf (nodes m) → is_list m other e ns → this ≠ other →
  ∃ m', List_move this other m = Ok tt m'
      ∧ is_list m' this e ns
      ∧ (∀ b, b ∈ e :: ns.*1 → nodes m' !! b = nodes m !! b)
      ∧ IsEmpty other m' = Ok true m'
      ∧ Size other m' = Ok 0%Z m'
      ∧ ∃ m'', List_destroy other m' = Ok tt m''
             ∧ is_list m'' this e ns
             ∧ lists m'' !! other = None.
Proof.
  intros Hwf Hother Hne.
  destruct (operator_new_cases m) as [(a & rest & Hal)|[rest Hfail]].
  - destruct (List_move_ok m this other e ns a rest Hwf Hother Hne Hal)
      as (m' & Hrun & Hthis & Hother' & Hwf' & _).
    exists m'. split; [done|]. split; [done|]. split.
    { intros b Hb.
      by apply (ring_lookup_eq (nodes m) (nodes m') e ns);
        [apply Hother|apply Hthis|]. }
    split; [by rewrite (IsEmpty_ok _ _ _ (proj1 Hother'))|].
    split; [by rewrite (Size_ok _ _ _ (proj1 Hother'))|].
    destruct (List_destroy_ok m' other a [] Hwf' Hother')
      as (m'' & Hrun' & Hl'' & _ & _ & _ & Hby).
    exists m''. split; [done|]. split.
    + split.
      * rewrite Hl'', lookup_delete_ne by done. apply Hthis.
      * apply Hby; [|apply Hthis]. intros ->.
        destruct Hal as (_ & Ha & _), Hother as [_ (_ & He & _)]. congruence.
    + by rewrite Hl'', lookup_delete_eq.
  - pose proof Hother as [Hl Hr].
    rewrite (List_move_no_memory m this other _ rest Hl Hne Hfail).
    eexists. split; [done|].
    assert (Hthis : is_list
              (mkMem (nodes m)
                 (<[other:=mkList nullptr 0]>
                    (<[this:=mkList (Some e) (Z.of_nat (length ns))]>
                       (lists m))) rest) this e ns).
    { split; cbn [nodes lists]; [|done].
      rewrite lookup_insert_ne by done. by rewrite lookup_insert_eq. }
    split; [done|]. split; [done|].
    split; [red_iter; by exec_top|]. split; [red_iter; by exec_top|].
    rewrite List_destroy_degraded by (cbn [lists]; by rewrite lookup_insert_eq).
    eexists. split; [done|]. unfold set_lists. cbn [nodes lists].
    split; [|by rewrite lookup_delete_eq].
    split; cbn [nodes lists]; [|done].
    rewrite lookup_delete_ne by done.
    rewrite lookup_insert_ne by done. by rewrite lookup_insert_eq.
Qed.

End Footprints.

Lemma destructor_releases_every_node_witness :
  (heap_wf (nodes ex_A)
   ∧ is_list ex_A 1%positive 10%positive
       [(11%positive, 1%Z); (12%positive, 2%Z)])
  ∧ ∃ m', List_destroy 1%positive ex_A = Ok tt m'
        ∧ (∀ b, b ∈ 10%positive
                    :: [(11%positive, 1%Z); (12%positive, 2%Z)].*1 →
                nodes m' !! b = None)
        ∧ lists m' = delete 1%positive (lists ex_A).
Proof.
  split; [split; [exact ex_A_wf|exact ex_A_list]|].
  destruct (destructor_releases_every_node ex_A 1%positive 10%positive
              [(11%positive, 1%Z); (12%positive, 2%Z)] ex_A_wf ex_A_list)
    as (m' & Hrun & Hrel & _ & Hl & _).
  exists m'. split; [exact Hrun|]. split; [exact Hrel|exact Hl].
Defined.

Lemma move_constructor_never_fails_witness :
  (heap_wf (nodes (ex_two [None]))
   ∧ is_list (ex_two [None]) 2%positive 20%positive [(21%positive, 7%Z)]
   ∧ 3%positive ≠ 2%positive)
  ∧ ∃ m', List_move 3%positive 2%positive (ex_two [None]) = Ok tt m'
        ∧ is_list m' 3%positive 20%positive [(21%positive, 7%Z)]
        ∧ ∃ m'', List_destroy 2%positive m' = Ok tt m''
               ∧ is_list m'' 3%positive 20%positive [(21%positive, 7%Z)].
Proof.
  destruct (ex_two_lists [None]) as (Hwf & _ & H2).
  assert (Hne : 3%positive ≠ 2%positive) by done.
  split; [split; [exact Hwf|split; [exact H2|exact Hne]]|].
  destruct (move_constructor_never_fails (ex_two [None]) 3%positive 2%positive
              20%positive [(21%positive, 7%Z)] Hwf H2 Hne)
    as (m' & Hrun & Hthis & _ & _ & _ & m'' & Hd & Hthis' & _).
  exists m'. split; [exact Hrun|]. split; [exact Hthis|].
  exists m''. split; [exact Hd|exact Hthis'].
Defined.

Section CopiesExact.
Context {T : Type} `{Element T}.
Implicit Types (h : gmap positive (ListNode (T:=T))).
Implicit Types (l todo : list (positive * T)).
Implicit Types (ns : list (positive * T)) (m : mem (T:=T)).

(** A back-insertion, with the address it used. *)
Lemma PushBack_exact this e ns m v :
  heap_wf (nodes m) → is_list m this e ns →
  match PushBack this v m with
  | Ok _ m' =>
      ∃ a, nodes m !! a = None
        ∧ evolved this e (ns ++ [(a, v)]) m m'
        ∧ footprint_kept e ns (ns ++ [(a, v)]) m m'
  | Throw ex m' =>
      (ex = bad_alloc ∨ ex = element_exn)
      ∧ nodes m' = nodes m ∧ lists m' = lists m
  | Terminate | Undefined | OutOfFuel => False
  end.
Proof.
  intros Hwf Hlist.
  change (PushBack this v m) with (push AtBack ByCopy this v m).
  destruct (operator_new_cases m) as [(a & rest & Hal)|[rest Hfail]].
  - destruct (copy_throws v) eqn:Hx.
    + rewrite (push_copy_throws AtBack m this v a rest Hal Hx).
      cbn [nodes lists]. auto.
    + destruct (push_ok AtBack ByCopy m this e ns v a rest Hwf Hlist Hal Hx)
        as (m' & -> & Hup).
      pose proof Hal as (_ & Ha & _).
      exists a. split; [done|]. split.
      * by apply (updated_push_evolved this e ns _ a rest).
      * by apply (footprint_push AtBack this e ns a v rest).
  - rewrite (push_bad_alloc AtBack ByCopy m this v _ Hfail).
    cbn [nodes lists]. auto.
Qed.

Lemma evolved_same this e ns m m' :
  heap_wf (nodes m) → is_list m this e ns →
  nodes m' = nodes m → lists m' = lists m → evolved this e ns m m'.
Proof.
  intros Hwf Hlist Hn Hl. destruct m as [h ls al], m' as [h' ls' al'].
  cbn [nodes lists] in Hn, Hl. subst h' ls'.
  by apply (evolved_alloc this e ns (mkMem h ls al)).
Qed.

(** The loop of the copy constructor, with the prefix it has copied when
    a push throws. *)
Lemma copy_loop_prefix this e other eo todo :
  ∀ done ns m fuel,
  heap_wf (nodes m) → is_list m this e ns →
  is_list m other eo (done ++ todo) → e ≠ eo → this ≠ other →
  length todo ≤ fuel →
  match copy_loop fuel this other (Some (hd_addr todo eo)) m with
  | Ok _ m' =>
      ∃ ns', ns'.*2 = ns.*2 ++ todo.*2 ∧ evolved this e ns' m m'
             ∧ footprint_kept e ns ns' m m'
  | Throw ex m' =>
      (ex = bad_alloc ∨ ex = element_exn)
      ∧ ∃ ns' k, k < length todo ∧ ns'.*2 = ns.*2 ++ take k (todo.*2)
                 ∧ evolved this e ns' m m' ∧ footprint_kept e ns ns' m m'
  | Terminate | Undefined | OutOfFuel => False
  end.
Proof.
  induction todo as [|[a v] todo IH];
    intros done ns m fuel Hwf Hlist Hother Hene Hne Hfuel;
    rewrite copy_loop_eq;
    (erewrite bind_Ok; [|destruct Hother as [Hl _]; exec_top; reflexivity]).
  - cbn [hd_addr]. rewrite decide_False by (intros Hx; by apply Hx).
    exists ns. split; [by rewrite app_nil_r|].
    split; [by apply evolved_refl|apply footprint_refl].
  - cbn [hd_addr]. cbn [length] in Hfuel.
    destruct fuel as [|fuel]; [lia|].
    pose proof (ring_sentinel_ne _ _ _ _ _ _ (proj2 Hother)) as Hao.
    rewrite decide_True by congruence.
    pose proof (chain_lookup _ _ _ _ _ _ _ (proj2 (proj2 (proj2 Hother))))
      as Ha.
    erewrite bind_Ok; [|exec_top; reflexivity].
    pose proof (PushBack_exact this e ns m v Hwf Hlist) as Hpush.
    unfold bind at 1.
    destruct (PushBack this v m) as [[] m1|ex m1| | |]; try done.
    + destruct Hpush as (b & Hb & Hev1 & Hfp1).
      pose proof Hev1 as (Hlist1 & Hwf1 & _).
      pose proof (evolved_other _ _ _ _ _ _ _ _ Hev1 Hother Hne Hene)
        as Hother1.
      pose proof (chain_lookup _ _ _ _ _ _ _
                    (proj2 (proj2 (proj2 Hother1)))) as Ha1.
      erewrite bind_Ok; [|exec_top; reflexivity]. cbn [next_].
      rewrite cons_middle, app_assoc in Hother1.
      specialize (IH (done ++ [(a, v)]) (ns ++ [(b, v)]) m1 fuel Hwf1 Hlist1
                    Hother1 Hene Hne ltac:(lia)).
      destruct (copy_loop fuel this other (Some (hd_addr todo eo)) m1)
        as [[] m2|ex m2| | |]; try done.
      * destruct IH as (ns2 & Hvs2 & Hev2 & Hfp2). exists ns2. split.
        -- rewrite Hvs2, fmap_app, fmap_cons, <- app_assoc. done.
        -- split; [by apply (evolved_trans this e (ns ++ [(b, v)]) ns2 m m1 m2)|].
           by apply (footprint_trans e ns (ns ++ [(b, v)]) ns2 m m1 m2).
      * destruct IH as (Hex & ns2 & k & Hk & Hvs2 & Hev2 & Hfp2).
        split; [done|]. exists ns2, (S k). split; [cbn [length]; lia|].
        split.
        -- rewrite Hvs2, fmap_app, !fmap_cons, <- app_assoc. done.
        -- split; [by apply (evolved_trans this e (ns ++ [(b, v)]) ns2 m m1 m2)|].
           by apply (footprint_trans e ns (ns ++ [(b, v)]) ns2 m m1 m2).
    + destruct Hpush as (Hex & Hn1 & Hl1). split; [done|].
      exists ns, 0. split; [cbn [length]; lia|].
      split; [by rewrite take_0, app_nil_r|].
      split; [by apply evolved_same|by apply footprint_same_heap].
Qed.

(** The loop of copy assignment, likewise. *)
Lemma assign_loop_prefix this e other eo todo :
  ∀ done ns m fuel,
  heap_wf (nodes m) → is_list m this e ns →
  is_list m other eo (done ++ todo) → e ≠ eo → this ≠ other →
  length todo ≤ fuel →
  match assign_loop fuel this other (mkIter (Some (hd_addr todo eo))) m with
  | Ok _ m' =>
      ∃ ns', ns'.*2 = ns.*2 ++ todo.*2 ∧ evolved this e ns' m m'
             ∧ footprint_kept e ns ns' m m'
  | Throw ex m' =>
      (ex = bad_alloc ∨ ex = element_exn)
      ∧ ∃ ns' k, k < length todo ∧ ns'.*2 = ns.*2 ++ take k (todo.*2)
                 ∧ evolved this e ns' m m' ∧ footprint_kept e ns ns' m m'
  | Terminate | Undefined | OutOfFuel => False
  end.
Proof.
  induction todo as [|[a v] todo IH];
    intros done ns m fuel Hwf Hlist Hother Hene Hne Hfuel;
    rewrite assign_loop_eq;
    (erewrite bind_Ok; [|by apply (End_ok _ _ _ (proj1 Hother))]);
    unfold Iterator_ne; cbn [iter_ end_ hd_addr].
  - rewrite bool_decide_true by done. cbn [negb].
    exists ns. split; [by rewrite app_nil_r|].
    split; [by apply evolved_refl|apply footprint_refl].
  - cbn [length] in Hfuel. destruct fuel as [|fuel]; [lia|].
    pose proof (ring_sentinel_ne _ _ _ _ _ _ (proj2 Hother)) as Hao.
    rewrite bool_decide_false by congruence. cbn [negb].
    pose proof (chain_lookup _ _ _ _ _ _ _ (proj2 (proj2 (proj2 Hother))))
      as Ha.
    erewrite bind_Ok; [|red_iter; exec_top; reflexivity].
    pose proof (PushBack_exact this e ns m v Hwf Hlist) as Hpush.
    unfold bind at 1.
    destruct (PushBack this v m) as [[] m1|ex m1| | |]; try done.
    + destruct Hpush as (b & Hb & Hev1 & Hfp1).
      pose proof Hev1 as (Hlist1 & Hwf1 & _).
      pose proof (evolved_other _ _ _ _ _ _ _ _ Hev1 Hother Hne Hene)
        as Hother1.
      pose proof (chain_lookup _ _ _ _ _ _ _
                    (proj2 (proj2 (proj2 Hother1)))) as Ha1.
      erewrite bind_Ok; [|red_iter; exec_top; reflexivity]. cbn [next_].
      rewrite cons_middle, app_assoc in Hother1.
      specialize (IH (done ++ [(a, v)]) (ns ++ [(b, v)]) m1 fuel Hwf1 Hlist1
                    Hother1 Hene Hne ltac:(lia)).
      destruct (assign_loop fuel this other
                  (mkIter (Some (hd_addr todo eo))) m1)
        as [[] m2|ex m2| | |]; try done.
      * destruct IH as (ns2 & Hvs2 & Hev2 & Hfp2). exists ns2. split.
        -- rewrite Hvs2, fmap_app, fmap_cons, <- app_assoc. done.
        -- split; [by apply (evolved_trans this e (ns ++ [(b, v)]) ns2 m m1 m2)|].
           by apply (footprint_trans e ns (ns ++ [(b, v)]) ns2 m m1 m2).
      * destruct IH as (Hex & ns2 & k & Hk & Hvs2 & Hev2 & Hfp2).
        split; [done|]. exists ns2, (S k). split; [cbn [length]; lia|].
        split.
        -- rewrite Hvs2, fmap_app, !fmap_cons, <- app_assoc. done.
        -- split; [by apply (evolved_trans this e (ns ++ [(b, v)]) ns2 m m1 m2)|].
           by apply (footprint_trans e ns (ns ++ [(b, v)]) ns2 m m1 m2).
    + destruct Hpush as (Hex & Hn1 & Hl1). split; [done|].
      exists ns, 0. split; [cbn [length]; lia|].
      split; [by rewrite take_0, app_nil_r|].
      split; [by apply evolved_same|by apply footprint_same_heap].
Qed.

(** The member initialisation and the first two statements of the copy
    constructor, with the memory they leave. *)
Lemma ctor_init_run h ls a rest this :
  h !! a = None → (a < ADDRESS_LIMIT)%positive →
  ∀ A (K : M (T:=T) A),
    bind new_ListNode (λ e,
    bind (write_list this (mkList (Some e) 0)) (λ _,
    bind (get_end this) (λ e1,
    bind (SetNext e1 e1) (λ _,
    bind (get_end this) (λ e2,
    bind (SetPrev e2 e2) (λ _, K))))))
      (mkMem h ls (Some a :: rest))
    = K (mkMem (<[a := mkNode (Some a) (Some a) None]> h)
           (<[this := mkList (Some a) 0]> ls) rest).
Proof.
  intros Ha Hlt A K. apply Pos.ltb_lt in Hlt.
  unfold new_ListNode, operator_new.
  exec_top. rewrite Hlt. exec_top. by rewrite !insert_insert_eq.
Qed.

(** Copy construction, with what it does to the heap. *)
Lemma List_copy_exact m this other eo nso fuel :
  heap_wf (nodes m) → is_list m other eo nso → this ≠ other →
  lists m !! this = None → length nso ≤ fuel →
  match List_copy fuel this other m with
  | Ok _ m' =>
      ∃ e ns, is_list m' this e ns ∧ ns.*2 = nso.*2
              ∧ (∀ b, b ∈ e :: ns.*1 → nodes m !! b = None)
              ∧ (∀ b, b ∉ e :: ns.*1 → nodes m' !! b = nodes m !! b)
              ∧ heap_wf (nodes m') ∧ lists_frame this m m'
  | Throw ex m' =>
      (ex = bad_alloc ∨ ex = element_exn)
      ∧ lists m' = lists m
      ∧ (nodes m' = nodes m
         ∨ ∃ e ns k, ring (nodes m') e ns
                     ∧ k < length nso ∧ ns.*2 = take k (nso.*2)
                     ∧ (∀ b, b ∈ e :: ns.*1 → nodes m !! b = None)
                     ∧ (∀ b, b ∉ e :: ns.*1 → nodes m' !! b = nodes m !! b))
  | Terminate | Undefined | OutOfFuel => False
  end.
Proof.
  intros Hwf Hother Hne Hnone Hfuel. unfold List_copy, constructor, try_catch.
  destruct (operator_new_cases m) as [(a & rest & Hal & Ha & Hlt)|[rest Hfail]].
  - destruct m as [h ls al]. cbn [nodes lists allocator] in *. subst al.
    rewrite (ctor_init_run h ls a rest this Ha Hlt).
    set (m0 := mkMem (<[a := mkNode (Some a) (Some a) None]> h)
                 (<[this := mkList (Some a) 0]> ls) rest).
    assert (Hae : a ≠ eo).
    { intros ->. destruct Hother as [_ (_ & He & _)].
      cbn [nodes] in He. congruence. }
    assert (Hlist0 : is_list m0 this a []).
    { unfold m0. split; cbn [nodes lists length]; [by rewrite lookup_insert_eq|].
      apply ring_empty_intro. by rewrite lookup_insert_eq. }
    assert (Hwf0 : heap_wf (nodes m0)).
    { unfold m0. apply (heap_wf_frame [a] h); [done| |].
      - intros b Hb. apply not_elem_of_cons in Hb as [Hb _].
        cbn [nodes]. by rewrite lookup_insert_ne.
      - by intros b ->%list_elem_of_singleton. }
    assert (Hother0 : is_list m0 other eo nso).
    { unfold m0. destruct Hother as [Hl Hr]. split; cbn [nodes lists] in *.
      - by rewrite lookup_insert_ne.
      - apply (ring_frame h); [|done]. intros b Hb.
        apply lookup_insert_ne. intros <-.
        destruct (ring_live _ _ _ _ Hr Hb) as [? ?]. congruence. }
    pose proof Hother0 as [Hl0 (_ & He0 & _)].
    erewrite bind_Ok; [|exec_top; reflexivity].
    erewrite bind_Ok; [|exec_top; reflexivity]. cbn [next_].
    pose proof (copy_loop_prefix this a other eo nso [] [] m0 fuel
                  Hwf0 Hlist0 Hother0 Hae Hne Hfuel) as Hloop.
    assert (Hfresh : ∀ ns' m1, footprint_kept a [] ns' m0 m1 →
              (∀ b, b ∈ a :: ns'.*1 → h !! b = None)
              ∧ (∀ b, b ∉ a :: ns'.*1 → nodes m1 !! b = h !! b)).
    { unfold m0. intros ns' m1 (_ & Hsame & Hnew). split.
      - intros b Hb. destruct (decide (b = a)) as [->|Hba]; [done|].
        rewrite <- (Hnew b Hb).
        + cbn [nodes]. by rewrite lookup_insert_ne.
        + by intros ->%list_elem_of_singleton.
      - intros b Hb. rewrite Hsame; [|done|].
        + cbn [nodes]. rewrite lookup_insert_ne; [done|].
          intros <-. apply Hb, list_elem_of_here.
        + intros ->%list_elem_of_singleton. apply Hb, list_elem_of_here. }
    destruct (copy_loop fuel this other (Some (hd_addr nso eo)) m0)
      as [[] m1|ex m1| | |]; try done.
    + destruct Hloop as (ns & Hvs & (Hlist1 & Hwf1 & Hlf1 & _) & Hfp).
      destruct (Hfresh ns m1 Hfp) as [Hf1 Hf2].
      exists a, ns. split; [exact Hlist1|]. split; [exact Hvs|].
      split; [exact Hf1|]. split; [exact Hf2|]. split; [exact Hwf1|].
      intros o Ho. rewrite Hlf1 by done. unfold m0. cbn [lists].
      by rewrite lookup_insert_ne.
    + destruct Hloop as (Hex & ns & k & Hk & Hvs & (Hlist1 & _ & Hlf1 & _) & Hfp).
      destruct (Hfresh ns m1 Hfp) as [Hf1 Hf2].
      unfold end_lifetime, throw, bind, set_lists. cbn [nodes lists].
      split; [done|]. split.
      * apply map_eq. intros o. destruct (decide (o = this)) as [->|Ho].
        -- by rewrite lookup_delete_eq.
        -- rewrite lookup_delete_ne by done. rewrite Hlf1 by done.
           unfold m0. cbn [lists]. by rewrite lookup_insert_ne.
      * right. exists a, ns, k. split; [apply Hlist1|].
        split; [exact Hk|]. split; [exact Hvs|].
        split; [exact Hf1|exact Hf2].
  - unfold new_ListNode. unfold bind at 1 2. rewrite Hfail.
    unfold end_lifetime, throw, bind, set_lists. cbn [nodes lists].
    split; [by left|]. split; [by apply delete_id|]. by left.
Qed.


(** X17.  A list copy-constructed into storage without an object and then
    destroyed leaves no trace: the heap and the [List] objects are exactly
    as before.  When the copy throws, no object is left behind. *)
Theorem destroyed_copy_leaves_no_trace m this other eo nso fuel :
  heap_wf (nodes m) → is_list m other eo nso → this ≠ other →
  lists m !! this = None → length nso ≤ fuel →
  match (List_copy fuel this other;; List_destroy this) m with
  | Ok _ m' => nodes m' = nodes m ∧ lists m' = lists m
  | Throw ex m' => (ex = bad_alloc ∨ ex = element_exn) ∧ lists m' = lists m
  | Terminate | Undefined | OutOfFuel => False
  end.
Proof.
  intros Hwf Hother Hne Hnone Hfuel.
  pose proof (List_copy_exact m this other eo nso fuel
                Hwf Hother Hne Hnone Hfuel) as Hcopy.
  unfold bind.
  destruct (List_copy fuel this other m) as [[] m1|ex m1| | |]; try done.
  - destruct Hcopy as (e & ns & Hlist & _ & Hfresh & Hframe & Hwf1 & Hlf).
    destruct (List_destroy_exact m1 this e ns Hwf1 Hlist)
      as (m2 & -> & Hrel & Hkeep & Hl2 & _).
    split.
    + apply map_eq. intros b.
      destruct (decide (b ∈ e :: ns.*1)) as [Hin|Hout].
      * by rewrite (Hrel b Hin), (Hfresh b Hin).
      * by rewrite (Hkeep b Hout), (Hframe b Hout).
    + rewrite Hl2. apply map_eq. intros o.
      destruct (decide (o = this)) as [->|Ho].
      * by rewrite lookup_delete_eq.
      * rewrite lookup_delete_ne by done. by apply Hlf.
  - by destruct Hcopy as (Hex & Hl & _).
Qed.

(** X18.  Copy assignment between distinct lists.  On success [this]
    holds the values of [other] on its own sentinel, [other] is untouched,
    and the old nodes of [this] are released (or taken again for the new
    elements).  When a push throws, [this]
    holds a strict prefix of the values of [other] (its old contents are
    gone) and both lists are still well formed.  Self-assignment changes
    nothing. *)
Theorem copy_assignment_replaces_contents m this e ns other eo nso fuel :
  heap_wf (nodes m) → is_list m this e ns → is_list m other eo nso →
  this ≠ other → e ≠ eo → length nso ≤ fuel →
  match List_copy_assign fuel this other m with
  | Ok _ m' =>
      ∃ ns', ns'.*2 = nso.*2
             ∧ is_list m' this e ns' ∧ is_list m' other eo nso
             ∧ footprint_kept e ns ns' m m'
  | Throw ex m' =>
      (ex = bad_alloc ∨ ex = element_exn)
      ∧ ∃ ns' k, k < length nso ∧ ns'.*2 = take k (nso.*2)
                 ∧ is_list m' this e ns' ∧ is_list m' other eo nso
                 ∧ footprint_kept e ns ns' m m'
  | Terminate | Undefined | OutOfFuel => False
  end
  ∧ List_copy_assign fuel this this m = Ok tt m.
Proof.
  intros Hwf Hlist Hother Hne Hene Hfuel. split.
  2:{ unfold List_copy_assign. by rewrite decide_False by auto. }
  unfold List_copy_assign. rewrite decide_True by done.
  destruct (clear_with_exact AtBack this e ns m Hwf Hlist)
    as (m1 & Hclear & Hlist1 & Hwf1 & Hfp1 & Hlf1 & Hal1).
  cbn [pop] in Hclear.
  assert (Hother1 : is_list m1 other eo nso).
  { destruct Hother as [Hl Hr]. split; [by rewrite Hlf1|].
    by apply (footprint_other_ring e ns [] m m1 eo nso Hfp1 (proj2 Hlist)). }
  erewrite bind_Ok; [|exact Hclear].
  erewrite bind_Ok; [|by apply (Begin_ok m1 other eo nso)].
  pose proof (assign_loop_prefix this e other eo nso [] [] m1 fuel
                Hwf1 Hlist1 Hother1 Hene Hne Hfuel) as Hloop.
  destruct (assign_loop fuel this other (mkIter (Some (hd_addr nso eo))) m1)
    as [[] m2|ex m2| | |]; try done.
  - destruct Hloop as (ns2 & Hvs & Hev2 & Hfp2). exists ns2.
    split; [done|]. split; [apply Hev2|]. split.
    + by apply (evolved_other this e ns2 m1 m2 other eo nso).
    + by apply (footprint_trans e ns [] ns2 m m1 m2).
  - destruct Hloop as (Hex & ns2 & k & Hk & Hvs & Hev2 & Hfp2).
    split; [done|]. exists ns2, k. split; [done|]. split; [done|].
    split; [apply Hev2|]. split.
    + by apply (evolved_other this e ns2 m1 m2 other eo nso).
    + by apply (footprint_trans e ns [] ns2 m m1 m2).
Qed.

End CopiesExact.


Lemma destroyed_copy_leaves_no_trace_witness :
  (heap_wf (nodes ex_A)
   ∧ is_list ex_A 1%positive 10%positive
       [(11%positive, 1%Z); (12%positive, 2%Z)]
   ∧ 2%positive ≠ 1%positive
   ∧ lists ex_A !! 2%positive = None)
  ∧ ∃ m', (List_copy 2 2%positive 1%positive;; List_destroy 2%positive) ex_A
          = Ok tt m'
        ∧ nodes m' = nodes ex_A ∧ lists m' = lists ex_A.
Proof.
  assert (Hne : 2%positive ≠ 1%positive) by done.
  assert (Hn : lists ex_A !! 2%positive = None) by reflexivity.
  split; [split; [exact ex_A_wf|split; [exact ex_A_list|by split]]|].
  pose proof (destroyed_copy_leaves_no_trace ex_A 2%positive 1%positive
                10%positive [(11%positive, 1%Z); (12%positive, 2%Z)] 2
                ex_A_wf ex_A_list Hne Hn (le_n 2)) as Hthm.
  destruct ((List_copy 2 2%positive 1%positive;; List_destroy 2%positive)
              ex_A) as [[] m'|ex m'| | |] eqn:Hrun;
    try (by vm_compute in Hrun).
  exists m'. split; [reflexivity|exact Hthm].
Defined.

Lemma copy_assignment_replaces_contents_witness :
  (heap_wf (nodes (ex_two [Some 30%positive]))
   ∧ is_list (ex_two [Some 30%positive]) 1%positive 10%positive []
   ∧ is_list (ex_two [Some 30%positive]) 2%positive 20%positive
       [(21%positive, 7%Z)]
   ∧ 1%positive ≠ 2%positive ∧ 10%positive ≠ 20%positive)
  ∧ ∃ m' ns',
      List_copy_assign 1 1%positive 2%positive (ex_two [Some 30%positive])
      = Ok tt m'
      ∧ ns'.*2 = [7%Z]
      ∧ is_list m' 1%positive 10%positive ns'
      ∧ is_list m' 2%positive 20%positive [(21%positive, 7%Z)].
Proof.
  destruct (ex_two_lists [Some 30%positive]) as (Hwf & H1 & H2).
  assert (Hne : 1%positive ≠ 2%positive) by done.
  assert (Hene : 10%positive ≠ 20%positive) by done.
  split; [split; [exact Hwf|split; [exact H1|split; [exact H2|by split]]]|].
  pose proof (proj1 (copy_assignment_replaces_contents
                       (ex_two [Some 30%positive]) 1%positive 10%positive []
                       2%positive 20%positive [(21%positive, 7%Z)] 1
                       Hwf H1 H2 Hne Hene (le_n 1))) as Hthm.
  destruct (List_copy_assign 1 1%positive 2%positive
              (ex_two [Some 30%positive])) as [[] m'|ex m'| | |] eqn:Hrun;
    try (by vm_compute in Hrun).
  destruct Hthm as (ns' & Hvs & Hthis & Hother & _).
  exists m', ns'. split; [reflexivity|]. split; [exact Hvs|].
  split; [exact Hthis|exact Hother].
Defined.

Section MoveAssignExact.
Context {T : Type} `{Element T}.
Implicit Types (h : gmap positive (ListNode (T:=T))).
Implicit Types (l : list (positive * T)).
Implicit Types (ns : list (positive * T)) (m : mem (T:=T)).

(** X19.  Move assignment between distinct lists cannot fail: it returns
    with [this] owning the nodes of [other] unchanged, and the old nodes
    of [this] released.  What becomes of [other] is decided by the
    allocator's answer to the one request, made after that release: with
    an address [a] that is unused or was just released, [other] is an
    empty ring on [a] and the allocator has moved on to [rest]; with any
    other answer, [other] is left with a null [end_] next to its old
    [size_], and every old node of [this] is gone. *)
Theorem move_assignment_never_fails_and_releases m this other e1 ns1 e2 ns2 :
  heap_wf (nodes m) → is_list m this e1 ns1 → is_list m other e2 ns2 →
  this ≠ other → e1 ≠ e2 →
  ∃ m', List_move_assign this other m = Ok tt m'
      ∧ is_list m' this e2 ns2
      ∧ (∀ b, b ∈ e2 :: ns2.*1 → nodes m' !! b = nodes m !! b)
      ∧ (∀ a rest, alloc_succeeds_after m (e1 :: ns1.*1) a rest →
           is_list m' other a [] ∧ allocator m' = rest
           ∧ ∀ b, b ∈ e1 :: ns1.*1 → b ≠ a → nodes m' !! b = None)
      ∧ ((¬ ∃ a rest, alloc_succeeds_after m (e1 :: ns1.*1) a rest) →
           lists m' !! other = Some (mkList nullptr (Z.of_nat (length ns2)))
           ∧ ∀ b, b ∈ e1 :: ns1.*1 → nodes m' !! b = None).
Proof.
  intros Hwf Hlist1 Hlist2 Hne Hene.
  destruct (List_move_assign_exact m this other e1 ns1 e2 ns2
              Hwf Hlist1 Hlist2 Hne Hene)
    as (m' & Hrun & Hthis & _ & _ & Hkeep & Hsucc & Hfail).
  exists m'. split; [done|]. split; [done|]. split; [done|]. split.
  - intros a rest Hal.
    destruct (Hsucc a rest Hal) as (Hother & Hrest & _ & Hrel & _). done.
  - intros Hno. destruct (Hfail Hno) as (Hother & Hrel & _). done.
Qed.

End MoveAssignExact.

Section SequencesExact.
Context {T : Type} `{Element T}.
Implicit Types (h : gmap positive (ListNode (T:=T))).
Implicit Types (l : list (positive * T)).
Implicit Types (ns : list (positive * T)) (m : mem (T:=T)).
Implicit Types (ops : list (op (T:=T))) (vs : list T).

(** One operation, with what it does to the heap. *)
Lemma run_op_exact this e o ns m vs' :
  heap_wf (nodes m) → is_list m this e ns →
  apply_op o (ns.*2) = Some vs' →
  match run_op this o m with
  | Ok _ m' =>
      ∃ ns', ns'.*2 = vs' ∧ is_list m' this e ns' ∧ heap_wf (nodes m')
             ∧ footprint_kept e ns ns' m m' ∧ lists_frame this m m'
  | Throw ex m' => nodes m' = nodes m ∧ lists m' = lists m
  | Terminate => True
  | Undefined | OutOfFuel => False
  end.
Proof.
  intros Hwf Hlist Happ. destruct o as [s p x| | |k]; cbn [run_op].
  - (* push *)
    destruct (operator_new_cases m) as [(a & rest & Hal)|[rest Hfail]].
    + destruct (ctor_throws p x) eqn:Hx.
      * destruct p; cbn [ctor_throws] in Hx.
        -- by rewrite (push_copy_throws s m this x a rest Hal Hx).
        -- by rewrite (push_move_throws s m this x a rest Hal Hx).
      * destruct (push_ok s p m this e ns x a rest Hwf Hlist Hal Hx)
          as (m' & -> & Hup).
        exists (placed s a x ns). split; [|split; [|split; [|split]]].
        -- rewrite fmap_snd_placed. destruct s; cbn in Happ; congruence.
        -- apply Hup.
        -- apply Hup.
        -- apply (footprint_push s this e ns a x rest); [apply Hal|done].
        -- apply Hup.
    + by rewrite (push_bad_alloc s p m this x _ Hfail).
  - (* PopBack *)
    destruct (snoc_case ns) as [->|(l & a & v & ->)]; [done|].
    destruct (PopBack_ok m this e l a v Hwf Hlist) as (m' & -> & Hup & Ha).
    exists l. split; [|split; [|split; [|split]]].
    + rewrite fmap_app, fmap_cons, fmap_nil in Happ. cbn [snd] in Happ.
      rewrite apply_pop_back in Happ. congruence.
    + apply Hup.
    + apply Hup.
    + pose proof (footprint_unlink this e l a v [] (allocator m) m m') as Hfp.
      rewrite app_nil_r in Hfp. by apply Hfp.
    + apply Hup.
  - (* PopFront *)
    cbn [apply_op] in Happ. destruct ns as [|[a v] l]; [done|].
    destruct (PopFront_ok m this e a v l Hwf Hlist) as (m' & -> & Hup & Ha).
    exists l. split; [|split; [|split; [|split]]].
    + cbn in Happ. congruence.
    + apply Hup.
    + apply Hup.
    + by apply (footprint_unlink this e [] a v l (allocator m) m m').
    + apply Hup.
  - (* Erase *)
    cbn [apply_op] in Happ. case_decide as Hk; [|done].
    rewrite length_fmap in Hk.
    erewrite bind_Ok; [|by apply (Begin_ok m this e ns)].
    erewrite bind_Ok; [|apply (advance_chain m e ns e k);
                         [apply Hlist|done]].
    assert (Hvs : (delete k ns).*2 = vs').
    { rewrite list_fmap_delete. congruence. }
    rewrite delete_take_drop in Hvs.
    destruct (drop k ns) as [|[a v] l2] eqn:Hdrop.
    + assert (Hlen : length ns ≤ k).
      { destruct (decide (length ns ≤ k)) as [|Hn]; [done|].
        apply (f_equal length) in Hdrop. rewrite length_drop in Hdrop.
        simpl in Hdrop. lia. }
      rewrite take_ge, drop_ge, app_nil_r in Hvs by lia.
      cbn [hd_addr]. unfold Erase. cbn [iter_].
      erewrite bind_Ok; [|destruct Hlist as [Hl _]; exec_top; reflexivity].
      rewrite decide_False by (intros Hne; by apply Hne).
      exists ns. split; [done|]. split; [done|]. split; [done|].
      split; [apply footprint_refl|by intros o Ho].
    + assert (Hsplit : ns = take k ns ++ (a, v) :: l2).
      { by rewrite <- Hdrop, take_drop. }
      assert (Hl2 : drop (S k) ns = l2).
      { replace (S k) with (k + 1) by lia.
        by rewrite <- drop_drop, Hdrop. }
      rewrite Hl2 in Hvs. cbn [hd_addr].
      pose proof Hlist as Hlist0. rewrite Hsplit in Hlist0.
      destruct (Erase_node m this e (take k ns) a v l2 Hwf Hlist0)
        as (m' & -> & Hup & Ha).
      exists (take k ns ++ l2). split; [done|].
      split; [apply Hup|]. split; [apply Hup|]. split; [|apply Hup].
      rewrite Hsplit at 1.
      by apply (footprint_unlink this e (take k ns) a v l2 (allocator m)).
Qed.

Lemma footprint_tight e ns ns' m m' :
  footprint_kept e ns ns' m m' →
  (∀ b, b ∉ e :: ns.*1 → nodes m !! b = None) →
  ∀ b, b ∉ e :: ns'.*1 → nodes m' !! b = None.
Proof.
  intros (Hrel & Hsame & _) Htight b Hb.
  destruct (decide (b ∈ e :: ns.*1)) as [Hin|Hout].
  - by apply Hrel.
  - rewrite Hsame by done. by apply Htight.
Qed.

(** A whole sequence, with what it does to the heap; when a push throws,
    the operations before it have taken effect. *)
Lemma run_ops_exact this e ops :
  ∀ ns m vs', heap_wf (nodes m) → is_list m this e ns →
  apply_ops ops (ns.*2) = Some vs' →
  match run_ops this ops m with
  | Ok _ m' =>
      ∃ ns', ns'.*2 = vs' ∧ is_list m' this e ns' ∧ heap_wf (nodes m')
             ∧ footprint_kept e ns ns' m m' ∧ lists_frame this m m'
  | Throw ex m' =>
      ∃ ns', is_list m' this e ns' ∧ heap_wf (nodes m')
             ∧ footprint_kept e ns ns' m m' ∧ lists_frame this m m'
  | Terminate => True
  | Undefined | OutOfFuel => False
  end.
Proof.
  induction ops as [|o ops IH]; intros ns m vs' Hwf Hlist Happ.
  - cbn in *. exists ns. split; [congruence|].
    split; [done|]. split; [done|]. split; [apply footprint_refl|].
    by intros o Ho.
  - cbn [apply_ops] in Happ.
    destruct (apply_op o ns.*2) as [vs1|] eqn:Hop; [|done].
    pose proof (run_op_exact this e o ns m vs1 Hwf Hlist Hop) as Hstep.
    cbn [run_ops]. unfold bind at 1.
    destruct (run_op this o m) as [[] m1|ex m1| | |]; try done.
    + destruct Hstep as (ns1 & Hvs1 & Hlist1 & Hwf1 & Hfp1 & Hlf1). subst vs1.
      specialize (IH ns1 m1 vs' Hwf1 Hlist1 Happ).
      destruct (run_ops this ops m1) as [[] m2|ex m2| | |]; try done.
      * destruct IH as (ns2 & Hvs2 & Hlist2 & Hwf2 & Hfp2 & Hlf2). exists ns2.
        split; [done|]. split; [done|]. split; [done|]. split.
        -- by apply (footprint_trans e ns ns1 ns2 m m1 m2).
        -- intros o' Ho'. rewrite Hlf2, Hlf1; done.
      * destruct IH as (ns2 & Hlist2 & Hwf2 & Hfp2 & Hlf2). exists ns2.
        split; [done|]. split; [done|]. split.
        -- by apply (footprint_trans e ns ns1 ns2 m m1 m2).
        -- intros o' Ho'. rewrite Hlf2, Hlf1; done.
    + destruct Hstep as [Hn Hl]. exists ns. split; [|split; [|split]].
      * destruct Hlist as [Hl0 Hr0]. split; [by rewrite Hl|by rewrite Hn].
      * by rewrite Hn.
      * by apply footprint_same_heap.
      * intros o' Ho'. by rewrite Hl.
Qed.

(** X20.  Any sequence of pushes, pops and erases applied within the
    preconditions, whether it completes or a push throws part way: the
    list is well formed on the same sentinel ([End()] is stable), [Size()]
    is the number of elements, every node that left the list is released,
    every new node sits at an address that was free, and every other
    address holds what it held.  In particular, when the heap held nothing
    but the list, it holds nothing but the list afterwards: no node
    leaks. *)
Theorem sequences_never_leak this e ns m ops vs' :
  heap_wf (nodes m) → is_list m this e ns →
  apply_ops ops (ns.*2) = Some vs' →
  match run_ops this ops m with
  | Ok _ m' =>
      ∃ ns', ns'.*2 = vs' ∧ is_list m' this e ns'
             ∧ Size this m' = Ok (Z.of_nat (length vs')) m'
             ∧ End this m' = Ok (mkIter (Some e)) m'
             ∧ footprint_kept e ns ns' m m'
             ∧ ((∀ b, b ∉ e :: ns.*1 → nodes m !! b = None) →
                ∀ b, b ∉ e :: ns'.*1 → nodes m' !! b = None)
  | Throw ex m' =>
      ∃ ns', is_list m' this e ns'
             ∧ End this m' = Ok (mkIter (Some e)) m'
             ∧ footprint_kept e ns ns' m m'
             ∧ ((∀ b, b ∉ e :: ns.*1 → nodes m !! b = None) →
                ∀ b, b ∉ e :: ns'.*1 → nodes m' !! b = None)
  | Terminate => True
  | Undefined | OutOfFuel => False
  end.
Proof.
  intros Hwf Hlist Happ.
  pose proof (run_ops_exact this e ops ns m vs' Hwf Hlist Happ) as Hgen.
  destruct (run_ops this ops m) as [[] m'|ex m'| | |]; try done.
  - destruct Hgen as (ns' & Hvs & Hlist' & _ & Hfp & _). exists ns'.
    split; [done|]. split; [done|]. split.
    { rewrite (Size_ok _ _ _ (proj1 Hlist')). cbn [size_].
      by rewrite <- Hvs, length_fmap. }
    split; [by rewrite (End_ok _ _ _ (proj1 Hlist'))|].
    split; [done|]. by apply footprint_tight.
  - destruct Hgen as (ns' & Hlist' & _ & Hfp & _). exists ns'.
    split; [done|].
    split; [by rewrite (End_ok _ _ _ (proj1 Hlist'))|].
    split; [done|]. by apply footprint_tight.
Qed.

End SequencesExact.

(** Both answers of the allocator: the block 10 that the assignment has
    just released, and no block at all. *)
Lemma move_assignment_never_fails_and_releases_witness :
  ((heap_wf (nodes (ex_two [Some 10%positive]))
    ∧ is_list (ex_two [Some 10%positive]) 1%positive 10%positive []
    ∧ is_list (ex_two [Some 10%positive]) 2%positive 20%positive
        [(21%positive, 7%Z)]
    ∧ 1%positive ≠ 2%positive ∧ 10%positive ≠ 20%positive
    ∧ alloc_succeeds_after (ex_two [Some 10%positive]) [10%positive]
        10%positive [])
   ∧ ∃ m', List_move_assign 1%positive 2%positive
             (ex_two [Some 10%positive]) = Ok tt m'
         ∧ is_list m' 1%positive 20%positive [(21%positive, 7%Z)]
         ∧ is_list m' 2%positive 10%positive []
         ∧ allocator m' = [])
  ∧ ((heap_wf (nodes (ex_two [None]))
      ∧ is_list (ex_two [None]) 1%positive 10%positive []
      ∧ is_list (ex_two [None]) 2%positive 20%positive [(21%positive, 7%Z)]
      ∧ 1%positive ≠ 2%positive ∧ 10%positive ≠ 20%positive
      ∧ ¬ (∃ a rest, alloc_succeeds_after (ex_two [None]) [10%positive]
                       a rest))
     ∧ ∃ m', List_move_assign 1%positive 2%positive (ex_two [None])
             = Ok tt m'
           ∧ is_list m' 1%positive 20%positive [(21%positive, 7%Z)]
           ∧ lists m' !! 2%positive = Some (mkList nullptr 1)
           ∧ nodes m' !! 10%positive = None).
Proof.
  assert (Hne : 1%positive ≠ 2%positive) by done.
  assert (Hene : 10%positive ≠ 20%positive) by done.
  split.
  - destruct (ex_two_lists [Some 10%positive]) as (Hwf & H1 & H2).
    assert (Hal : alloc_succeeds_after (ex_two [Some 10%positive])
                    [10%positive] 10%positive []).
    { split; [reflexivity|].
      split; [right; apply list_elem_of_here|by vm_compute]. }
    split; [done|].
    destruct (move_assignment_never_fails_and_releases
                (ex_two [Some 10%positive]) 1%positive 2%positive
                10%positive [] 20%positive [(21%positive, 7%Z)]
                Hwf H1 H2 Hne Hene)
      as (m' & Hrun & Hthis & _ & Hsucc & _).
    destruct (Hsucc 10%positive [] Hal) as (Hother & Hrest & _).
    exists m'. done.
  - destruct (ex_two_lists [None]) as (Hwf & H1 & H2).
    assert (Hno : ¬ (∃ a rest, alloc_succeeds_after (ex_two [None])
                                 [10%positive] a rest)).
    { intros (a & rest & Hal & _). discriminate Hal. }
    split; [done|].
    destruct (move_assignment_never_fails_and_releases
                (ex_two [None]) 1%positive 2%positive
                10%positive [] 20%positive [(21%positive, 7%Z)]
                Hwf H1 H2 Hne Hene)
      as (m' & Hrun & Hthis & _ & _ & Hfail).
    destruct (Hfail Hno) as (Hother & Hrel).
    exists m'. split; [done|]. split; [done|]. split; [done|].
    apply Hrel, list_elem_of_here.
Defined.

Lemma sequences_never_leak_witness :
  (heap_wf (nodes ex_A)
   ∧ is_list ex_A 1%positive 10%positive
       [(11%positive, 1%Z); (12%positive, 2%Z)]
   ∧ apply_ops [OpErase 0; OpPush AtBack ByCopy 3%Z; OpPopFront]
       ([(11%positive, 1%Z); (12%positive, 2%Z)].*2) = Some [3%Z])
  ∧ ∃ m' ns',
      run_ops 1%positive [OpErase 0; OpPush AtBack ByCopy 3%Z; OpPopFront]
        ex_A = Ok tt m'
      ∧ ns'.*2 = [3%Z]
      ∧ is_list m' 1%positive 10%positive ns'
      ∧ Size 1%positive m' = Ok 1%Z m'
      ∧ ∀ b, b ∉ 10%positive :: ns'.*1 → nodes m' !! b = None.
Proof.
  assert (Happ : apply_ops [OpErase 0; OpPush AtBack ByCopy 3%Z; OpPopFront]
                   ([(11%positive, 1%Z); (12%positive, 2%Z)].*2)
                 = Some [3%Z]) by reflexivity.
  split; [split; [exact ex_A_wf|split; [exact ex_A_list|exact Happ]]|].
  pose proof (sequences_never_leak 1%positive 10%positive
                [(11%positive, 1%Z); (12%positive, 2%Z)] ex_A
                [OpErase 0; OpPush AtBack ByCopy 3%Z; OpPopFront] [3%Z]
                ex_A_wf ex_A_list Happ) as Hthm.
  destruct (run_ops 1%positive
              [OpErase 0; OpPush AtBack ByCopy 3%Z; OpPopFront] ex_A)
    as [[] m'|ex m'| | |] eqn:Hrun; try (by vm_compute in Hrun).
  destruct Hthm as (ns' & Hvs & Hlist & Hsz & _ & _ & Htight).
  exists m', ns'. split; [reflexivity|]. split; [exact Hvs|].
  split; [exact Hlist|]. split; [exact Hsz|].
  apply Htight. intros b Hb.
  apply not_elem_of_cons in Hb as [Hb0 Hb].
  apply not_elem_of_cons in Hb as [Hb1 Hb].
  apply not_elem_of_cons in Hb as [Hb2 _].
  cbn [fst] in *. unfold ex_A. cbn [nodes].
  rewrite !lookup_insert_ne by done. apply lookup_singleton_ne. done.
Defined.

Section Compositions.
Context {T : Type} `{Element T}.
Implicit Types (h : gmap positive (ListNode (T:=T))).
Implicit Types (l : list (positive * T)).
Implicit Types (ns : list (positive * T)) (m : mem (T:=T)).
Implicit Types (ops : list (op (T:=T))) (vs : list T).

(** X21.  On a non-empty list [PopFront()] is [Erase(Begin())] and
    [PopBack()] is [Erase(--End())]: same outcome, same memory.  On an
    empty list both erases do nothing at all. *)
Theorem pops_are_erases_at_the_ends m this e ns :
  is_list m this e ns →
  (ns ≠ [] →
   PopFront this m = (it <- Begin this;; Erase this it) m
   ∧ PopBack this m
     = (it <- End this;; it' <- Iterator_predec it;; Erase this it') m)
  ∧ (ns = [] →
     (it <- Begin this;; Erase this it) m = Ok tt m
     ∧ (it <- End this;; it' <- Iterator_predec it;; Erase this it') m
       = Ok tt m).
Proof.
  intros Hlist. pose proof Hlist as [Hl Hr]. pose proof Hr as (Hnd & He & Hc).
  split.
  - intros Hne. split.
    + destruct ns as [|[a v] ns]; [done|]. cbn [hd_addr] in He.
      assert (a ≠ e) by apply (ring_sentinel_ne _ _ [] _ _ _ Hr).
      unfold PopFront, Begin, Erase. exec_top. reflexivity.
    + destruct (snoc_case ns) as [->|(l & a & v & ->)]; [done|].
      rewrite last_addr_app in He. cbn [last_addr] in He.
      assert (a ≠ e) by apply (ring_sentinel_ne _ _ _ _ _ _ Hr).
      unfold PopBack, End, Erase. red_iter. exec_top. reflexivity.
  - intros ->. cbn [hd_addr last_addr] in He.
    split; unfold Begin, End, Erase; red_iter; exec_top; reflexivity.
Qed.

(** X22.  After a move construction whose replacement allocation
    failed, the source has no sentinel: [IsEmpty()] holds and [End()] is
    the null iterator, but [Begin()], [Front()], [Back()] and the pops
    dereference the null [end_] (undefined behaviour), and no push can
    succeed, whatever the allocator answers. *)
Theorem moved_from_list_without_sentinel m this other e ns :
  is_list m other e ns → this ≠ other →
  (¬ ∃ a rest, alloc_succeeds m a rest) →
  ∃ m', List_move this other m = Ok tt m'
      ∧ lists m' !! other = Some (mkList nullptr 0)
      ∧ IsEmpty other m' = Ok true m'
      ∧ End other m' = Ok Iterator_default m'
      ∧ Begin other m' = Undefined
      ∧ Front other m' = Undefined
      ∧ Back other m' = Undefined
      ∧ (∀ s, pop s other m' = Undefined)
      ∧ (∀ s p x al,
           match push s p other x (mkMem (nodes m') (lists m') al) with
           | Ok _ _ => False
           | _ => True
           end).
Proof.
  intros [Hl Hr] Hne Hno.
  destruct (operator_new_cases m) as [(a & rest & Hal)|[rest Hfail]].
  { exfalso. apply Hno. eauto. }
  rewrite (List_move_no_memory m this other _ rest Hl Hne Hfail).
  eexists. split; [done|]. cbn [nodes lists].
  set (ls' := <[other:=mkList nullptr 0]> _).
  assert (Hl' : ls' !! other = Some (mkList nullptr 0))
    by apply lookup_insert_eq.
  clearbody ls'. clear Hl Hr Hno Hfail.
  split; [done|].
  split; [red_iter; by exec_top|].
  split; [red_iter; by exec_top|].
  split; [red_iter; by exec_top|].
  split; [red_iter; by exec_top|].
  split; [red_iter; by exec_top|].
  split.
  { intros s. destruct s; cbn [pop]; unfold PopFront, PopBack; by exec_top. }
  intros s p x al.
  destruct (operator_new_cases (mkMem (nodes m) ls' al))
    as [(a & rest' & Hal)|[rest' Hfail]].
  - destruct (ctor_throws p x) eqn:Hx.
    + destruct p; cbn [ctor_throws] in Hx.
      * by rewrite (push_copy_throws s _ other x a rest' Hal Hx).
      * by rewrite (push_move_throws s _ other x a rest' Hal Hx).
    + destruct Hal as (Hal & Ha & Hlt). cbn [nodes lists allocator] in *.
      subst al. apply Pos.ltb_lt in Hlt.
      destruct s, p; cbn [push ctor_throws] in *;
        unfold PushFront, PushFront_move, PushBack, PushBack_move,
          new_TNode_copy, new_TNode_move, operator_new, LinkAfter;
        exec_top; rewrite Hlt, Hx; by exec_top.
  - by rewrite (push_bad_alloc s p _ other x _ Hfail).
Qed.

(** X23.  A block that declares a list, applies pushes, pops and erases
    within their preconditions and ends: whether the block is left
    normally or by the exception of a push or of the constructor, the heap
    and the [List] objects are exactly as before the block: every node the
    list allocated has been released. *)
Theorem block_with_list_returns_every_node this m ops vs' :
  heap_wf (nodes m) → lists m !! this = None →
  apply_ops ops [] = Some vs' →
  match block_with_list this (run_ops this ops) m with
  | Ok _ m' | Throw _ m' => nodes m' = nodes m ∧ lists m' = lists m
  | Terminate => ∃ s x, OpPush s ByMove x ∈ ops ∧ move_throws x = true
  | Undefined | OutOfFuel => False
  end.
Proof.
  intros Hwf Hnone Happ. unfold block_with_list.
  destruct (operator_new_cases m) as [(a & rest & Hal & Ha & Hlt)|[rest Hfail]].
  2:{ unfold bind at 1. rewrite (List_default_fail m this _ Hfail).
      unfold set_lists. cbn [nodes lists]. split; [done|by apply delete_id]. }
  destruct m as [h ls al]. cbn [nodes lists allocator] in *. subst al.
  erewrite bind_Ok; [|by apply List_default_run].
  set (m0 := mkMem (<[a := mkNode (Some a) (Some a) None]> h)
               (<[this := mkList (Some a) 0]> ls) rest).
  assert (Hlist0 : is_list m0 this a []).
  { unfold m0. split; cbn [nodes lists length]; [by rewrite lookup_insert_eq|].
    apply ring_empty_intro. by rewrite lookup_insert_eq. }
  assert (Hwf0 : heap_wf (nodes m0)).
  { unfold m0. apply (heap_wf_frame [a] h); [done| |].
    - intros b Hb. apply not_elem_of_cons in Hb as [Hb _].
      cbn [nodes]. by rewrite lookup_insert_ne.
    - by intros b ->%list_elem_of_singleton. }
  assert (Hend : ∀ ns' m1,
            is_list m1 this a ns' → heap_wf (nodes m1) →
            footprint_kept a [] ns' m0 m1 → lists_frame this m0 m1 →
            ∃ m2, List_destroy this m1 = Ok tt m2
                  ∧ nodes m2 = h ∧ lists m2 = ls).
  { intros ns' m1 Hlist1 Hwf1 (_ & Hsame & Hnew) Hlf.
    destruct (List_destroy_exact m1 this a ns' Hwf1 Hlist1)
      as (m2 & Hrun & Hrel & Hkeep & Hl2 & _).
    exists m2. split; [done|]. split.
    - apply map_eq. intros b.
      destruct (decide (b ∈ a :: ns'.*1)) as [Hin|Hout].
      + rewrite (Hrel b Hin). symmetry.
        destruct (decide (b = a)) as [->|Hba]; [done|].
        rewrite <- (Hnew b Hin).
        * unfold m0. cbn [nodes]. by rewrite lookup_insert_ne.
        * by intros ->%list_elem_of_singleton.
      + rewrite (Hkeep b Hout).
        assert (b ≠ a) by (intros ->; apply Hout, list_elem_of_here).
        rewrite Hsame; [|done|by intros ->%list_elem_of_singleton].
        unfold m0. cbn [nodes]. by rewrite lookup_insert_ne.
    - rewrite Hl2. apply map_eq. intros o.
      destruct (decide (o = this)) as [->|Ho].
      + by rewrite lookup_delete_eq.
      + rewrite lookup_delete_ne by done. rewrite Hlf by done.
        unfold m0. cbn [lists]. by rewrite lookup_insert_ne. }
  pose proof (run_ops_exact this a ops [] m0 vs' Hwf0 Hlist0 Happ) as Hexact.
  pose proof (run_ops_total this a ops [] m0 vs' Hwf0 Hlist0 Happ) as Htotal.
  unfold try_catch, bind.
  destruct (run_ops this ops m0) as [[] m1|ex m1| | |]; try done.
  - destruct Hexact as (ns' & _ & Hlist1 & Hwf1 & Hfp & Hlf).
    destruct (Hend ns' m1 Hlist1 Hwf1 Hfp Hlf) as (m2 & -> & Hn & Hl).
    done.
  - destruct Hexact as (ns' & Hlist1 & Hwf1 & Hfp & Hlf).
    destruct (Hend ns' m1 Hlist1 Hwf1 Hfp Hlf) as (m2 & -> & Hn & Hl).
    done.
Qed.

(** X24.  A list without sentinel (null [end_], zero [size_], as a failed
    move leaves its source) becomes a list again by move assignment: it
    takes over the nodes of the other list, whatever the allocator
    answers.  Copy assignment to it returns only when the other list is
    empty, and then changes nothing; otherwise the first push throws or
    dereferences the null [end_]. *)
Theorem list_without_sentinel_is_revived_by_move_assignment
    m this other e ns :
  lists m !! this = Some (mkList nullptr 0) → is_list m other e ns →
  this ≠ other →
  (∃ m', List_move_assign this other m = Ok tt m'
       ∧ is_list m' this e ns
       ∧ (∀ b, b ∈ e :: ns.*1 → nodes m' !! b = nodes m !! b))
  ∧ (∀ fuel, match List_copy_assign fuel this other m with
             | Ok _ m' => ns = [] ∧ m' = m
             | _ => ns ≠ []
             end).
Proof.
  intros Hl Hother Hne. pose proof Hother as [Hlo Hr]. split.
  - destruct m as [h ls al]. cbn [nodes lists allocator] in *.
    assert (Hstart : ∀ A (K : M (T:=T) A),
              bind (clear_with this (PopBack this))
                (λ _, bind (get_end this)
                        (λ e0, bind (delete_node e0) (λ _, K)))
                (mkMem h ls al)
              = K (mkMem h ls al)).
    { intros A K. unfold clear_with. exec_top.
      change (Z.to_nat 0) with 0. rewrite while_not_empty_eq.
      unfold IsEmpty. exec_top. rewrite bool_decide_true by done.
      by exec_top. }
    destruct (operator_new_cases
                (mkMem h
                   (<[this := mkList (Some e) (Z.of_nat (length ns))]>
                      (<[this := mkList (Some e) 0]> ls)) al))
      as [(a & rest & Hal & Ha & Hlt)|[rest Hfail]];
      cbn [nodes lists allocator] in *.
    + subst al. apply Pos.ltb_lt in Hlt.
      assert (Hane : ∀ b, b ∈ e :: ns.*1 → b ≠ a).
      { intros b Hb ->. destruct (ring_live _ _ _ _ Hr Hb) as [? ?].
        congruence. }
      eexists. split.
      { clear -Hstart Ha Hlt Hl Hlo Hne.
        unfold List_move_assign, noexcept. rewrite decide_True by done.
        rewrite Hstart.
        unfold new_nothrow_ListNode, new_ListNode, operator_new.
        exec_branch. rewrite Hlt. exec_branch. reflexivity. }
      cbn [nodes lists allocator]. split.
      * split; cbn [nodes lists]; [by exec|].
        apply (ring_frame h); [|done]. intros b Hb.
        specialize (Hane b Hb). by rewrite !lookup_insert_ne.
      * intros b Hb. specialize (Hane b Hb). by rewrite !lookup_insert_ne.
    + eexists. split.
      { clear -Hstart Hfail Hl Hlo Hne.
        unfold List_move_assign, noexcept. rewrite decide_True by done.
        rewrite Hstart. unfold new_nothrow_ListNode, new_ListNode.
        exec_top. rewrite Hfail. exec_branch. reflexivity. }
      cbn [nodes lists allocator].
      split; [|done]. split; cbn [nodes lists]; [by exec|done].
  - intros fuel. unfold List_copy_assign. rewrite decide_True by done.
    assert (Hclear : clear_with this (PopBack this) m = Ok tt m).
    { destruct m as [h ls al]. cbn [lists] in Hl. unfold clear_with.
      exec_top. change (Z.to_nat 0) with 0. rewrite while_not_empty_eq.
      unfold IsEmpty. exec_top. by rewrite bool_decide_true. }
    erewrite bind_Ok; [|exact Hclear].
    erewrite bind_Ok; [|by apply (Begin_ok m other e ns)].
    rewrite assign_loop_eq.
    erewrite bind_Ok; [|by apply (End_ok _ _ _ Hlo)].
    unfold Iterator_ne. cbn [iter_ end_].
    destruct ns as [|[a v] ns]; cbn [hd_addr].
    + rewrite bool_decide_true by done. done.
    + pose proof (ring_sentinel_ne _ _ [] _ _ _ Hr) as Hae.
      pose proof (ring_typed_lookup _ _ [] _ _ _ Hr) as Ha.
      rewrite bool_decide_false by congruence. cbn [negb].
      destruct fuel as [|fuel]; [done|].
      erewrite bind_Ok; [|red_iter; exec_top; reflexivity].
      assert (Hpush : match PushBack this v m with
                      | Ok _ _ => False
                      | _ => True
                      end).
      { change (PushBack this v m) with (push AtBack ByCopy this v m).
        destruct (operator_new_cases m) as [(b & rest & Hal)|[rest Hfail]].
        - destruct (copy_throws v) eqn:Hx.
          + by rewrite (push_copy_throws AtBack m this v b rest Hal Hx).
          + destruct Hal as (Hal & Hb & Hlt). destruct m as [h ls al].
            cbn [nodes lists allocator] in *. subst al.
            apply Pos.ltb_lt in Hlt. clear Ha Hr Hother.
            cbn [push]. unfold PushBack, new_TNode_copy, operator_new.
            exec_top. rewrite Hlt, Hx. by exec_top.
        - by rewrite (push_bad_alloc AtBack ByCopy m this v _ Hfail). }
      unfold bind at 1.
      destruct (PushBack this v m) as [[] m1|ex m1| | |]; done.
Qed.

End Compositions.

Lemma pops_are_erases_at_the_ends_witness :
  (is_list ex_one 1%positive 10%positive [(11%positive, 5%Z)]
   ∧ [(11%positive, 5%Z)] ≠ [])
  ∧ PopFront 1%positive ex_one
    = (it <- Begin 1%positive;; Erase 1%positive it) ex_one.
Proof.
  assert (Hne : [(11%positive, 5%Z)] ≠ []) by done.
  split; [split; [exact ex_one_list|exact Hne]|].
  exact (proj1 (proj1 (pops_are_erases_at_the_ends ex_one 1%positive
                         10%positive [(11%positive, 5%Z)] ex_one_list)
                  Hne)).
Defined.

Lemma moved_from_list_without_sentinel_witness :
  (is_list (ex_two [None]) 2%positive 20%positive [(21%positive, 7%Z)]
   ∧ 3%positive ≠ 2%positive
   ∧ ¬ (∃ a rest, alloc_succeeds (ex_two [None]) a rest))
  ∧ ∃ m', List_move 3%positive 2%positive (ex_two [None]) = Ok tt m'
        ∧ IsEmpty 2%positive m' = Ok true m'
        ∧ Begin 2%positive m' = Undefined
        ∧ match push AtBack ByCopy 2%positive 1%Z
                  (mkMem (nodes m') (lists m') [Some 30%positive]) with
          | Ok _ _ => False
          | _ => True
          end.
Proof.
  destruct (ex_two_lists [None]) as (_ & _ & H2).
  assert (Hne : 3%positive ≠ 2%positive) by done.
  assert (Hno : ¬ (∃ a rest, alloc_succeeds (ex_two [None]) a rest)).
  { intros (a & rest & Hal & _). discriminate Hal. }
  split; [split; [exact H2|split; [exact Hne|exact Hno]]|].
  destruct (moved_from_list_without_sentinel (ex_two [None]) 3%positive
              2%positive 20%positive [(21%positive, 7%Z)] H2 Hne Hno)
    as (m' & Hrun & _ & Hemp & _ & Hbegin & _ & _ & _ & Hpush).
  exists m'. split; [exact Hrun|]. split; [exact Hemp|].
  split; [exact Hbegin|]. apply Hpush.
Defined.

Lemma block_with_list_returns_every_node_witness :
  (heap_wf (nodes ex_empty)
   ∧ lists ex_empty !! 2%positive = None
   ∧ apply_ops scenario_ops [] = Some [0%Z; 1%Z; 2%Z])
  ∧ ∃ m', block_with_list 2%positive (run_ops 2%positive scenario_ops)
            ex_empty = Throw bad_alloc m'
        ∧ nodes m' = nodes ex_empty ∧ lists m' = lists ex_empty.
Proof.
  assert (Hn : lists ex_empty !! 2%positive = None) by reflexivity.
  assert (Happ : apply_ops scenario_ops [] = Some [0%Z; 1%Z; 2%Z])
    by reflexivity.
  split; [split; [exact ex_empty_wf|split; [exact Hn|exact Happ]]|].
  pose proof (block_with_list_returns_every_node 2%positive ex_empty
                scenario_ops [0%Z; 1%Z; 2%Z] ex_empty_wf Hn Happ) as Hthm.
  destruct (block_with_list 2%positive (run_ops 2%positive scenario_ops)
              ex_empty) as [[] m'|ex m'| | |] eqn:Hrun;
    try (by vm_compute in Hrun).
  exists m'. split; [|exact Hthm].
  vm_compute in Hrun. injection Hrun as <- _. reflexivity.
Defined.

Lemma list_without_sentinel_is_revived_by_move_assignment_witness :
  (lists (ex_moved_from [Some 30%positive]) !! 2%positive
   = Some (mkList nullptr 0)
   ∧ is_list (ex_moved_from [Some 30%positive]) 3%positive 20%positive
       [(21%positive, 7%Z)]
   ∧ 2%positive ≠ 3%positive)
  ∧ ∃ m', List_move_assign 2%positive 3%positive
            (ex_moved_from [Some 30%positive]) = Ok tt m'
        ∧ is_list m' 2%positive 20%positive [(21%positive, 7%Z)].
Proof.
  assert (Hl : lists (ex_moved_from [Some 30%positive]) !! 2%positive
               = Some (mkList nullptr 0)) by reflexivity.
  assert (Ho : is_list (ex_moved_from [Some 30%positive]) 3%positive
                 20%positive [(21%positive, 7%Z)]) by concrete.
  assert (Hne : 2%positive ≠ 3%positive) by done.
  split; [split; [exact Hl|split; [exact Ho|exact Hne]]|].
  destruct (proj1 (list_without_sentinel_is_revived_by_move_assignment
                     (ex_moved_from [Some 30%positive]) 2%positive 3%positive
                     20%positive [(21%positive, 7%Z)] Hl Ho Hne))
    as (m' & Hrun & Hthis & _).
  exists m'. split; [exact Hrun|exact Hthis].
Defined.
